(** * routify.js: location matching and route activation

    A shallow embedding of [src/routify.js]: the pattern matcher
    ([locationMatch]), the registry of routing groups ([elements]) and the
    activation engine ([maybeActivateElement], [activateCurrentPath],
    [registerRoute], [unregisterRoute]), the configuration helpers
    ([Helpers]) and the click listener of [installRouter] ([Router]).

    Conventions of the embedding.
    - DOM elements are external objects compared by identity; an element is
      a [nat] (its identity), its resolved configuration is read through
      [cfg] and its mutable part lives in the [dom] component of the world.
      The helpers [get...FromEl] resolve the same configuration at every
      call (nobody rewrites the attributes of a registered element), and
      the [active] property holds a boolean or nothing.
    - [async] functions are run to completion: every [await] is a sequence
      point, and no second pass is interleaved with a running one.
    - The two callbacks of an element are opaque; a call is recorded in the
      trace of the run and is assumed neither to throw nor to touch the
      registry, the elements or the location.
    - [new URL(t, 'http://localhost/')] belongs to the host; the matcher is
      parametrised by it ([new_URL]), and is assumed not to throw.
    - The engine reads the resolved configuration of an element ([cfg]);
      how the helpers resolve it from attributes and properties is
      modelled apart, in [Helpers], on elements given by what the helpers
      read of them.
    - The click listener is modelled by the calls it makes, in order;
      whether [history.pushState] accepts a URL is the browser's answer
      ([pushState_accepts]). *)

From Stdlib Require Import Ascii String.
From stdpp Require Import base strings list gmap.

Local Open Scope string_scope.
Local Open Scope list_scope.

(** ** JavaScript strings *)

(** [s.split('/')]: never empty, [''.split('/')] is [['']]. *)
Fixpoint split (sep : ascii) (s : string) : list string :=
  match s with
  | EmptyString => [""]
  | String c s' =>
      if Ascii.eqb c sep then "" :: split sep s'
      else match split sep s' with
           | h :: t => String c h :: t
           | [] => [String c ""]
           end
  end.

(** [s.startsWith(':')] *)
Definition startsWith_colon (s : string) : bool :=
  match s with
  | String c _ => Ascii.eqb c ":"
  | EmptyString => false
  end.

(** [s.substr(1)] *)
Definition substr1 (s : string) : string :=
  match s with
  | String _ s' => s'
  | EmptyString => ""
  end.

(** [s.endsWith('#')] *)
Fixpoint endsWith_hash (s : string) : bool :=
  match s with
  | EmptyString => false
  | String c EmptyString => Ascii.eqb c "#"
  | String _ s' => endsWith_hash s'
  end.

(** Truthiness of a string: the empty string is the only falsy one. *)
Definition truthy (s : string) : bool :=
  match s with
  | EmptyString => false
  | String _ _ => true
  end.

(** [a || b] on strings. *)
Definition or_else (a b : string) : string := if truthy a then a else b.

(** ** The host's URL objects *)

(** The two fields of a [URL] object that the matcher reads. *)
Record URL := { url_pathname : string; url_hash : string }.

(** [window.location]: [hash] is either empty or starts with [#]. *)
Record Location := { pathname : string; hash : string }.

(** The value handed to [locationMatch]: [false] (no path), one template, or
    an array of alternatives. *)
Inductive templateInput :=
| NoPath
| One (t : string)
| Many (ts : list string).

(** [!templateUrl]: [false] and [''] are falsy, every array is truthy. *)
Definition falsy_template (p : templateInput) : bool :=
  match p with
  | NoPath => true
  | One t => negb (truthy t)
  | Many _ => false
  end.

(** What [locationMatch] returns: [undefined], [false], or the object of
    parameters. *)
Inductive matchResult :=
| MUndefined
| MFalse
| MParams (p : gmap string string).

(** Truthiness of such a value. *)
Definition truthy_result (r : matchResult) : bool :=
  match r with
  | MParams _ => true
  | _ => false
  end.

(** ** locationMatch *)

Section Matcher.

(** [new URL(templateUrl, 'http://localhost/')] *)
Variable new_URL : string -> URL.
(** [window.location] *)
Variable location : Location.

(** Lines 422-431: the hash of the template against the hash of the
    browser. *)
Definition templateHash (templateUrl : string) : string :=
  substr1 (or_else (url_hash (new_URL templateUrl)) "#").

Definition browserHash : string :=
  substr1 (or_else (hash location) "#").

Definition templateHashEmpty (templateUrl : string) : bool :=
  endsWith_hash templateUrl.

Definition hashMatching (templateUrl : string) : bool :=
  if truthy (templateHash templateUrl) || templateHashEmpty templateUrl then
    if templateHashEmpty templateUrl && truthy browserHash then false
    else if String.eqb (templateHash templateUrl) "*" && truthy browserHash
         then true
         else String.eqb (templateHash templateUrl) browserHash
  else true.

(** Lines 435-446: the loop over the segments, [i] running over both
    arrays at once; it is entered with arrays of one length, so the last
    case is never reached. *)
Fixpoint matchSegments (templatePath browserPath : list string)
    (callbackParams : gmap string string) : option (gmap string string) :=
  match templatePath, browserPath with
  | [], _ => Some callbackParams
  | t :: templatePath', b :: browserPath' =>
      if startsWith_colon t
      then matchSegments templatePath' browserPath'
             (<[substr1 t := b]> callbackParams)
      else if String.eqb t "*" && truthy b
           then matchSegments templatePath' browserPath' callbackParams
           else if String.eqb t b
                then matchSegments templatePath' browserPath' callbackParams
                else None
  | _ :: _, [] => None
  end.

Definition templatePath (templateUrl : string) : list string :=
  split "/" (url_pathname (new_URL templateUrl)).

Definition browserPath : list string :=
  split "/" (pathname location).

(** [locationMatchExecutor]: [None] is [false]. *)
Definition locationMatchExecutor (templateUrl : string)
    (checker : option (gmap string string -> bool))
    : option (gmap string string) :=
  if negb (Nat.eqb (length (templatePath templateUrl)) (length browserPath))
  then None
  else if negb (hashMatching templateUrl) then None
  else match matchSegments (templatePath templateUrl) browserPath ∅ with
       | None => None
       | Some callbackParams =>
           match checker with
           | None => Some callbackParams
           | Some check =>
               if check callbackParams then Some callbackParams else None
           end
       end.

(** The [for ... of] over the alternatives: the first truthy result. *)
Fixpoint firstMatch (templateUrls : list string)
    (checker : option (gmap string string -> bool)) : matchResult :=
  match templateUrls with
  | [] => MFalse
  | templateUrlElement :: rest =>
      match locationMatchExecutor templateUrlElement checker with
      | Some r => MParams r
      | None => firstMatch rest checker
      end
  end.

Definition locationMatch (templateUrl : templateInput)
    (checker : option (gmap string string -> bool)) : matchResult :=
  if falsy_template templateUrl then MUndefined
  else match templateUrl with
       | NoPath => MUndefined
       | One t =>
           match locationMatchExecutor t checker with
           | Some r => MParams r
           | None => MFalse
           end
       | Many ts => firstMatch ts checker
       end.

End Matcher.

(** ** A URL parser for plain templates

    [simple_URL t] is what [new URL(t, 'http://localhost/')] yields for a
    template made of a path and an optional fragment, written with
    characters that the parser leaves alone (no scheme, query, dot segment,
    white space, backslash or character that gets percent-encoded): the
    path is the text before the first [#], made absolute; the hash is the
    rest, and is empty when nothing follows the [#]. *)
Fixpoint cut_hash (s : string) : string * string :=
  match s with
  | EmptyString => ("", "")
  | String c s' =>
      if Ascii.eqb c "#" then ("", s)
      else let (p, h) := cut_hash s' in (String c p, h)
  end.

Definition simple_URL (t : string) : URL :=
  let (p, h) := cut_hash t in
  {| url_pathname := match p with
                     | String "/" _ => p
                     | _ => String "/" p
                     end;
     url_hash := match h with
                 | String _ EmptyString => ""
                 | _ => h
                 end |}.

(** ** The registry and the elements *)

(** What the helpers [getPagePathFromEl], [getRoutingGroupFromEl],
    [getFallbackFromEl] and [getDisableActivationFromEl] resolve for an
    element, and whether its two callback properties are set. *)
Record ElementConfig := {
  pagePath : templateInput;
  routingGroup : string;
  isFallback : bool;
  disableActivation : bool;
  preRouterCallback : bool;
  routerCallback : bool
}.

(** The part of an element that the module writes: the [active] attribute,
    the [active] property and the [__routingRegistered] mark. *)
Record ElementState := {
  activeAttribute : bool;
  activeProperty : bool;
  routingRegistered : bool
}.

(** An entry of [elements]: [{ list, fallback, activeElement }]; the field
    [list] is called [members] here. *)
Record Group := {
  members : list nat;
  fallback : option nat;
  activeElement : option nat
}.

(** The module's variables [elements] and [routerInstalled], and the
    elements of the page. [elements] keeps its keys in creation order. *)
Record World := {
  elements : list (string * Group);
  routerInstalled : bool;
  dom : nat -> ElementState
}.

(** The event object [e] handed to the callbacks; [None] is [null]. *)
Definition NavEvent := option nat.

(** What a run does to the outside. *)
Inductive Event :=
| console_error_no_path (el : nat)
| console_error_registered_twice (el : nat)
| call_preRouterCallback (el : nat) (params : gmap string string) (e : NavEvent)
| call_routerCallback (el : nat) (params : gmap string string) (e : NavEvent)
| route_activated (el : nat)
| console_log_elements.

(** [elements[group]] *)
Fixpoint lookup_group (group : string) (els : list (string * Group))
    : option Group :=
  match els with
  | [] => None
  | (k, g) :: rest => if String.eqb k group then Some g else lookup_group group rest
  end.

(** [elements[group] = g] on a key that exists; a new key goes last. *)
Fixpoint store_group (group : string) (g : Group)
    (els : list (string * Group)) : list (string * Group) :=
  match els with
  | [] => [(group, g)]
  | (k, g0) :: rest =>
      if String.eqb k group then (k, g) :: rest
      else (k, g0) :: store_group group g rest
  end.

(** *** Object.keys

    Keys that are array indices come first, in ascending numeric order; the
    other keys follow in creation order. *)
Definition digit (c : ascii) : option N :=
  let n := N_of_ascii c in
  if ((48 <=? n) && (n <=? 57))%N then Some (n - 48)%N else None.

Fixpoint decimal (s : string) (acc : N) : option N :=
  match s with
  | EmptyString => Some acc
  | String c s' =>
      match digit c with
      | Some d => decimal s' (10 * acc + d)%N
      | None => None
      end
  end.

Definition array_index (s : string) : option N :=
  match s with
  | EmptyString => None
  | String "0" EmptyString => Some 0%N
  | String "0" _ => None
  | _ => match decimal s 0 with
         | Some n => if (n <? 4294967295)%N then Some n else None
         | None => None
         end
  end.

Fixpoint insert_index (i : N) (k : string) (l : list (N * string))
    : list (N * string) :=
  match l with
  | [] => [(i, k)]
  | (j, k') :: rest =>
      if (i <=? j)%N then (i, k) :: l else (j, k') :: insert_index i k rest
  end.

Fixpoint index_keys (keys : list string) : list (N * string) :=
  match keys with
  | [] => []
  | k :: rest =>
      match array_index k with
      | Some i => insert_index i k (index_keys rest)
      | None => index_keys rest
      end
  end.

Definition is_index (k : string) : bool :=
  match array_index k with Some _ => true | None => false end.

Definition Object_keys (els : list (string * Group)) : list string :=
  let keys := map fst els in
  map snd (index_keys keys) ++ filter (fun k => is_index k = false) keys.

(** ** Runs

    A run either returns, with the world it leaves and what it did to the
    outside, or throws (the [TypeError] of reading a field of
    [elements[group]] for a group that does not exist). *)
Inductive Outcome (A : Type) : Type :=
| Returns (a : A) (w : World) (t : list Event)
| Throws (w : World) (t : list Event).
Arguments Returns {A} a w t.
Arguments Throws {A} w t.

Definition M (A : Type) : Type := World -> Outcome A.

Definition ret {A} (a : A) : M A := fun w => Returns a w [].

Definition bind {A B} (m : M A) (k : A -> M B) : M B := fun w =>
  match m w with
  | Returns a w1 t1 =>
      match k a w1 with
      | Returns b w2 t2 => Returns b w2 (t1 ++ t2)
      | Throws w2 t2 => Throws w2 (t1 ++ t2)
      end
  | Throws w1 t1 => Throws w1 t1
  end.

Notation "'let*' x ':=' m 'in' k" := (bind m (fun x => k))
  (at level 10, x name, m at level 100, k at level 200).
Notation "m >> k" := (bind m (fun _ => k))
  (at level 90, right associativity).

Definition emit (ev : Event) : M unit := fun w => Returns tt w [ev].

Definition when (b : bool) (m : M unit) : M unit := if b then m else ret tt.

(** Reading [elements[group]] to get at one of its fields. *)
Definition elements_at (group : string) : M Group := fun w =>
  match lookup_group group (elements w) with
  | Some g => Returns g w []
  | None => Throws w []
  end.

(** [elements[group].activeElement = v] *)
Definition with_activeElement (group : string) (v : option nat) (g : Group)
    (w : World) : World :=
  {| elements :=
       store_group group
         {| members := members g; fallback := fallback g; activeElement := v |}
         (elements w);
     routerInstalled := routerInstalled w;
     dom := dom w |}.

Definition set_activeElement (group : string) (v : option nat) : M unit :=
  fun w =>
  match lookup_group group (elements w) with
  | Some g => Returns tt (with_activeElement group v g w) []
  | None => Throws w []
  end.

(** [a !== b] for an element and a field that holds an element or [null]. *)
Definition is_not (el : nat) (field : option nat) : bool :=
  match field with
  | Some x => negb (Nat.eqb el x)
  | None => true
  end.

(** Truthiness of such a field. *)
Definition is_set (field : option nat) : bool :=
  match field with
  | Some _ => true
  | None => false
  end.

Definition set_dom (el : nat) (s : ElementState) (w : World) : World :=
  {| elements := elements w;
     routerInstalled := routerInstalled w;
     dom := fun x => if Nat.eqb x el then s else dom w x |}.

(** [getActiveFromEl] *)
Definition active_of (s : ElementState) : bool :=
  activeAttribute s || activeProperty s.

Definition getActiveFromEl (el : nat) : M bool := fun w =>
  Returns (active_of (dom w el)) w [].

(** [toggleElementActive] *)
Definition toggled (active : bool) (s : ElementState) : ElementState :=
  {| activeAttribute := active; activeProperty := active;
     routingRegistered := routingRegistered s |}.

Definition toggleElementActive (el : nat) (active : bool) : M unit :=
  (fun w => Returns tt (set_dom el (toggled active (dom w el)) w) []) >>
  when active (emit (route_activated el)).

Section Engine.

Variable new_URL : string -> URL.
Variable location : Location.
(** The configuration of each element of the page. *)
Variable cfg : nat -> ElementConfig.

(** The two guarded calls
    [if (el[pre]) await el[pre](params, e)] and
    [if (el[cb]) await el[cb](params, e)]. *)
Definition callbacks (el : nat) (params : gmap string string)
    (e : NavEvent) : M unit :=
  when (preRouterCallback (cfg el)) (emit (call_preRouterCallback el params e)) >>
  when (routerCallback (cfg el)) (emit (call_routerCallback el params e)).

(** A call that receives [isActiveWithParams] where it is truthy. *)
Definition with_params (r : matchResult)
    (k : gmap string string -> M unit) : M unit :=
  match r with
  | MParams params => k params
  | _ => ret tt
  end.

Definition maybeActivateElement (el : nat) (e : NavEvent) : M bool :=
  let path := pagePath (cfg el) in
  let group := routingGroup (cfg el) in
  let activationDisabled := disableActivation (cfg el) in
  let* noPath := (if falsy_template path
                 then let* g := elements_at group in
                      ret (is_not el (fallback g) && negb activationDisabled)
                 else ret false) in
  if noPath then
    emit (console_error_no_path el) >> ret false
  else
    let isActiveWithParams := locationMatch new_URL location path None in
    if activationDisabled && truthy_result isActiveWithParams then
      with_params isActiveWithParams (fun params => callbacks el params e) >>
      ret false
    else
      let* active := getActiveFromEl el in
      when (negb (Bool.eqb (truthy_result isActiveWithParams) active))
           (toggleElementActive el (truthy_result isActiveWithParams)) >>
      (if truthy_result isActiveWithParams then
         let* g := elements_at group in
         when (is_not el (activeElement g))
              (with_params isActiveWithParams
                 (fun params => callbacks el params e))
       else ret tt) >>
      when (truthy_result isActiveWithParams)
           (when (negb activationDisabled)
                 (set_activeElement group (Some el))) >>
      ret (truthy_result isActiveWithParams).

(** The inner loop of [activateCurrentPath]. *)
Fixpoint members_loop (l : list nat) (oneActive : bool) (e : NavEvent)
    : M bool :=
  match l with
  | [] => ret oneActive
  | el :: rest =>
      let* isActive := maybeActivateElement el e in
      members_loop rest (oneActive || isActive) e
  end.

(** What [activateCurrentPath] does for one group once its list is known
    not to be empty (lines 185-200). *)
Definition activate_group (group : string) (e : NavEvent) : M unit :=
  set_activeElement group None >>
  let* g := elements_at group in
  let* oneActive := members_loop (members g) false e in
  let* g' := elements_at group in
  match fallback g' with
  | Some fb =>
      let fallbackActive := negb oneActive in
      toggleElementActive fb fallbackActive >>
      when fallbackActive (callbacks fb ∅ e)
  | None => ret tt
  end.

(** The outer loop; an empty list [return]s from the whole function. *)
Fixpoint groups_loop (keys : list string) (e : NavEvent) : M unit :=
  match keys with
  | [] => emit console_log_elements
  | group :: rest =>
      let* g := elements_at group in
      if Nat.eqb (length (members g)) 0 then ret tt
      else activate_group group e >> groups_loop rest e
  end.

Definition activateCurrentPath (e : NavEvent) : M unit := fun w =>
  groups_loop (Object_keys (elements w)) e w.

(** [if (!elements[group]) elements[group] = { list: [], ... }] *)
Definition ensure_group (group : string) : M unit := fun w =>
  match lookup_group group (elements w) with
  | Some _ => Returns tt w []
  | None =>
      Returns tt
        {| elements :=
             store_group group
               {| members := []; fallback := None; activeElement := None |}
               (elements w);
           routerInstalled := routerInstalled w;
           dom := dom w |} []
  end.

(** [installRouter] registers the two listeners, which start a pass at
    each later change of location, and starts one at once. It is called by
    the first [registerRoute] before the element is pushed, when every list
    is still empty: that pass returns at its first group, before any
    [await]. *)
Definition installRouter : M unit := activateCurrentPath None.

Definition set_routerInstalled : M unit := fun w =>
  Returns tt
    {| elements := elements w; routerInstalled := true; dom := dom w |} [].

Definition mark_registered (el : nat) : M unit := fun w =>
  Returns tt
    (set_dom el
       {| activeAttribute := activeAttribute (dom w el);
          activeProperty := activeProperty (dom w el);
          routingRegistered := true |} w) [].

(** [elements[group].list.push(el)] *)
Definition push_member (group : string) (el : nat) : M unit := fun w =>
  match lookup_group group (elements w) with
  | Some g =>
      Returns tt
        {| elements :=
             store_group group
               {| members := members g ++ [el]; fallback := fallback g;
                  activeElement := activeElement g |} (elements w);
           routerInstalled := routerInstalled w;
           dom := dom w |} []
  | None => Throws w []
  end.

Definition set_fallback (group : string) (el : nat) : M unit := fun w =>
  match lookup_group group (elements w) with
  | Some g =>
      Returns tt
        {| elements :=
             store_group group
               {| members := members g; fallback := Some el;
                  activeElement := activeElement g |} (elements w);
           routerInstalled := routerInstalled w;
           dom := dom w |} []
  | None => Throws w []
  end.

Definition registerRoute (el : nat) : M unit :=
  let group := routingGroup (cfg el) in
  ensure_group group >>
  let* installed := (fun w => Returns (routerInstalled w) w []) in
  when (negb installed) (installRouter >> set_routerInstalled) >>
  let* registered := (fun w => Returns (routingRegistered (dom w el)) w []) in
  when registered (emit (console_error_registered_twice el)) >>
  mark_registered el >>
  push_member group el >>
  let* g := elements_at group in
  when (negb (is_set (fallback g)) && isFallback (cfg el))
       (set_fallback group el) >>
  let* g' := elements_at group in
  if negb (is_set (fallback g')) then
    maybeActivateElement el None >> ret tt
  else activateCurrentPath None.

(** The elements of [root.querySelectorAll(selector)] are given as a
    list. *)
Fixpoint registerRoutesFromSelector (found : list nat) : M unit :=
  match found with
  | [] => ret tt
  | el :: rest =>
      let group := routingGroup (cfg el) in
      ensure_group group >>
      let* g := elements_at group in
      when (negb (existsb (Nat.eqb el) (members g))) (registerRoute el) >>
      registerRoutesFromSelector rest
  end.

Definition unregisterRoute (el : nat) : M unit := fun w =>
  let group := routingGroup (cfg el) in
  match lookup_group group (elements w) with
  | None => Returns tt w []
  | Some g =>
      Returns tt
        {| elements :=
             store_group group
               {| members :=
                    filter (fun item => item <> el) (members g);
                  fallback := fallback g;
                  activeElement := activeElement g |} (elements w);
           routerInstalled := routerInstalled w;
           dom := dom w |} []
  end.

(** An unknown group [return]s from the whole function. *)
Fixpoint unregisterRoutesFromSelector (found : list nat) : M unit :=
  match found with
  | [] => ret tt
  | el :: rest =>
      fun w =>
      match lookup_group (routingGroup (cfg el)) (elements w) with
      | None => Returns tt w []
      | Some _ => (unregisterRoute el >> unregisterRoutesFromSelector rest) w
      end
  end.

End Engine.

(** ** Vocabulary of the statements *)

(** The trace of the two guarded callback calls of [callbacks]. *)
Definition callback_trace (cfg : nat -> ElementConfig) (el : nat)
    (params : gmap string string) (e : NavEvent) : list Event :=
  (if preRouterCallback (cfg el)
   then [call_preRouterCallback el params e] else []) ++
  (if routerCallback (cfg el)
   then [call_routerCallback el params e] else []).

(** The active flag after lines 155-158 asked for [b]: written only when it
    differs from what [getActiveFromEl] reads. *)
Definition ensure (b : bool) (s : ElementState) : ElementState :=
  if Bool.eqb b (active_of s) then s else toggled b s.

Definition ensure_dom (el : nat) (b : bool) (w : World) : World :=
  if Bool.eqb b (active_of (dom w el)) then w
  else set_dom el (toggled b (dom w el)) w.

(** The [route-activated] event of that write. *)
Definition ensure_trace (el : nat) (b : bool) (w : World) : list Event :=
  if Bool.eqb b (active_of (dom w el)) then []
  else if b then [route_activated el] else [].

Section Vocabulary.

Variable new_URL : string -> URL.
Variable location : Location.
Variable cfg : nat -> ElementConfig.

(** The location satisfies the path of the element. *)
Definition matches (el : nat) : bool :=
  truthy_result (locationMatch new_URL location (pagePath (cfg el)) None).

(** The element matches and its activation is not disabled: the members
    for which [maybeActivateElement] answers [true]. *)
Definition counts (el : nat) : bool :=
  matches el && negb (disableActivation (cfg el)).

(** The active element that the loop over the members [l] leaves in
    their group, which held [before]: each member that counts replaces
    the one recorded so far. *)
Definition recorded (l : list nat) (before : option nat) : option nat :=
  fold_left (fun acc el => if counts el then Some el else acc) l before.

(** Every member of a list is registered under the key of that list. *)
Definition members_in_own_group (w : World) : Prop :=
  forall key g el,
    lookup_group key (elements w) = Some g ->
    el ∈ members g -> routingGroup (cfg el) = key.

End Vocabulary.

(** The recorded active element of every group is one of its members. *)
Definition activeElement_is_member (w : World) : Prop :=
  forall key g el,
    lookup_group key (elements w) = Some g ->
    activeElement g = Some el -> el ∈ members g.

(** A run from a world that satisfies [P] returns, and its answer and the
    world it leaves satisfy [Q]. *)
Definition triple {A} (P : World -> Prop) (m : M A)
    (Q : A -> World -> Prop) : Prop :=
  forall w, P w -> exists a w' t, m w = Returns a w' t /\ Q a w'.

(** Whenever a run from a world that satisfies [P] returns, the world it
    leaves satisfies [P]. *)
Definition keeps {A} (P : World -> Prop) (m : M A) : Prop :=
  forall w a w1 t, P w -> m w = Returns a w1 t -> P w1.

(** Two entries of [elements] with the same members and fallback. *)
Definition group_frame (o o1 : option Group) : Prop :=
  match o, o1 with
  | Some g, Some g1 => members g = members g1 /\ fallback g = fallback g1
  | None, None => True
  | _, _ => False
  end.

(** [w1] has the groups of [w], with their members and fallbacks and in
    their order, and the registration marks of [w]. *)
Definition framed (w w1 : World) : Prop :=
  (forall key,
      group_frame (lookup_group key (elements w))
        (lookup_group key (elements w1))) /\
  (forall el, routingRegistered (dom w1 el) = routingRegistered (dom w el)) /\
  map fst (elements w1) = map fst (elements w).

(** Every event of a run that returns satisfies [Q]. *)
Definition emits {A} (Q : Event -> Prop) (m : M A) : Prop :=
  forall w a w1 t, m w = Returns a w1 t -> Forall Q t.

(** The callback calls of a trace, without the event object: [true] marks
    the pre-callback. *)
Definition hook_of (ev : Event)
    : option (bool * nat * gmap string string) :=
  match ev with
  | call_preRouterCallback el params _ => Some (true, el, params)
  | call_routerCallback el params _ => Some (false, el, params)
  | _ => None
  end.

Definition hook_calls (t : list Event)
    : list (bool * nat * gmap string string) :=
  omap hook_of t.

(** *** Two runs of one pass, side by side

    [w0] and [w0'] are the worlds in which the two runs start, [w] and [w']
    the worlds they have reached after the same steps. A group has the
    same recorded active element in both runs once one of them wrote it,
    and is as at the start before; an element is the same in both runs
    once its flag was written, and before that it is as at the start, or
    as at the start with its flag made to agree with the match [b]. *)
Definition group_rel (o0 o0' o o' : option Group) : Prop :=
  match o, o' with
  | Some g, Some g' =>
      members g = members g' /\ fallback g = fallback g' /\
      (activeElement g = activeElement g' \/ (o = o0 /\ o' = o0'))
  | None, None => True
  | _, _ => False
  end.

Definition element_rel (b : bool) (s0 s0' s s' : ElementState) : Prop :=
  routingRegistered s = routingRegistered s' /\
  (s = s' \/ (s = ensure b s0 /\ s' = ensure b s0') \/ (s = s0 /\ s' = s0')).

Definition side_by_side (m : nat -> bool) (w0 w0' w w' : World) : Prop :=
  (forall key,
      group_rel (lookup_group key (elements w0))
        (lookup_group key (elements w0'))
        (lookup_group key (elements w)) (lookup_group key (elements w'))) /\
  (forall el,
      element_rel (m el) (dom w0 el) (dom w0' el) (dom w el) (dom w' el)).

(** The two runs agree on the recorded active element of [key]. *)
Definition same_activeElement (key : string) (w w' : World) : Prop :=
  match lookup_group key (elements w), lookup_group key (elements w') with
  | Some g, Some g' => activeElement g = activeElement g'
  | _, _ => False
  end.

(** ** A page

    The page of the examples: three pages and a fallback in the default
    group, a main page that only listens, a tab in a group of its own, a
    page without a path, and two pages with the same path. *)
Definition page (el : nat) : ElementConfig :=
  match el with
  | 0 => {| pagePath := One "/main"; routingGroup := "default";
            isFallback := false; disableActivation := false;
            preRouterCallback := true; routerCallback := true |}
  | 1 => {| pagePath := One "/page-one/:id"; routingGroup := "default";
            isFallback := false; disableActivation := false;
            preRouterCallback := false; routerCallback := true |}
  | 2 => {| pagePath := One "/page-about"; routingGroup := "default";
            isFallback := false; disableActivation := false;
            preRouterCallback := false; routerCallback := false |}
  | 3 => {| pagePath := NoPath; routingGroup := "default";
            isFallback := true; disableActivation := false;
            preRouterCallback := true; routerCallback := true |}
  | 4 => {| pagePath := Many ["/"; "/:page"; "/:page/*"];
            routingGroup := "default";
            isFallback := false; disableActivation := true;
            preRouterCallback := true; routerCallback := true |}
  | 5 => {| pagePath := One "/main"; routingGroup := "tabs";
            isFallback := false; disableActivation := false;
            preRouterCallback := false; routerCallback := true |}
  | _ => {| pagePath := NoPath; routingGroup := "default";
            isFallback := false; disableActivation := false;
            preRouterCallback := true; routerCallback := true |}
  end.

Definition no_group : Group :=
  {| members := []; fallback := None; activeElement := None |}.

Definition inactive : ElementState :=
  {| activeAttribute := false; activeProperty := false;
     routingRegistered := false |}.

(** The module when it is loaded: [elements = { default: ... }]. *)
Definition initial_world : World :=
  {| elements := [("default", no_group)];
     routerInstalled := false;
     dom := fun _ => inactive |}.

Definition at_main : Location := {| pathname := "/main"; hash := "" |}.
Definition at_page_one : Location := {| pathname := "/page-one/10"; hash := "" |}.
Definition at_unknown : Location := {| pathname := "/unknown"; hash := "" |}.

(** The world of a run that returned. *)
Definition world_of {A} (o : Outcome A) : World :=
  match o with
  | Returns _ w _ => w
  | Throws w _ => w
  end.

Definition trace_of {A} (o : Outcome A) : list Event :=
  match o with
  | Returns _ _ t => t
  | Throws _ t => t
  end.

Definition returned {A} (o : Outcome A) : bool :=
  match o with
  | Returns _ _ _ => true
  | Throws _ _ => false
  end.

(** The two invariants of the registry, as checks that can be run. *)
Definition members_in_own_group_b (cfg : nat -> ElementConfig) (w : World)
    : bool :=
  forallb
    (fun kg =>
       forallb (fun el => String.eqb (routingGroup (cfg el)) (fst kg))
         (members (snd kg)))
    (elements w).

Definition activeElement_is_member_b (w : World) : bool :=
  forallb
    (fun kg =>
       match activeElement (snd kg) with
       | Some el => existsb (Nat.eqb el) (members (snd kg))
       | None => true
       end)
    (elements w).

(** The three pages and the fallback, registered and not yet active. *)
Definition pages : Group :=
  {| members := [0; 1; 2; 3]; fallback := Some 3; activeElement := None |}.

Definition pages_world : World :=
  {| elements := [("default", pages)];
     routerInstalled := true;
     dom := fun _ => inactive |}.

(** The same with the main page that only listens, and with a page without
    a path. *)
Definition pages_and_listener : Group :=
  {| members := [0; 1; 2; 3; 4; 6]; fallback := Some 3;
     activeElement := None |}.

Definition listener_world : World :=
  {| elements := [("default", pages_and_listener)];
     routerInstalled := true;
     dom := fun el =>
       {| activeAttribute := Nat.eqb el 4; activeProperty := false;
          routingRegistered := true |} |}.

(** Only a tab was registered, in a group of its own, while the browser was
    elsewhere. *)
Definition tabs_world : World :=
  world_of (registerRoute simple_URL at_unknown page 5 initial_world).

Definition at_deep : Location := {| pathname := "/x/y/z"; hash := "" |}.
Definition at_x_y : Location := {| pathname := "/x/y"; hash := "" |}.
Definition at_a_hash (h : string) : Location :=
  {| pathname := "/a"; hash := h |}.

(** ** More of JavaScript strings *)

(** [hay.indexOf(needle)]: the first position at which [needle] occurs,
    or [-1]. *)
Fixpoint indexOf (needle hay : string) : Z :=
  if String.prefix needle hay then 0%Z
  else match hay with
       | EmptyString => (-1)%Z
       | String _ rest =>
           let i := indexOf needle rest in
           if (i <? 0)%Z then (-1)%Z else (i + 1)%Z
       end.

(** [pieces.join(sep)] *)
Fixpoint join (sep : string) (pieces : list string) : string :=
  match pieces with
  | [] => ""
  | [p] => p
  | p :: rest => p +:+ sep +:+ join sep rest
  end.

(** ** The configuration and its helpers

    Lines 35-103. A value is [undefined], [null], a boolean, a string, an
    array of strings or some other object; numbers are left out. The values
    of [config] are strings. *)

Module Helpers.

Inductive JsValue :=
| JUndefined
| JNull
| JBool (b : bool)
| JString (s : string)
| JArray (items : list string)
| JObject.

Definition js_truthy (v : JsValue) : bool :=
  match v with
  | JUndefined | JNull => false
  | JBool b => b
  | JString s => truthy s
  | JArray _ | JObject => true
  end.

(** [a || b] *)
Definition js_or (a b : JsValue) : JsValue := if js_truthy a then a else b.

(** [config], as the module defines it. *)
Abbreviation Config := (gmap string string) (only parsing).

Definition config : Config :=
  list_to_map
    [("activeAttribute", "active");
     ("activeProperty", "active");
     ("pagePathAttribute", "page-path");
     ("pagePathProperty", "pagePath");
     ("routingGroupAttribute", "routing-group");
     ("routingGroupProperty", "routingGroup");
     ("fallbackAttribute", "fallback");
     ("fallbackProperty", "fallback");
     ("disableActivationAttribute", "disable-activation");
     ("disableActivationProperty", "disableActivation");
     ("preRouterCallbackProperty", "preRouterCallback");
     ("routerCallbackProperty", "routerCallback")].

(** [config[key] = value] *)
Definition setConfig (key value : string) (c : Config) : Config :=
  <[key := value]> c.

(** [config.key], used as the name of an attribute or of a property: a key
    that is not there reads [undefined], whose name is ["undefined"]. *)
Definition name_of (c : Config) (key : string) : string :=
  default "undefined" (c !! key).

(** What the helpers read of an element: its attributes, its properties
    and the properties of its constructor. *)
Record Element := {
  attributes : gmap string string;
  properties : gmap string JsValue;
  constructor_properties : gmap string JsValue
}.

(** [el.getAttribute(name)]: a string or [null]. *)
Definition getAttribute (el : Element) (name : string) : JsValue :=
  match attributes el !! name with
  | Some a => JString a
  | None => JNull
  end.

(** [el.hasAttribute(name)] *)
Definition hasAttribute (el : Element) (name : string) : JsValue :=
  match attributes el !! name with
  | Some _ => JBool true
  | None => JBool false
  end.

(** [el[name]] *)
Definition property (el : Element) (name : string) : JsValue :=
  default JUndefined (properties el !! name).

(** [el.constructor[name]] *)
Definition constructor_property (el : Element) (name : string) : JsValue :=
  default JUndefined (constructor_properties el !! name).

(** Lines 67-71, on what [getAttribute] returns. *)
Definition toArray (p : JsValue) : JsValue :=
  match p with
  | JString s =>
      if negb (js_truthy p) || negb (0 <=? indexOf " " s)%Z then p
      else JArray (split " " s)
  | _ => p
  end.

Definition getPagePathFromEl (c : Config) (el : Element) : JsValue :=
  js_or
    (js_or
       (js_or (toArray (getAttribute el (name_of c "pagePathAttribute")))
              (property el (name_of c "pagePathProperty")))
       (constructor_property el (name_of c "pagePathProperty")))
    (JBool false).

Definition getRoutingGroupFromEl (c : Config) (el : Element) : JsValue :=
  js_or
    (js_or (getAttribute el (name_of c "routingGroupAttribute"))
           (property el (name_of c "routingGroupProperty")))
    (JString "default").

Definition getFallbackFromEl (c : Config) (el : Element) : JsValue :=
  js_or
    (js_or
       (js_or (hasAttribute el (name_of c "fallbackAttribute"))
              (property el (name_of c "fallbackProperty")))
       (constructor_property el (name_of c "fallbackProperty")))
    (JBool false).

Definition getDisableActivationFromEl (c : Config) (el : Element) : JsValue :=
  js_or
    (js_or
       (js_or (hasAttribute el (name_of c "disableActivationAttribute"))
              (property el (name_of c "disableActivationProperty")))
       (constructor_property el (name_of c "disableActivationProperty")))
    (JBool false).

Definition getActiveFromEl (c : Config) (el : Element) : JsValue :=
  js_or
    (js_or (hasAttribute el (name_of c "activeAttribute"))
           (property el (name_of c "activeProperty")))
    (JBool false).

(** The path of an element as [locationMatch] takes it. [None]: a value
    that is neither falsy, nor a string, nor an array, on which
    [templateUrl.endsWith] is not a function. *)
Definition as_template (path : JsValue) : option templateInput :=
  match path with
  | JUndefined | JNull | JBool false => Some NoPath
  | JString s => Some (One s)
  | JArray ts => Some (Many ts)
  | JBool true | JObject => None
  end.

End Helpers.

(** ** The click listener of installRouter

    Lines 324-383. What the listener of [click] does is a list of calls, in
    the order of the code; the listener of [popstate] that [installRouter]
    adds at the same time is the only one that is followed. *)

Module Router.

(** A node of [e.composedPath()]. [tagName] is [None] on a node that has
    none (the document, the window); the other fields are read on an
    anchor only. *)
Record Node := {
  tagName : option string;
  target : string;
  download : bool;
  rel : option string;
  href : string
}.

(** The event of a click. *)
Record MouseEvent := {
  defaultPrevented : bool;
  button : Z;
  metaKey : bool;
  ctrlKey : bool;
  shiftKey : bool;
  composedPath : list Node
}.

(** The fields of [window.location] that the listener reads. *)
Record WindowLocation := {
  origin : string;
  protocol : string;
  host : string;
  location_href : string
}.

(** The event handed to [locationUpdatedCallback]. *)
Inductive Trigger :=
| click_event
| popstate_event.

Inductive Call :=
| preventDefault
| pushState (url : string)
| dispatch_popstate (init : option nat)
| locationUpdatedCallback (e : Trigger).

(** Lines 378-383; [state] is [None] when it is falsy. The event reaches
    the listener of line 361 before [dispatchEvent] returns. *)
Definition emitPopstate (state : option nat) : list Call :=
  [dispatch_popstate state; locationUpdatedCallback popstate_event].

(** [n.tagName === 'A'] *)
Definition is_anchor (n : Node) : bool :=
  match tagName n with
  | Some t => String.eqb t "A"
  | None => false
  end.

(** [anchor.getAttribute('rel') === 'external'] *)
Definition rel_external (n : Node) : bool :=
  match rel n with
  | Some r => String.eqb r "external"
  | None => false
  end.

(** Line 330: the innermost anchor of the path, if there is one. *)
Definition anchor_of (e : MouseEvent) : option Node :=
  head (List.filter is_anchor (composedPath e)).

(** Line 339 *)
Definition origin_of (location : WindowLocation) : string :=
  or_else (origin location) (protocol location +:+ "//" +:+ host location).

Section Listener.

(** Whether [history.pushState] accepts the URL; it throws a
    [SecurityError] otherwise. *)
Variable pushState_accepts : string -> bool.

(** Lines 326-357. The boolean tells whether the listener returned. *)
Definition on_click (e : MouseEvent) (location : WindowLocation)
    : list Call * bool :=
  if defaultPrevented e || negb (button e =? 0)%Z || metaKey e || ctrlKey e
     || shiftKey e
  then ([], true)
  else
    match anchor_of e with
    | None => ([], true)
    | Some anchor =>
        if truthy (target anchor) || download anchor || rel_external anchor
        then ([], true)
        else
          let href := href anchor in
          if negb (truthy href) || negb (indexOf "mailto:" href =? -1)%Z
          then ([], true)
          else
            let origin := origin_of location in
            if negb (indexOf origin href =? 0)%Z then ([], true)
            else if negb (String.eqb href (location_href location)) then
              if pushState_accepts href
              then (preventDefault :: pushState href
                      :: emitPopstate None
                      ++ [locationUpdatedCallback click_event], true)
              else ([preventDefault; pushState href], false)
            else ([preventDefault], true)
    end.

End Listener.

(** The events that [locationUpdatedCallback] was called with, in order. *)
Definition callback_events (calls : list Call) : list Trigger :=
  omap (fun call => match call with
                    | locationUpdatedCallback t => Some t
                    | _ => None
                    end) calls.

End Router.

(** *** Examples: elements and clicks *)

(** An element with a path of two alternatives, marked as a fallback by
    an attribute whose value reads ["false"]. *)
Definition about_page : Helpers.Element :=
  {| Helpers.attributes :=
       {[ "page-path" := "/about /info/:topic"; "fallback" := "false" ]};
     Helpers.properties := {[ "pagePath" := Helpers.JString "/other" ]};
     Helpers.constructor_properties := ∅ |}.

Definition at_info : Location := {| pathname := "/info/team"; hash := "" |}.

Definition at_site : Router.WindowLocation :=
  {| Router.origin := "https://site.example";
     Router.protocol := "https:";
     Router.host := "site.example";
     Router.location_href := "https://site.example/" |}.

Definition plain_link (url : string) : Router.Node :=
  {| Router.tagName := Some "A"; Router.target := "";
     Router.download := false; Router.rel := None; Router.href := url |}.

Definition span_node : Router.Node :=
  {| Router.tagName := Some "SPAN"; Router.target := "";
     Router.download := false; Router.rel := None; Router.href := "" |}.

(** A click of the main button, no key held, on a [span] inside a link. *)
Definition click_on (url : string) : Router.MouseEvent :=
  {| Router.defaultPrevented := false; Router.button := 0;
     Router.metaKey := false; Router.ctrlKey := false;
     Router.shiftKey := false;
     Router.composedPath := [span_node; plain_link url] |}.

(** [pushState] accepts the URLs of the site. *)
Definition same_site (url : string) : bool :=
  String.prefix "https://site.example/" url.

(** * Properties *)

(** ** Strings and the parser of plain templates *)

Example split_root : split "/" "/" = [""; ""].
Proof. reflexivity. Qed.

Example split_record : split "/" "/record/10" = [""; "record"; "10"].
Proof. reflexivity. Qed.

Example simple_URL_hash_star :
  simple_URL "/a#*" = {| url_pathname := "/a"; url_hash := "#*" |}.
Proof. reflexivity. Qed.

Example simple_URL_bare_hash :
  simple_URL "/a#" = {| url_pathname := "/a"; url_hash := "" |}.
Proof. reflexivity. Qed.

Lemma truthy_false (s : string) : truthy s = false <-> s = "".
Proof. destruct s; simpl; split; congruence. Qed.

Lemma truthy_true (s : string) : truthy s = true <-> s <> "".
Proof. destruct s; simpl; split; congruence. Qed.

(** ** The matcher *)

Section MatcherFacts.

Variable new_URL : string -> URL.
Variable location : Location.

Local Abbreviation executor := (locationMatchExecutor new_URL location).
Local Abbreviation segments := matchSegments.

(** The loop over the segments can be cut at any index. *)
Lemma matchSegments_app (t1 t2 b1 b2 : list string) :
  forall acc : gmap string string,
    length t1 = length b1 ->
    segments (t1 ++ t2) (b1 ++ b2) acc =
    segments t1 b1 acc ≫= segments t2 b2.
Proof.
  revert b1. induction t1 as [|t t1 IH]; intros [|b b1] acc Hlen;
    simpl in Hlen; try discriminate.
  - simpl. by destruct t2.
  - injection Hlen as Hlen. simpl.
    destruct (startsWith_colon t); [by apply IH|].
    destruct (String.eqb t "*" && truthy b); [by apply IH|].
    destruct (String.eqb t b); [by apply IH|done].
Qed.

(** A binding survives the segments that do not capture under its name. *)
Lemma matchSegments_keeps (name : string) (ts bs : list string) :
  forall acc p : gmap string string,
    (forall s, s ∈ ts -> startsWith_colon s = true -> substr1 s <> name) ->
    segments ts bs acc = Some p ->
    p !! name = acc !! name.
Proof.
  revert bs. induction ts as [|t ts IH]; intros bs acc p Hfresh Hm.
  - simpl in Hm. destruct bs; by simplify_eq.
  - destruct bs as [|b bs]; [discriminate|]. simpl in Hm.
    assert (Hts : forall s, s ∈ ts -> startsWith_colon s = true ->
                            substr1 s <> name).
    { intros s Hs. apply Hfresh. by right. }
    destruct (startsWith_colon t) eqn:Hc.
    + rewrite (IH _ _ _ Hts Hm). apply lookup_insert_ne.
      apply Hfresh; [by left|done].
    + destruct (String.eqb t "*" && truthy b); [by eapply IH|].
      destruct (String.eqb t b); [by eapply IH|discriminate].
Qed.

Lemma executor_segments (t : string) chk (p : gmap string string) :
  executor t chk = Some p ->
  segments (templatePath new_URL t) (browserPath location) ∅ = Some p.
Proof.
  unfold locationMatchExecutor. intros H.
  destruct (negb _); [discriminate|].
  destruct (negb _); [discriminate|].
  destruct (segments _ _ _) as [q|]; [|discriminate].
  destruct chk as [check|]; [|done].
  destruct (check q); by simplify_eq.
Qed.

Lemma executor_segments_None (t : string) chk :
  segments (templatePath new_URL t) (browserPath location) ∅ = None ->
  executor t chk = None.
Proof.
  unfold locationMatchExecutor. intros ->.
  destruct (negb _); [done|]. by destruct (negb _).
Qed.



Lemma firstMatch_not_undefined (ts : list string) chk :
  firstMatch new_URL location ts chk <> MUndefined.
Proof.
  induction ts as [|t ts IH]; simpl; [done|].
  by destruct (executor t chk).
Qed.

Lemma firstMatch_found (ts : list string) chk (p : gmap string string) :
  firstMatch new_URL location ts chk = MParams p <->
  exists pre t post,
    ts = pre ++ t :: post /\
    Forall (fun x => executor x chk = None) pre /\
    executor t chk = Some p.
Proof.
  induction ts as [|t ts IH]; simpl.
  - split; [done|]. intros (pre & t & post & E & _). by destruct pre.
  - destruct (executor t chk) as [q|] eqn:Hq.
    + split.
      * intros [= ->]. exists [], t, ts. by repeat split.
      * intros (pre & t' & post & E & Hpre & Ht').
        destruct pre as [|x pre]; simpl in E; simplify_eq; [congruence|].
        apply Forall_cons in Hpre as [Hx _]. congruence.
    + rewrite IH. split.
      * intros (pre & t' & post & -> & Hpre & Ht').
        exists (t :: pre), t', post. repeat split; [|done].
        by apply Forall_cons.
      * intros (pre & t' & post & E & Hpre & Ht').
        destruct pre as [|x pre]; simpl in E; simplify_eq.
        apply Forall_cons in Hpre as [_ Hpre]. by exists pre, t', post.
Qed.

Lemma firstMatch_none (ts : list string) chk :
  firstMatch new_URL location ts chk = MFalse <->
  Forall (fun x => executor x chk = None) ts.
Proof.
  induction ts as [|t ts IH]; simpl.
  - split; [by constructor|done].
  - destruct (executor t chk) as [q|] eqn:Hq.
    + split; [done|]. intros H. apply Forall_cons in H as [H _].
      congruence.
    + rewrite IH. split.
      * intros H. by apply Forall_cons.
      * intros H. by apply Forall_cons in H as [_ H].
Qed.

(** C6, as amended. [locationMatch] returns [undefined] exactly for a
    falsy template ([false] or the empty string). For a non-empty
    template it returns the parameters of the match, or [false]. For a
    list it returns the parameters of the first alternative, in list
    order, that matches, and [false] exactly when no alternative
    matches. *)
Theorem locationMatch_result (tpl : templateInput) chk :
  (locationMatch new_URL location tpl chk = MUndefined <->
   falsy_template tpl = true) /\
  (forall t, t <> "" ->
     locationMatch new_URL location (One t) chk =
     match executor t chk with Some p => MParams p | None => MFalse end) /\
  (forall ts p,
     locationMatch new_URL location (Many ts) chk = MParams p <->
     exists pre t post,
       ts = pre ++ t :: post /\
       Forall (fun x => executor x chk = None) pre /\
       executor t chk = Some p) /\
  (forall ts,
     locationMatch new_URL location (Many ts) chk = MFalse <->
     Forall (fun x => executor x chk = None) ts).
Proof.
  repeat split.
  - unfold locationMatch. destruct (falsy_template tpl) eqn:Hf; [done|].
    destruct tpl as [|t|ts]; [done| |].
    + by destruct (executor t chk).
    + intros H. by apply firstMatch_not_undefined in H.
  - unfold locationMatch. by intros ->.
  - intros t Ht. unfold locationMatch. simpl.
    apply truthy_true in Ht. by rewrite Ht.
  - apply firstMatch_found.
  - apply firstMatch_found.
  - apply firstMatch_none.
  - apply firstMatch_none.
Qed.

(** A falsy path never matches. *)
Lemma falsy_template_no_match (tpl : templateInput) chk :
  falsy_template tpl = true ->
  locationMatch new_URL location tpl chk = MUndefined.
Proof. unfold locationMatch. by intros ->. Qed.

End MatcherFacts.

(** ** The registry *)

Lemma lookup_store_eq (key : string) (g : Group) (els : list (string * Group)) :
  lookup_group key (store_group key g els) = Some g.
Proof.
  induction els as [|[k g0] els IH]; simpl.
  - by rewrite String.eqb_refl.
  - destruct (String.eqb k key) eqn:E; simpl; by rewrite E.
Qed.

Lemma lookup_store_ne (key key' : string) (g : Group)
    (els : list (string * Group)) :
  key <> key' ->
  lookup_group key' (store_group key g els) = lookup_group key' els.
Proof.
  intros Hne. induction els as [|[k g0] els IH]; simpl.
  - apply String.eqb_neq in Hne. by rewrite Hne.
  - destruct (String.eqb k key) eqn:E; simpl.
    + apply String.eqb_eq in E. subst k.
      apply String.eqb_neq in Hne. by rewrite Hne.
    + by rewrite IH.
Qed.

Lemma keys_store (key : string) (g g0 : Group) (els : list (string * Group)) :
  lookup_group key els = Some g0 ->
  map fst (store_group key g els) = map fst els.
Proof.
  induction els as [|[k g1] els IH]; simpl; [done|].
  destruct (String.eqb k key) eqn:E; simpl; [done|].
  intros H. by rewrite IH.
Qed.

Lemma lookup_group_key (key : string) (els : list (string * Group)) :
  key ∈ map fst els -> is_Some (lookup_group key els).
Proof.
  induction els as [|[k g] els IH]; simpl.
  - intros H. by apply elem_of_nil in H.
  - intros H. destruct (String.eqb_spec k key) as [->|Hne]; [by eexists|].
    apply elem_of_cons in H as [H|H]; [congruence|by apply IH].
Qed.

Lemma insert_index_elem (i : N) (k x : string) (l : list (N * string)) :
  x ∈ map snd (insert_index i k l) -> x = k \/ x ∈ map snd l.
Proof.
  induction l as [|[j k'] l IH]; simpl.
  - rewrite list_elem_of_singleton. by left.
  - destruct (i <=? j)%N; simpl; rewrite !elem_of_cons; [tauto|].
    intros [H|H]; [tauto|]. destruct (IH H); tauto.
Qed.

(** [Object.keys] lists keys of the object only. *)
Lemma Object_keys_elem (key : string) (els : list (string * Group)) :
  key ∈ Object_keys els -> key ∈ map fst els.
Proof.
  unfold Object_keys. rewrite elem_of_app. intros [H|H].
  - induction (map fst els) as [|k ks IH]; simpl in *; [done|].
    rewrite elem_of_cons. destruct (array_index k).
    + apply insert_index_elem in H as [->|H]; [by left|].
      right. by apply IH.
    + right. by apply IH.
  - by apply list_elem_of_filter in H as [_ H].
Qed.

Example Object_keys_order :
  Object_keys [("default", no_group); ("tabs", no_group); ("10", no_group);
               ("2", no_group); ("02", no_group)]
  = ["2"; "10"; "default"; "tabs"; "02"].
Proof. reflexivity. Qed.

(** ** The engine *)

Section EngineFacts.

Variable new_URL : string -> URL.
Variable location : Location.
Variable cfg : nat -> ElementConfig.

Local Abbreviation maybeActivate := (maybeActivateElement new_URL location cfg).
Local Abbreviation matched el :=
  (locationMatch new_URL location (pagePath (cfg el)) None).

Lemma callbacks_run (el : nat) (params : gmap string string)
    (e : NavEvent) (w : World) :
  callbacks cfg el params e w = Returns tt w (callback_trace cfg el params e).
Proof.
  unfold callbacks, callback_trace, bind, when, emit, ret.
  by destruct (preRouterCallback (cfg el)), (routerCallback (cfg el)).
Qed.

Lemma toggleElementActive_run (el : nat) (active : bool) (w : World) :
  toggleElementActive el active w =
  Returns tt (set_dom el (toggled active (dom w el)) w)
    (if active then [route_activated el] else []).
Proof. unfold toggleElementActive, bind, when, emit, ret. by destruct active. Qed.

(** [maybeActivateElement], branch by branch. *)
Lemma maybeActivateElement_run (el : nat) (e : NavEvent) (w : World) :
  maybeActivate el e w =
  let group := routingGroup (cfg el) in
  if falsy_template (pagePath (cfg el)) then
    match lookup_group group (elements w) with
    | None => Throws w []
    | Some g =>
        if is_not el (fallback g) && negb (disableActivation (cfg el))
        then Returns false w [console_error_no_path el]
        else Returns false (ensure_dom el false w) []
    end
  else
    match matched el with
    | MParams params =>
        if disableActivation (cfg el)
        then Returns false w (callback_trace cfg el params e)
        else
          match lookup_group group (elements w) with
          | None => Throws (ensure_dom el true w) (ensure_trace el true w)
          | Some g =>
              Returns true
                (with_activeElement group (Some el) g (ensure_dom el true w))
                (ensure_trace el true w ++
                 (if is_not el (activeElement g)
                  then callback_trace cfg el params e else []))
          end
    | _ => Returns false (ensure_dom el false w) []
    end.
Proof.
  unfold maybeActivateElement. cbv zeta.
  destruct (falsy_template (pagePath (cfg el))) eqn:Hf.
  - rewrite (falsy_template_no_match _ _ _ _ Hf).
    unfold bind at 1. unfold bind at 1. unfold elements_at.
    destruct (lookup_group _ _) as [g|]; [|done]. simpl.
    destruct (is_not el (fallback g) && negb (disableActivation (cfg el)));
      [done|].
    rewrite andb_false_r.
    unfold bind, getActiveFromEl, when, ensure_dom, ret. simpl.
    by destruct (active_of (dom w el)).
  - unfold bind at 1. simpl.
    destruct (matched el) as [| |params] eqn:Hm; simpl.
    + rewrite andb_false_r.
      unfold bind, getActiveFromEl, when, ensure_dom, ret. simpl.
      by destruct (active_of (dom w el)).
    + rewrite andb_false_r.
      unfold bind, getActiveFromEl, when, ensure_dom, ret. simpl.
      by destruct (active_of (dom w el)).
    + rewrite andb_true_r.
      destruct (disableActivation (cfg el)); simpl.
      * unfold bind. rewrite callbacks_run. simpl. by rewrite app_nil_r.
      * unfold bind, getActiveFromEl, when, ensure_dom, ensure_trace,
          elements_at, set_activeElement, ret.
        simpl.
        destruct (lookup_group _ _) as [g|] eqn:Hg;
          destruct (active_of (dom w el)); simpl;
          rewrite ?toggleElementActive_run; simpl; rewrite ?Hg; simpl;
          try done;
          destruct (is_not el (activeElement g)); simpl;
          rewrite ?callbacks_run; simpl; rewrite ?Hg; simpl;
          by rewrite ?app_nil_r.
Qed.

Lemma matched_truthy_path (el : nat) :
  truthy_result (matched el) = true ->
  falsy_template (pagePath (cfg el)) = false.
Proof.
  destruct (falsy_template (pagePath (cfg el))) eqn:Hf; [|done].
  by rewrite (falsy_template_no_match _ _ _ _ Hf).
Qed.

(** C7. A component whose activation is disabled and which matches the
    location has its pre-callback and then its callback called with the
    matched parameters, the world is left as it was (neither its active
    flag nor the active element of its group is written), and the answer
    is [false]. Whether it matches or not, the answer of a component with
    activation disabled is [false], and there is an answer whenever its
    group exists. *)
Theorem disabled_detour (el : nat) (e : NavEvent) (w : World) :
  disableActivation (cfg el) = true ->
  (forall params,
     matched el = MParams params ->
     maybeActivate el e w =
     Returns false w (callback_trace cfg el params e)) /\
  (forall r w' t, maybeActivate el e w = Returns r w' t -> r = false) /\
  (is_Some (lookup_group (routingGroup (cfg el)) (elements w)) ->
   exists w' t, maybeActivate el e w = Returns false w' t).
Proof.
  intros Hd. rewrite maybeActivateElement_run. cbv zeta. rewrite Hd.
  split; [|split].
  - intros params Hm.
    rewrite matched_truthy_path by (by rewrite Hm). by rewrite Hm.
  - intros r w' t.
    destruct (falsy_template (pagePath (cfg el))).
    + destruct (lookup_group _ _) as [g|]; [|done].
      rewrite andb_false_r. congruence.
    + destruct (matched el); congruence.
  - intros [g Hg]. rewrite Hg.
    destruct (falsy_template (pagePath (cfg el))).
    + rewrite andb_false_r. by eexists _, _.
    + destruct (matched el); by eexists _, _.
Qed.

Lemma is_not_other (el : nat) (field : option nat) :
  field <> Some el -> is_not el field = true.
Proof.
  destruct field as [x|]; simpl; [|done]. intros Hne.
  destruct (Nat.eqb_spec el x); [congruence|done].
Qed.

(** C9. A component without a path that is neither the fallback of its
    group nor disabled is reported, answers [false] and leaves the world
    as it was; the loop over the members of the group then goes on with
    the members that follow. *)
Theorem missing_path_is_skipped (el : nat) (e : NavEvent) (w : World)
    (g : Group) :
  falsy_template (pagePath (cfg el)) = true ->
  lookup_group (routingGroup (cfg el)) (elements w) = Some g ->
  fallback g <> Some el ->
  disableActivation (cfg el) = false ->
  maybeActivate el e w = Returns false w [console_error_no_path el] /\
  forall rest oneActive,
    members_loop new_URL location cfg (el :: rest) oneActive e w =
    match members_loop new_URL location cfg rest oneActive e w with
    | Returns b w' t => Returns b w' (console_error_no_path el :: t)
    | Throws w' t => Throws w' (console_error_no_path el :: t)
    end.
Proof.
  intros Hp Hg Hfb Hd.
  assert (Hrun : maybeActivate el e w =
                 Returns false w [console_error_no_path el]).
  { rewrite maybeActivateElement_run. cbv zeta.
    by rewrite Hp, Hg, Hd, is_not_other. }
  split; [done|]. intros rest oneActive. simpl. unfold bind at 1.
  rewrite Hrun, orb_false_r.
  by destruct (members_loop _ _ _ rest oneActive e w).
Qed.

Lemma ensure_dom_elements (el : nat) (b : bool) (w : World) :
  elements (ensure_dom el b w) = elements w.
Proof. unfold ensure_dom. by destruct (Bool.eqb _ _). Qed.

Lemma ensure_dom_installed (el : nat) (b : bool) (w : World) :
  routerInstalled (ensure_dom el b w) = routerInstalled w.
Proof. unfold ensure_dom. by destruct (Bool.eqb _ _). Qed.

Lemma ensure_dom_same (el : nat) (b : bool) (w : World) :
  dom (ensure_dom el b w) el = ensure b (dom w el).
Proof.
  unfold ensure_dom, ensure. destruct (Bool.eqb _ _); [done|].
  simpl. by rewrite Nat.eqb_refl.
Qed.

Lemma ensure_dom_other (el x : nat) (b : bool) (w : World) :
  x <> el -> dom (ensure_dom el b w) x = dom w x.
Proof.
  intros Hne. unfold ensure_dom. destruct (Bool.eqb _ _); [done|].
  simpl. by destruct (Nat.eqb_spec x el).
Qed.

Lemma active_of_ensure (b : bool) (s : ElementState) :
  active_of (ensure b s) = b.
Proof.
  unfold ensure. destruct (Bool.eqb_spec b (active_of s)); [done|].
  unfold active_of. simpl. by destruct b.
Qed.

(** C10. A component whose activation is disabled and whose path does not
    match goes through the ordinary toggling: no callback is called, the
    answer is [false], and its active flag, when it was set, is cleared
    (attribute and property); nothing else is written. *)
Theorem disabled_unmatched_is_cleared (el : nat) (e : NavEvent)
    (w : World) (g : Group) :
  disableActivation (cfg el) = true ->
  truthy_result (matched el) = false ->
  lookup_group (routingGroup (cfg el)) (elements w) = Some g ->
  maybeActivate el e w = Returns false (ensure_dom el false w) [] /\
  active_of (dom (ensure_dom el false w) el) = false /\
  (active_of (dom w el) = true ->
   dom (ensure_dom el false w) el = toggled false (dom w el)) /\
  (active_of (dom w el) = false -> ensure_dom el false w = w) /\
  elements (ensure_dom el false w) = elements w /\
  (forall x, x <> el -> dom (ensure_dom el false w) x = dom w x).
Proof.
  intros Hd Hm Hg. repeat split.
  - rewrite maybeActivateElement_run. cbv zeta. rewrite Hd, Hg.
    destruct (falsy_template (pagePath (cfg el))).
    + by rewrite andb_false_r.
    + by destruct (matched el).
  - by rewrite ensure_dom_same, active_of_ensure.
  - intros Ha. rewrite ensure_dom_same. unfold ensure. by rewrite Ha.
  - intros Ha. unfold ensure_dom. by rewrite Ha.
  - apply ensure_dom_elements.
  - intros x. apply ensure_dom_other.
Qed.

(** *** One member, then all members of a group *)

Lemma counts_matched (el : nat) :
  counts new_URL location cfg el =
  truthy_result (matched el) && negb (disableActivation (cfg el)).
Proof. done. Qed.

Lemma maybeActivateElement_step (el : nat) (e : NavEvent) (w : World)
    (g : Group) :
  lookup_group (routingGroup (cfg el)) (elements w) = Some g ->
  exists w1 t1,
    maybeActivate el e w = Returns (counts new_URL location cfg el) w1 t1 /\
    lookup_group (routingGroup (cfg el)) (elements w1) =
      Some {| members := members g; fallback := fallback g;
              activeElement :=
                if counts new_URL location cfg el then Some el
                else activeElement g |} /\
    (forall k, k <> routingGroup (cfg el) ->
               lookup_group k (elements w1) = lookup_group k (elements w)) /\
    map fst (elements w1) = map fst (elements w) /\
    (forall x, x <> el -> dom w1 x = dom w x) /\
    routerInstalled w1 = routerInstalled w.
Proof.
  intros Hg. rewrite maybeActivateElement_run. cbv zeta.
  rewrite counts_matched, Hg.
  assert (Hsame : forall b,
    lookup_group (routingGroup (cfg el)) (elements (ensure_dom el b w)) =
    Some {| members := members g; fallback := fallback g;
            activeElement := activeElement g |}).
  { intros b. rewrite ensure_dom_elements, Hg. by destruct g. }
  assert (Hw : lookup_group (routingGroup (cfg el)) (elements w) =
    Some {| members := members g; fallback := fallback g;
            activeElement := activeElement g |}).
  { rewrite Hg. by destruct g. }
  destruct (falsy_template (pagePath (cfg el))) eqn:Hf.
  - rewrite (falsy_template_no_match _ _ _ _ Hf). simpl.
    destruct (is_not el (fallback g) && negb (disableActivation (cfg el))).
    + by eexists _, _.
    + eexists _, _. split; [done|]. split; [apply Hsame|].
      rewrite ensure_dom_elements, ensure_dom_installed.
      repeat split; try done. intros x. apply ensure_dom_other.
  - destruct (matched el) as [| |params]; simpl.
    + eexists _, _. split; [done|]. split; [apply Hsame|].
      rewrite ensure_dom_elements, ensure_dom_installed.
      repeat split; try done. intros x. apply ensure_dom_other.
    + eexists _, _. split; [done|]. split; [apply Hsame|].
      rewrite ensure_dom_elements, ensure_dom_installed.
      repeat split; try done. intros x. apply ensure_dom_other.
    + destruct (disableActivation (cfg el)); simpl.
      * by eexists _, _.
      * eexists _, _. split; [done|]. simpl.
        rewrite ensure_dom_elements, ensure_dom_installed.
        rewrite lookup_store_eq. split; [done|].
        split; [by intros k Hk; apply lookup_store_ne|].
        split; [by eapply keys_store|].
        split; [|done]. intros x. apply ensure_dom_other.
Qed.

Lemma members_loop_run (key : string) (e : NavEvent) (l : list nat) :
  forall (acc : bool) (w : World) (g : Group),
    lookup_group key (elements w) = Some g ->
    (forall el, el ∈ l -> routingGroup (cfg el) = key) ->
    exists w1 t1,
      members_loop new_URL location cfg l acc e w =
        Returns (acc || existsb (counts new_URL location cfg) l) w1 t1 /\
      lookup_group key (elements w1) =
        Some {| members := members g; fallback := fallback g;
                activeElement :=
                  recorded new_URL location cfg l (activeElement g) |} /\
      (forall k, k <> key ->
                 lookup_group k (elements w1) = lookup_group k (elements w)) /\
      map fst (elements w1) = map fst (elements w) /\
      (forall x, x ∉ l -> dom w1 x = dom w x) /\
      routerInstalled w1 = routerInstalled w.
Proof.
  induction l as [|el l IH]; intros acc w g Hg Hl.
  - exists w, []. simpl. unfold ret. rewrite orb_false_r.
    repeat split; try done. rewrite Hg. by destruct g.
  - assert (Hel : routingGroup (cfg el) = key) by (apply Hl; by left).
    rewrite <- Hel in Hg.
    destruct (maybeActivateElement_step el e w g Hg)
      as (w1 & t1 & Hrun & Hg1 & Hk1 & Hkeys1 & Hdom1 & Hinst1).
    rewrite Hel in Hg1.
    destruct (IH (acc || counts new_URL location cfg el) w1 _ Hg1)
      as (w2 & t2 & Hrun2 & Hg2 & Hk2 & Hkeys2 & Hdom2 & Hinst2).
    { intros x Hx. apply Hl. by right. }
    exists w2, (t1 ++ t2). simpl. unfold bind. rewrite Hrun, Hrun2.
    split; [by rewrite orb_assoc|].
    split; [done|].
    split. { intros k Hk. rewrite Hk2 by done. apply Hk1. congruence. }
    split; [congruence|].
    split; [|congruence].
    intros x Hx. rewrite Hdom2, Hdom1; [done| |].
    + intros ->. apply Hx. by left.
    + intros Hin. apply Hx. by right.
Qed.

Lemma recorded_spec (l : list nat) :
  forall before el,
    recorded new_URL location cfg l before = Some el ->
    (el ∈ l /\ counts new_URL location cfg el = true) \/ before = Some el.
Proof.
  unfold recorded.
  induction l as [|x l IH]; intros before el; simpl; [by right|].
  intros H. apply IH in H as [[Hin Hc]|H].
  - left. split; [by right|done].
  - destruct (counts new_URL location cfg x) eqn:Hx; [|by right].
    injection H as ->. left. split; [by left|done].
Qed.

Lemma activate_group_run (key : string) (e : NavEvent) (w : World)
    (g : Group) :
  lookup_group key (elements w) = Some g ->
  (forall el, el ∈ members g -> routingGroup (cfg el) = key) ->
  exists w1 t1 w2 t2,
    members_loop new_URL location cfg (members g) false e
      (with_activeElement key None g w) =
      Returns (existsb (counts new_URL location cfg) (members g)) w1 t1 /\
    activate_group new_URL location cfg key e w = Returns tt w2 t2 /\
    lookup_group key (elements w2) =
      Some {| members := members g; fallback := fallback g;
              activeElement :=
                recorded new_URL location cfg (members g) None |} /\
    (forall k, k <> key ->
               lookup_group k (elements w2) = lookup_group k (elements w)) /\
    map fst (elements w2) = map fst (elements w) /\
    routerInstalled w2 = routerInstalled w /\
    (forall fb,
       fallback g = Some fb ->
       active_of (dom w2 fb) =
         negb (existsb (counts new_URL location cfg) (members g)) /\
       t2 = t1 ++
            (if existsb (counts new_URL location cfg) (members g) then []
             else route_activated fb :: callback_trace cfg fb ∅ e)).
Proof.
  intros Hg Hl.
  set (w0 := with_activeElement key None g w).
  assert (Hg0 : lookup_group key (elements w0) =
            Some {| members := members g; fallback := fallback g;
                    activeElement := None |}).
  { unfold w0. simpl. apply lookup_store_eq. }
  destruct (members_loop_run key e (members g) false w0 _ Hg0 Hl)
    as (w1 & t1 & Hrun & Hg1 & Hk1 & Hkeys1 & _ & Hinst1).
  simpl in Hrun, Hg1.
  assert (Hk0 : forall k, k <> key ->
    lookup_group k (elements w1) = lookup_group k (elements w)).
  { intros k Hk. rewrite Hk1 by done. unfold w0. simpl.
    by apply lookup_store_ne. }
  assert (Hkeys0 : map fst (elements w1) = map fst (elements w)).
  { rewrite Hkeys1. unfold w0. simpl. by eapply keys_store. }
  assert (Hpass : activate_group new_URL location cfg key e w =
    match fallback g with
    | Some fb =>
        Returns tt
          (set_dom fb
             (toggled (negb (existsb (counts new_URL location cfg)
                               (members g))) (dom w1 fb)) w1)
          (t1 ++
           (if existsb (counts new_URL location cfg) (members g) then []
            else route_activated fb :: callback_trace cfg fb ∅ e))
    | None => Returns tt w1 t1
    end).
  { unfold activate_group, bind, set_activeElement, elements_at.
    rewrite Hg. fold w0. rewrite Hg0. simpl. rewrite Hrun, Hg1. simpl.
    destruct (fallback g) as [fb|]; simpl; [|by rewrite ?app_nil_r].
    rewrite toggleElementActive_run.
    destruct (existsb (counts new_URL location cfg) (members g)); simpl;
      rewrite ?callbacks_run; simpl; by rewrite ?app_nil_r. }
  destruct (fallback g) as [fb|] eqn:Hfb.
  - eexists w1, t1, _, _. split; [done|]. split; [exact Hpass|].
    split; [done|]. split; [done|]. split; [done|]. split; [done|].
    intros fb' [= <-]. split; [|done]. simpl.
    rewrite Nat.eqb_refl. unfold active_of. simpl.
    by destruct (negb _).
  - eexists w1, t1, _, _. split; [done|]. split; [exact Hpass|].
    split; [done|]. split; [done|]. split; [done|]. split; [done|].
    intros fb' [=].
Qed.

(** C3. The pass over a group whose members are registered under its
    key returns. The active element it records is either none or a single
    member, one that matched with activation enabled (the last such
    member). The loop over the members answers whether some member
    matched -- a member with activation disabled never counts -- and when
    the group has a fallback, its active flag is set afterwards exactly
    when no member matched; in that case the trace of the pass ends with
    the activation of the fallback, followed by its pre-callback and
    then its callback, both called with the empty mapping. *)
Theorem fallback_iff_no_member_matched (key : string) (e : NavEvent)
    (w : World) (g : Group) :
  lookup_group key (elements w) = Some g ->
  (forall el, el ∈ members g -> routingGroup (cfg el) = key) ->
  exists w1 t1 w2 t2,
    members_loop new_URL location cfg (members g) false e
      (with_activeElement key None g w) =
      Returns (existsb (counts new_URL location cfg) (members g)) w1 t1 /\
    activate_group new_URL location cfg key e w = Returns tt w2 t2 /\
    lookup_group key (elements w2) =
      Some {| members := members g; fallback := fallback g;
              activeElement :=
                recorded new_URL location cfg (members g) None |} /\
    (forall el,
       recorded new_URL location cfg (members g) None = Some el ->
       el ∈ members g /\ counts new_URL location cfg el = true) /\
    (forall fb,
       fallback g = Some fb ->
       active_of (dom w2 fb) =
         negb (existsb (counts new_URL location cfg) (members g)) /\
       t2 = t1 ++
            (if existsb (counts new_URL location cfg) (members g) then []
             else route_activated fb :: callback_trace cfg fb ∅ e)).
Proof.
  intros Hg Hl.
  destruct (activate_group_run key e w g Hg Hl)
    as (w1 & t1 & w2 & t2 & Hloop & Hpass & Hg2 & _ & _ & _ & Hfb).
  exists w1, t1, w2, t2.
  split; [done|]. split; [done|]. split; [done|]. split; [|done].
  intros el H. by apply recorded_spec in H as [H|H].
Qed.

(** *** The invariants of the registry *)

Local Abbreviation wf := (members_in_own_group cfg).
Local Abbreviation inv := activeElement_is_member.
Local Abbreviation known key w := (is_Some (lookup_group key (elements w))).
Local Abbreviation member_of key el w :=
  (exists g, lookup_group key (elements w) = Some g /\ el ∈ members g).

Lemma invariants_store (key : string) (g : Group) (w w' : World) :
  wf w -> inv w ->
  lookup_group key (elements w') = Some g ->
  (forall k, k <> key ->
             lookup_group k (elements w') = lookup_group k (elements w)) ->
  (forall el, el ∈ members g -> routingGroup (cfg el) = key) ->
  (forall el, activeElement g = Some el -> el ∈ members g) ->
  wf w' /\ inv w'.
Proof.
  intros Hwf Hinv Hg Hk Hm Ha. split.
  - intros k g' el Hg' Hel. destruct (decide (k = key)) as [->|Hne].
    + rewrite Hg in Hg'. injection Hg' as <-. by apply Hm.
    + rewrite Hk in Hg' by done. by eapply Hwf.
  - intros k g' el Hg' Hel. destruct (decide (k = key)) as [->|Hne].
    + rewrite Hg in Hg'. injection Hg' as <-. by apply Ha.
    + rewrite Hk in Hg' by done. by eapply Hinv.
Qed.

Lemma lookup_group_known (key : string) (els : list (string * Group)) :
  is_Some (lookup_group key els) -> key ∈ map fst els.
Proof.
  induction els as [|[k g] els IH]; simpl.
  - by intros [? ?].
  - rewrite elem_of_cons.
    destruct (String.eqb_spec k key) as [->|Hne]; [by left|].
    intros H. right. by apply IH.
Qed.

Lemma known_same_keys (key : string) (w w' : World) :
  map fst (elements w') = map fst (elements w) ->
  known key w -> known key w'.
Proof.
  intros Hkeys H. apply lookup_group_key. rewrite Hkeys.
  by apply lookup_group_known.
Qed.

Lemma groups_loop_invariants (e : NavEvent) (keys : list string) :
  forall w,
    (forall k, k ∈ keys -> k ∈ map fst (elements w)) ->
    wf w -> inv w ->
    exists w' t,
      groups_loop new_URL location cfg keys e w = Returns tt w' t /\
      wf w' /\ inv w' /\
      map fst (elements w') = map fst (elements w) /\
      (forall key el, member_of key el w -> member_of key el w').
Proof.
  induction keys as [|key keys IH]; intros w Hkeys Hwf Hinv.
  - exists w, [console_log_elements]. by repeat split.
  - destruct (lookup_group_key key (elements w)) as [g Hg].
    { apply Hkeys. by left. }
    simpl. unfold bind at 1. unfold elements_at. rewrite Hg.
    destruct (Nat.eqb (length (members g)) 0).
    { exists w, []. by repeat split. }
    destruct (activate_group_run key e w g Hg)
      as (w1 & t1 & w2 & t2 & _ & Hpass & Hg2 & Hk2 & Hkeys2 & _ & _).
    { intros el. by apply Hwf. }
    assert (Hinv12 : wf w2 /\ inv w2).
    { eapply (invariants_store key);
        [exact Hwf|exact Hinv|exact Hg2|exact Hk2| |]; simpl.
      - intros el. by apply Hwf.
      - intros el H. by apply recorded_spec in H as [[H _]|H]. }
    destruct Hinv12 as [Hwf2 Hinv2].
    destruct (IH w2) as (w3 & t3 & Hrun & Hwf3 & Hinv3 & Hkeys3 & Hmem3);
      try done.
    { intros k Hk. rewrite Hkeys2. apply Hkeys. by right. }
    exists w3, (t2 ++ t3). unfold bind. rewrite Hpass, Hrun. simpl.
    split; [done|]. split; [done|]. split; [done|].
    split; [congruence|].
    intros k el (g0 & Hg0 & Hel). apply Hmem3.
    destruct (decide (k = key)) as [->|Hne].
    + rewrite Hg in Hg0. injection Hg0 as <-. by eexists.
    + exists g0. by rewrite Hk2.
Qed.

Lemma activateCurrentPath_invariants (e : NavEvent) (w : World) :
  wf w -> inv w ->
  exists w' t,
    activateCurrentPath new_URL location cfg e w = Returns tt w' t /\
    wf w' /\ inv w' /\
    map fst (elements w') = map fst (elements w) /\
    (forall key el, member_of key el w -> member_of key el w').
Proof.
  intros Hwf Hinv. unfold activateCurrentPath.
  apply groups_loop_invariants; try done.
  intros k. apply Object_keys_elem.
Qed.

(** *** Runs that keep an assertion *)

Lemma triple_bind {A B} (P : World -> Prop) (Q : A -> World -> Prop)
    (R : B -> World -> Prop) (m : M A) (k : A -> M B) :
  triple P m Q -> (forall a, triple (Q a) (k a) R) ->
  triple P (bind m k) R.
Proof.
  intros Hm Hk w HP.
  destruct (Hm w HP) as (a & w1 & t1 & E1 & HQ).
  destruct (Hk a w1 HQ) as (b & w2 & t2 & E2 & HR).
  exists b, w2, (t1 ++ t2). unfold bind. by rewrite E1, E2.
Qed.

Lemma triple_weaken {A} (P P' : World -> Prop) (Q Q' : A -> World -> Prop)
    (m : M A) :
  (forall w, P' w -> P w) -> (forall a w, Q a w -> Q' a w) ->
  triple P m Q -> triple P' m Q'.
Proof.
  intros HP HQ Hm w Hw.
  destruct (Hm w (HP w Hw)) as (a & w1 & t1 & E1 & H1).
  exists a, w1, t1. split; [done|]. by apply HQ.
Qed.

Lemma triple_ret {A} (P : World -> Prop) (a : A) :
  triple P (ret a) (fun _ => P).
Proof. intros w Hw. by exists a, w, []. Qed.

Lemma triple_emit (P : World -> Prop) (ev : Event) :
  triple P (emit ev) (fun _ => P).
Proof. intros w Hw. by exists tt, w, [ev]. Qed.

Lemma triple_when (P : World -> Prop) (b : bool) (m : M unit) :
  triple P m (fun _ => P) -> triple P (when b m) (fun _ => P).
Proof. destruct b; simpl; [done|]. intros _. apply triple_ret. Qed.

Lemma triple_read {A} (P : World -> Prop) (f : World -> A) :
  triple P (fun w => Returns (f w) w []) (fun _ => P).
Proof. intros w Hw. by exists (f w), w, []. Qed.

Lemma elements_at_keeps (P : World -> Prop) (key : string) :
  triple (fun w => P w /\ known key w) (elements_at key)
    (fun _ w => P w /\ known key w).
Proof.
  intros w [HP [g Hg]]. exists g, w, []. unfold elements_at. rewrite Hg.
  by repeat split.
Qed.

Lemma ensure_group_keeps (key : string) :
  triple (fun w => wf w /\ inv w) (ensure_group key)
    (fun _ w => (wf w /\ inv w) /\ known key w).
Proof.
  intros w [Hwf Hinv]. unfold ensure_group.
  destruct (lookup_group key (elements w)) as [g|] eqn:Hg.
  - exists tt, w, []. by rewrite Hg.
  - eexists tt, _, []. split; [done|]. simpl. split.
    + eapply (invariants_store key);
        [exact Hwf|exact Hinv|apply lookup_store_eq| | |]; simpl.
      * intros k Hk. by apply lookup_store_ne.
      * intros el H. by apply elem_of_nil in H.
      * done.
    + by rewrite lookup_store_eq.
Qed.

Lemma push_member_keeps (el : nat) :
  triple (fun w => (wf w /\ inv w) /\ known (routingGroup (cfg el)) w)
    (push_member (routingGroup (cfg el)) el)
    (fun _ w => (wf w /\ inv w) /\ member_of (routingGroup (cfg el)) el w).
Proof.
  intros w [[Hwf Hinv] [g Hg]]. unfold push_member. rewrite Hg.
  eexists tt, _, []. split; [done|]. simpl. split.
  - eapply (invariants_store (routingGroup (cfg el)));
      [exact Hwf|exact Hinv|apply lookup_store_eq| | |]; simpl.
    + intros k Hk. by apply lookup_store_ne.
    + intros x. rewrite elem_of_app, list_elem_of_singleton.
      intros [Hx| ->]; [by eapply Hwf|done].
    + intros x Hx. apply elem_of_app. left. by eapply Hinv.
  - rewrite lookup_store_eq. eexists. split; [done|]. simpl.
    apply elem_of_app. right. by apply list_elem_of_singleton.
Qed.

Lemma set_fallback_keeps (key : string) (el fb : nat) :
  triple (fun w => (wf w /\ inv w) /\ member_of key el w)
    (set_fallback key fb)
    (fun _ w => (wf w /\ inv w) /\ member_of key el w).
Proof.
  intros w [[Hwf Hinv] (g & Hg & Hel)]. unfold set_fallback. rewrite Hg.
  eexists tt, _, []. split; [done|]. simpl. split.
  - eapply (invariants_store key);
      [exact Hwf|exact Hinv|apply lookup_store_eq| | |]; simpl.
    + intros k Hk. by apply lookup_store_ne.
    + intros x Hx. by eapply Hwf.
    + intros x Hx. by eapply Hinv.
  - rewrite lookup_store_eq. by eexists.
Qed.

Lemma maybeActivateElement_keeps (el : nat) (e : NavEvent) :
  triple (fun w => (wf w /\ inv w) /\ member_of (routingGroup (cfg el)) el w)
    (maybeActivate el e)
    (fun _ w => wf w /\ inv w).
Proof.
  intros w [[Hwf Hinv] (g & Hg & Hel)].
  destruct (maybeActivateElement_step el e w g Hg)
    as (w1 & t1 & Hrun & Hg1 & Hk1 & _).
  eexists _, w1, t1. split; [done|].
  eapply (invariants_store (routingGroup (cfg el)));
    [exact Hwf|exact Hinv|exact Hg1|exact Hk1| |]; simpl.
  - intros x Hx. by eapply Hwf.
  - intros x. destruct (counts new_URL location cfg el).
    + by intros [= <-].
    + intros Hx. by eapply Hinv.
Qed.

Lemma activateCurrentPath_keeps (e : NavEvent) :
  triple (fun w => wf w /\ inv w) (activateCurrentPath new_URL location cfg e)
    (fun _ w => wf w /\ inv w).
Proof.
  intros w [Hwf Hinv].
  destruct (activateCurrentPath_invariants e w Hwf Hinv)
    as (w' & t & Hrun & Hwf' & Hinv' & _).
  by exists tt, w', t.
Qed.

Lemma activateCurrentPath_keeps_known (e : NavEvent) (key : string) :
  triple (fun w => (wf w /\ inv w) /\ known key w)
    (activateCurrentPath new_URL location cfg e)
    (fun _ w => (wf w /\ inv w) /\ known key w).
Proof.
  intros w [[Hwf Hinv] Hkey].
  destruct (activateCurrentPath_invariants e w Hwf Hinv)
    as (w' & t & Hrun & Hwf' & Hinv' & Hkeys & _).
  exists tt, w', t. split; [done|]. split; [done|].
  by eapply known_same_keys.
Qed.

Lemma same_elements_keeps (P : World -> Prop) (f : World -> World) :
  (forall w w', elements w' = elements w -> P w -> P w') ->
  (forall w, elements (f w) = elements w) ->
  triple P (fun w => Returns tt (f w) []) (fun _ => P).
Proof.
  intros HP Hf w Hw. exists tt, (f w), []. split; [done|].
  apply (HP w); [apply Hf|exact Hw].
Qed.

Lemma known_same_elements (key : string) (w w' : World) :
  elements w' = elements w ->
  (wf w /\ inv w) /\ known key w -> (wf w' /\ inv w') /\ known key w'.
Proof.
  unfold members_in_own_group, activeElement_is_member. by intros ->.
Qed.

Lemma registerRoute_keeps (el : nat) :
  triple (fun w => wf w /\ inv w) (registerRoute new_URL location cfg el)
    (fun _ w => wf w /\ inv w).
Proof.
  unfold registerRoute. cbv zeta.
  eapply triple_bind; [apply ensure_group_keeps|]. intros ?.
  eapply triple_bind; [apply triple_read|]. intros installed.
  eapply triple_bind.
  { apply triple_when. eapply triple_bind.
    - apply activateCurrentPath_keeps_known.
    - intros ?. apply same_elements_keeps; [|done].
      apply known_same_elements. }
  intros ?.
  eapply triple_bind; [apply triple_read|]. intros registered.
  eapply triple_bind; [apply triple_when, triple_emit|]. intros ?.
  eapply triple_bind.
  { apply same_elements_keeps; [|done]. apply known_same_elements. }
  intros ?.
  eapply triple_bind; [apply push_member_keeps|]. intros ?.
  eapply triple_bind.
  { eapply triple_weaken; [| |apply (elements_at_keeps
      (fun w => (wf w /\ inv w) /\ member_of (routingGroup (cfg el)) el w))].
    - intros w [HI (g & Hg & Hel)]. split; [|by eexists].
      split; [done|]. by exists g.
    - intros g w [H _]. exact H. }
  intros g.
  eapply triple_bind; [apply triple_when, set_fallback_keeps|]. intros ?.
  eapply triple_bind.
  { eapply triple_weaken; [| |apply (elements_at_keeps
      (fun w => (wf w /\ inv w) /\ member_of (routingGroup (cfg el)) el w))].
    - intros w [HI (g0 & Hg & Hel)]. split; [|by eexists].
      split; [done|]. by exists g0.
    - intros g0 w [H _]. exact H. }
  intros g'.
  destruct (negb (is_set (fallback g'))).
  - eapply triple_bind; [apply maybeActivateElement_keeps|].
    intros ?. apply triple_ret.
  - eapply triple_weaken; [| |apply activateCurrentPath_keeps].
    + by intros w [H _].
    + done.
Qed.

Lemma registerRoutesFromSelector_keeps (found : list nat) :
  triple (fun w => wf w /\ inv w)
    (registerRoutesFromSelector new_URL location cfg found)
    (fun _ w => wf w /\ inv w).
Proof.
  induction found as [|el found IH]; simpl; [apply triple_ret|].
  eapply triple_bind; [apply ensure_group_keeps|]. intros ?.
  eapply triple_bind.
  { eapply triple_weaken; [| |apply (elements_at_keeps
      (fun w => wf w /\ inv w))]; [done|].
    intros g w [H _]. exact H. }
  intros g.
  eapply triple_bind; [apply triple_when, registerRoute_keeps|].
  intros ?. apply IH.
Qed.

Lemma unregisterRoute_run (el : nat) (w : World) :
  wf w ->
  exists w',
    unregisterRoute cfg el w = Returns tt w' [] /\
    wf w' /\
    forall key g,
      lookup_group key (elements w) = Some g ->
      lookup_group key (elements w') =
      Some {| members :=
                if String.eqb key (routingGroup (cfg el))
                then filter (fun item => item <> el) (members g)
                else members g;
              fallback := fallback g;
              activeElement := activeElement g |}.
Proof.
  intros Hwf. unfold unregisterRoute. cbv zeta.
  destruct (lookup_group (routingGroup (cfg el)) (elements w))
    as [g0|] eqn:Hg0.
  - eexists. split; [done|].
    assert (Hlook : forall key g,
      lookup_group key (elements w) = Some g ->
      lookup_group key
        (store_group (routingGroup (cfg el))
           {| members := filter (fun item => item <> el) (members g0);
              fallback := fallback g0;
              activeElement := activeElement g0 |} (elements w)) =
      Some {| members :=
                if String.eqb key (routingGroup (cfg el))
                then filter (fun item => item <> el) (members g)
                else members g;
              fallback := fallback g;
              activeElement := activeElement g |}).
    { intros key g Hg.
      destruct (String.eqb_spec key (routingGroup (cfg el))) as [->|Hne].
      - rewrite lookup_store_eq. congruence.
      - rewrite lookup_store_ne by done. rewrite Hg. by destruct g. }
    split; [|exact Hlook].
    intros key g x Hg Hx. simpl in Hg.
    destruct (String.eqb_spec key (routingGroup (cfg el))) as [->|Hne].
    + rewrite lookup_store_eq in Hg. injection Hg as <-. simpl in Hx.
      apply list_elem_of_filter in Hx as [_ Hx]. by eapply Hwf.
    + rewrite lookup_store_ne in Hg by done. by eapply Hwf.
  - exists w. split; [done|]. split; [done|].
    intros key g Hg.
    destruct (String.eqb_spec key (routingGroup (cfg el))) as [->|Hne];
      [congruence|].
    rewrite Hg. by destruct g.
Qed.


Lemma initial_world_invariants :
  members_in_own_group cfg initial_world /\
  activeElement_is_member initial_world.
Proof.
  split; intros key g el Hg Hel;
    change (elements initial_world) with [("default", no_group)] in Hg;
    change (lookup_group key [("default", no_group)])
      with (if String.eqb "default" key then Some no_group else None) in Hg;
    destruct (String.eqb "default" key); try discriminate;
    injection Hg as <-; simpl in Hel.
  - by apply elem_of_nil in Hel.
  - done.
Qed.

(** *** What a pass leaves alone *)

Lemma bind_returns {A B} (m : M A) (k : A -> M B) (w w2 : World) (b : B)
    (t : list Event) :
  bind m k w = Returns b w2 t ->
  exists a w1 t1 t2,
    m w = Returns a w1 t1 /\ k a w1 = Returns b w2 t2 /\ t = t1 ++ t2.
Proof.
  unfold bind. destruct (m w) as [a w1 t1|] eqn:E1; [|done].
  destruct (k a w1) as [b' w2' t2|] eqn:E2; [|done].
  intros [= -> -> <-]. by exists a, w1, t1, t2.
Qed.

Lemma keeps_bind {A B} (P : World -> Prop) (m : M A) (k : A -> M B) :
  keeps P m -> (forall a, keeps P (k a)) -> keeps P (bind m k).
Proof.
  intros Hm Hk w b w2 t HP Hrun.
  apply bind_returns in Hrun as (a & w1 & t1 & t2 & E1 & E2 & _).
  eapply Hk; [|exact E2]. by eapply Hm.
Qed.

Lemma keeps_ret {A} (P : World -> Prop) (a : A) : keeps P (ret a).
Proof. intros w a' w1 t HP. unfold ret. intros ?; by simplify_eq. Qed.

Lemma keeps_emit (P : World -> Prop) (ev : Event) : keeps P (emit ev).
Proof. intros w a' w1 t HP. unfold emit. intros ?; by simplify_eq. Qed.

Lemma keeps_when (P : World -> Prop) (b : bool) (m : M unit) :
  keeps P m -> keeps P (when b m).
Proof. destruct b; simpl; [done|]. intros _. apply keeps_ret. Qed.

Lemma keeps_elements_at (P : World -> Prop) (key : string) :
  keeps P (elements_at key).
Proof.
  intros w a' w1 t HP. unfold elements_at.
  destruct (lookup_group _ _); [|done]. intros ?; by simplify_eq.
Qed.

Lemma keeps_callbacks (P : World -> Prop) (el : nat)
    (params : gmap string string) (e : NavEvent) :
  keeps P (callbacks cfg el params e).
Proof.
  intros w a' w1 t HP. rewrite callbacks_run. intros ?; by simplify_eq.
Qed.

Lemma framed_refl (w : World) : framed w w.
Proof.
  split; [|done]. intros key. unfold group_frame.
  by destruct (lookup_group _ _).
Qed.

Lemma framed_dom (wi w : World) (el : nat) (s : ElementState) :
  routingRegistered s = routingRegistered (dom w el) ->
  framed wi w -> framed wi (set_dom el s w).
Proof.
  intros Hs (Hg & Hr & Hkeys). split; [done|]. split; [|done].
  intros x. simpl.
  destruct (Nat.eqb_spec x el) as [->|Hne]; [|done].
  by rewrite Hs.
Qed.

Lemma framed_ensure_dom (wi w : World) (el : nat) (b : bool) :
  framed wi w -> framed wi (ensure_dom el b w).
Proof.
  intros H. unfold ensure_dom. destruct (Bool.eqb _ _); [done|].
  by apply framed_dom.
Qed.

Lemma framed_activeElement (wi w : World) (key : string) (g : Group)
    (v : option nat) :
  lookup_group key (elements w) = Some g ->
  framed wi w -> framed wi (with_activeElement key v g w).
Proof.
  intros Hg (Hf & Hr & Hkeys). split; [|split; [done|]].
  - intros k. simpl. destruct (decide (key = k)) as [<-|Hne].
    + rewrite lookup_store_eq. specialize (Hf key). by rewrite Hg in Hf.
    + rewrite lookup_store_ne by done. apply Hf.
  - simpl. rewrite <- Hkeys. by eapply keys_store.
Qed.

Lemma keeps_set_activeElement (wi : World) (key : string) (v : option nat) :
  keeps (framed wi) (set_activeElement key v).
Proof.
  intros w a' w1 t HP. unfold set_activeElement.
  destruct (lookup_group _ _) as [g|] eqn:Hg; [|done].
  intros ?; simplify_eq. by apply framed_activeElement.
Qed.

Lemma keeps_toggleElementActive (wi : World) (el : nat) (b : bool) :
  keeps (framed wi) (toggleElementActive el b).
Proof.
  intros w a' w1 t HP. rewrite toggleElementActive_run.
  intros ?; simplify_eq. by apply framed_dom.
Qed.

Lemma keeps_maybeActivateElement (wi : World) (el : nat) (e : NavEvent) :
  keeps (framed wi) (maybeActivate el e).
Proof.
  intros w r w1 t HP. rewrite maybeActivateElement_run. cbv zeta.
  destruct (falsy_template _).
  - destruct (lookup_group _ _) as [g|]; [|done].
    destruct (_ && _); intros ?; simplify_eq; [done|].
    by apply framed_ensure_dom.
  - destruct (matched el).
    + intros ?; simplify_eq. by apply framed_ensure_dom.
    + intros ?; simplify_eq. by apply framed_ensure_dom.
    + destruct (disableActivation _); [intros ?; by simplify_eq|].
      destruct (lookup_group _ _) as [g|] eqn:Hg; [|done].
      intros ?; simplify_eq. apply framed_activeElement.
      * by rewrite ensure_dom_elements.
      * by apply framed_ensure_dom.
Qed.

Lemma keeps_members_loop (wi : World) (e : NavEvent) (l : list nat) :
  forall acc, keeps (framed wi) (members_loop new_URL location cfg l acc e).
Proof.
  induction l as [|el l IH]; intros acc; simpl; [apply keeps_ret|].
  apply keeps_bind; [apply keeps_maybeActivateElement|]. intros r. apply IH.
Qed.

Lemma keeps_activate_group (wi : World) (key : string) (e : NavEvent) :
  keeps (framed wi) (activate_group new_URL location cfg key e).
Proof.
  unfold activate_group.
  apply keeps_bind; [apply keeps_set_activeElement|]. intros _.
  apply keeps_bind; [apply keeps_elements_at|]. intros g.
  apply keeps_bind; [apply keeps_members_loop|]. intros oneActive.
  apply keeps_bind; [apply keeps_elements_at|]. intros g'.
  destruct (fallback g') as [fb|]; [|apply keeps_ret].
  apply keeps_bind; [apply keeps_toggleElementActive|]. intros _.
  apply keeps_when, keeps_callbacks.
Qed.

Lemma keeps_groups_loop (wi : World) (e : NavEvent) (keys : list string) :
  keeps (framed wi) (groups_loop new_URL location cfg keys e).
Proof.
  induction keys as [|key keys IH]; simpl; [apply keeps_emit|].
  apply keeps_bind; [apply keeps_elements_at|]. intros g.
  destruct (Nat.eqb _ _); [apply keeps_ret|].
  apply keeps_bind; [apply keeps_activate_group|]. intros _. apply IH.
Qed.

Lemma activateCurrentPath_framed (e : NavEvent) (w w1 : World)
    (t : list Event) :
  activateCurrentPath new_URL location cfg e w = Returns tt w1 t ->
  framed w w1.
Proof.
  unfold activateCurrentPath. intros Hrun.
  eapply keeps_groups_loop; [apply framed_refl|exact Hrun].
Qed.

(** *** Two passes side by side *)

Lemma hook_calls_app (t1 t2 : list Event) :
  hook_calls (t1 ++ t2) = hook_calls t1 ++ hook_calls t2.
Proof. apply omap_app. Qed.

Lemma hook_calls_callback_trace (el : nat) (params : gmap string string)
    (e e' : NavEvent) :
  hook_calls (callback_trace cfg el params e') =
  hook_calls (callback_trace cfg el params e).
Proof.
  unfold callback_trace.
  by destruct (preRouterCallback (cfg el)), (routerCallback (cfg el)).
Qed.

Lemma hook_calls_ensure_trace (el : nat) (b : bool) (w : World) :
  hook_calls (ensure_trace el b w) = [].
Proof.
  unfold ensure_trace. destruct (Bool.eqb _ _); [done|]. by destruct b.
Qed.

Lemma ensure_idempotent (b : bool) (s : ElementState) :
  ensure b (ensure b s) = ensure b s.
Proof.
  unfold ensure at 1. by rewrite active_of_ensure, Bool.eqb_reflx.
Qed.

Lemma ensure_registered (b : bool) (s : ElementState) :
  routingRegistered (ensure b s) = routingRegistered s.
Proof. unfold ensure. by destruct (Bool.eqb _ _). Qed.

Lemma members_in_own_group_store (key : string) (g : Group) (w w' : World) :
  wf w ->
  lookup_group key (elements w') = Some g ->
  (forall k, k <> key ->
             lookup_group k (elements w') = lookup_group k (elements w)) ->
  (forall el, el ∈ members g -> routingGroup (cfg el) = key) ->
  wf w'.
Proof.
  intros Hwf Hg Hk Hm k g' el Hg' Hel.
  destruct (decide (k = key)) as [->|Hne].
  - rewrite Hg in Hg'. injection Hg' as <-. by apply Hm.
  - rewrite Hk in Hg' by done. by eapply Hwf.
Qed.

Lemma activate_group_eq (key : string) (e : NavEvent) (w w1 : World)
    (g g1 : Group) (b : bool) (t1 : list Event) :
  lookup_group key (elements w) = Some g ->
  members_loop new_URL location cfg (members g) false e
    (with_activeElement key None g w) = Returns b w1 t1 ->
  lookup_group key (elements w1) = Some g1 ->
  activate_group new_URL location cfg key e w =
  match fallback g1 with
  | Some fb =>
      Returns tt (set_dom fb (toggled (negb b) (dom w1 fb)) w1)
        (t1 ++
         (if b then []
          else route_activated fb :: callback_trace cfg fb ∅ e))
  | None => Returns tt w1 t1
  end.
Proof.
  intros Hg Hrun Hg1.
  set (wr := with_activeElement key None g w) in *.
  assert (Hg0 : lookup_group key (elements wr) =
            Some {| members := members g; fallback := fallback g;
                    activeElement := None |}).
  { unfold wr. simpl. apply lookup_store_eq. }
  unfold activate_group, bind, set_activeElement, elements_at.
  rewrite Hg. fold wr. rewrite Hg0. simpl. rewrite Hrun, Hg1. simpl.
  destruct (fallback g1) as [fb|]; simpl; [|by rewrite ?app_nil_r].
  rewrite toggleElementActive_run.
  destruct b; simpl; rewrite ?callbacks_run; simpl; by rewrite ?app_nil_r.
Qed.

Section SideBySide.

(** The worlds in which the two passes start. *)
Variables w0 w0' : World.

Local Abbreviation related :=
  (side_by_side (matches new_URL location cfg) w0 w0').

Lemma element_rel_ensure (b : bool) (s0 s0' s s' : ElementState) :
  element_rel b s0 s0' s s' ->
  element_rel b s0 s0' (ensure b s) (ensure b s').
Proof.
  intros [Hr H]. split; [by rewrite !ensure_registered|].
  destruct H as [->|[[-> ->]|[-> ->]]].
  - by left.
  - right. left. by rewrite !ensure_idempotent.
  - right. by left.
Qed.

Lemma element_rel_toggled (b c : bool) (s0 s0' s s' : ElementState) :
  element_rel b s0 s0' s s' ->
  element_rel b s0 s0' (toggled c s) (toggled c s').
Proof.
  intros [Hr _]. split; [done|]. left. unfold toggled. by rewrite Hr.
Qed.

Lemma related_ensure_dom (el : nat) (w w' : World) :
  related w w' ->
  related (ensure_dom el (matches new_URL location cfg el) w)
    (ensure_dom el (matches new_URL location cfg el) w').
Proof.
  intros [Hg Hd]. split.
  - intros key. rewrite !ensure_dom_elements. apply Hg.
  - intros x. destruct (decide (x = el)) as [->|Hne].
    + rewrite !ensure_dom_same. by apply element_rel_ensure.
    + rewrite !ensure_dom_other by done. apply Hd.
Qed.

Lemma related_toggled (fb : nat) (c : bool) (w w' : World) :
  related w w' ->
  related (set_dom fb (toggled c (dom w fb)) w)
    (set_dom fb (toggled c (dom w' fb)) w').
Proof.
  intros [Hg Hd]. split; [done|]. intros x. simpl.
  destruct (Nat.eqb_spec x fb) as [->|Hne]; [|apply Hd].
  by apply element_rel_toggled.
Qed.

Lemma related_groups (key : string) (w w' : World) (g : Group) :
  related w w' ->
  lookup_group key (elements w) = Some g ->
  exists g',
    lookup_group key (elements w') = Some g' /\
    members g = members g' /\ fallback g = fallback g'.
Proof.
  intros [Hg _] Hk. specialize (Hg key). rewrite Hk in Hg.
  unfold group_rel in Hg.
  destruct (lookup_group key (elements w')) as [g'|]; [|done].
  exists g'. by destruct Hg as (? & ? & _).
Qed.

Lemma related_activeElement (key : string) (v : option nat)
    (w w' : World) (g g' : Group) :
  related w w' ->
  lookup_group key (elements w) = Some g ->
  lookup_group key (elements w') = Some g' ->
  related (with_activeElement key v g w) (with_activeElement key v g' w') /\
  same_activeElement key (with_activeElement key v g w)
    (with_activeElement key v g' w').
Proof.
  intros Hrel Hk Hk'.
  destruct (related_groups key w w' g Hrel Hk) as (g2 & Hk2 & Hm & Hf).
  rewrite Hk' in Hk2. injection Hk2 as <-.
  destruct Hrel as [Hg Hd]. split; [split; [|done]|].
  - intros k. simpl. destruct (decide (key = k)) as [<-|Hne].
    + rewrite !lookup_store_eq. simpl. repeat split; try done. by left.
    + rewrite !lookup_store_ne by done. apply Hg.
  - unfold same_activeElement. simpl. by rewrite !lookup_store_eq.
Qed.

Lemma maybeActivateElement_side_by_side (el : nat) (e e' : NavEvent)
    (w w' w1 : World) (r : bool) (t : list Event) :
  related w w' ->
  same_activeElement (routingGroup (cfg el)) w w' ->
  maybeActivate el e w = Returns r w1 t ->
  exists w1' t',
    maybeActivate el e' w' = Returns r w1' t' /\
    related w1 w1' /\
    same_activeElement (routingGroup (cfg el)) w1 w1' /\
    hook_calls t' = hook_calls t.
Proof.
  intros Hrel Hsame. unfold same_activeElement in Hsame.
  destruct (lookup_group (routingGroup (cfg el)) (elements w))
    as [g|] eqn:Hk; [|done].
  destruct (lookup_group (routingGroup (cfg el)) (elements w'))
    as [g'|] eqn:Hk'; [|done].
  destruct (related_groups _ w w' g Hrel Hk) as (g2 & Hk2 & Hm & Hf).
  rewrite Hk' in Hk2. injection Hk2 as <-.
  assert (Hsame' : forall b,
    same_activeElement (routingGroup (cfg el))
      (ensure_dom el b w) (ensure_dom el b w')).
  { intros b. unfold same_activeElement.
    by rewrite !ensure_dom_elements, Hk, Hk'. }
  assert (Hno : truthy_result (matched el) = false ->
    exists w1' t',
      Returns false (ensure_dom el false w') [] = Returns false w1' t' /\
      related (ensure_dom el false w) w1' /\
      same_activeElement (routingGroup (cfg el))
        (ensure_dom el false w) w1' /\
      hook_calls t' = hook_calls []).
  { intros Hmf. eexists _, _. split; [done|]. split; [|by split].
    pose proof (related_ensure_dom el w w' Hrel) as H.
    unfold matches at 2 3 in H. by rewrite Hmf in H. }
  rewrite !maybeActivateElement_run. cbv zeta. rewrite Hk, Hk', <- Hf.
  destruct (falsy_template (pagePath (cfg el))) eqn:Hfalsy.
  - destruct (is_not el (fallback g) && negb (disableActivation (cfg el))).
    + intros ?; simplify_eq. eexists _, _. split; [done|].
      split; [done|]. split; [|done].
      unfold same_activeElement. by rewrite Hk, Hk'.
    + intros ?; simplify_eq. apply Hno.
      by rewrite (falsy_template_no_match _ _ _ _ Hfalsy).
  - destruct (matched el) as [| |params] eqn:Hmatched.
    + intros ?; simplify_eq. by apply Hno.
    + intros ?; simplify_eq. by apply Hno.
    + destruct (disableActivation (cfg el)).
      * intros ?; simplify_eq. eexists _, _. split; [done|].
        split; [done|]. split.
        -- unfold same_activeElement. by rewrite Hk, Hk'.
        -- apply hook_calls_callback_trace.
      * intros ?; simplify_eq. eexists _, _. split; [done|].
        assert (Hmt : matches new_URL location cfg el = true).
        { unfold matches. by rewrite Hmatched. }
        destruct (related_activeElement (routingGroup (cfg el)) (Some el)
                    (ensure_dom el true w) (ensure_dom el true w') g g')
          as [Hrel1 Hsame1].
        { pose proof (related_ensure_dom el w w' Hrel) as H.
          by rewrite Hmt in H. }
        { by rewrite ensure_dom_elements. }
        { by rewrite ensure_dom_elements. }
        split; [done|]. split; [done|].
        rewrite !hook_calls_app, !hook_calls_ensure_trace, Hsame.
        destruct (is_not el (activeElement g')); [|done].
        simpl. apply hook_calls_callback_trace.
Qed.

Lemma members_loop_side_by_side (key : string) (e e' : NavEvent)
    (l : list nat) :
  forall (acc r : bool) (w w' w1 : World) (t : list Event),
    (forall el, el ∈ l -> routingGroup (cfg el) = key) ->
    related w w' ->
    same_activeElement key w w' ->
    members_loop new_URL location cfg l acc e w = Returns r w1 t ->
    exists w1' t',
      members_loop new_URL location cfg l acc e' w' = Returns r w1' t' /\
      related w1 w1' /\
      same_activeElement key w1 w1' /\
      hook_calls t' = hook_calls t.
Proof.
  induction l as [|el l IH]; intros acc r w w' w1 t Hl Hrel Hsame Hrun.
  - simpl in *. unfold ret in *. simplify_eq. by exists w', [].
  - simpl in Hrun.
    apply bind_returns in Hrun as (a & w2 & t1 & t2 & E1 & E2 & ->).
    assert (Hel : routingGroup (cfg el) = key) by (apply Hl; by left).
    rewrite <- Hel in Hsame.
    destruct (maybeActivateElement_side_by_side el e e' w w' w2 a t1
                Hrel Hsame E1)
      as (w2' & t1' & E1' & Hrel2 & Hsame2 & Ht1).
    rewrite Hel in Hsame2.
    destruct (IH (acc || a) r w2 w2' w1 t2)
      as (w1' & t2' & E2' & Hrel1 & Hsame1 & Ht2); try done.
    { intros x Hx. apply Hl. by right. }
    exists w1', (t1' ++ t2'). simpl. unfold bind. rewrite E1', E2'.
    split; [done|]. split; [done|]. split; [done|].
    by rewrite !hook_calls_app, Ht1, Ht2.
Qed.

Lemma activate_group_side_by_side (key : string) (e e' : NavEvent)
    (w w' : World) (g : Group) :
  lookup_group key (elements w) = Some g ->
  (forall el, el ∈ members g -> routingGroup (cfg el) = key) ->
  related w w' ->
  exists w2 t2 w2' t2',
    activate_group new_URL location cfg key e w = Returns tt w2 t2 /\
    activate_group new_URL location cfg key e' w' = Returns tt w2' t2' /\
    related w2 w2' /\
    hook_calls t2' = hook_calls t2.
Proof.
  intros Hk Hl Hrel.
  destruct (related_groups key w w' g Hrel Hk) as (g' & Hk' & Hm & Hf).
  destruct (related_activeElement key None w w' g g' Hrel Hk Hk')
    as [Hrel0 Hsame0].
  assert (Hg0 : lookup_group key
                  (elements (with_activeElement key None g w)) =
            Some {| members := members g; fallback := fallback g;
                    activeElement := None |}).
  { simpl. apply lookup_store_eq. }
  destruct (members_loop_run key e (members g) false _ _ Hg0 Hl)
    as (w1 & t1 & Hrun & Hg1 & _).
  simpl in Hrun, Hg1.
  destruct (members_loop_side_by_side key e e' (members g) _ _ _ _ _ _
              Hl Hrel0 Hsame0 Hrun)
    as (w1' & t1' & Hrun' & Hrel1 & Hsame1 & Ht1).
  destruct (related_groups key w1 w1' _ Hrel1 Hg1)
    as (g1' & Hg1' & _ & Hf1).
  simpl in Hf1.
  assert (Hrun2 :
    members_loop new_URL location cfg (members g') false e'
      (with_activeElement key None g' w') =
    Returns (existsb (counts new_URL location cfg) (members g)) w1' t1').
  { rewrite <- Hm. exact Hrun'. }
  rewrite (activate_group_eq key e w w1 g _ _ t1 Hk Hrun Hg1).
  rewrite (activate_group_eq key e' w' w1' g' _ _ t1' Hk' Hrun2 Hg1').
  rewrite <- Hf1. simpl.
  destruct (fallback g) as [fb|].
  - eexists _, _, _, _. split; [done|]. split; [done|].
    split; [by apply related_toggled|].
    rewrite !hook_calls_app, Ht1. f_equal.
    destruct (existsb _ _); [done|]. simpl.
    apply hook_calls_callback_trace.
  - by eexists _, _, _, _.
Qed.

Lemma groups_loop_side_by_side (e e' : NavEvent) (keys : list string) :
  forall w w',
    wf w ->
    (forall k, k ∈ keys -> k ∈ map fst (elements w)) ->
    related w w' ->
    exists w1 t w1' t',
      groups_loop new_URL location cfg keys e w = Returns tt w1 t /\
      groups_loop new_URL location cfg keys e' w' = Returns tt w1' t' /\
      related w1 w1' /\
      hook_calls t' = hook_calls t.
Proof.
  induction keys as [|key keys IH]; intros w w' Hwf Hkeys Hrel.
  - by exists w, [console_log_elements], w', [console_log_elements].
  - destruct (lookup_group_key key (elements w)) as [g Hk].
    { apply Hkeys. by left. }
    destruct (related_groups key w w' g Hrel Hk) as (g' & Hk' & Hm & Hf).
    simpl. unfold bind at 1 3. unfold elements_at.
    rewrite Hk, Hk', <- Hm.
    destruct (Nat.eqb (length (members g)) 0).
    { by exists w, [], w', []. }
    assert (Hl : forall el, el ∈ members g -> routingGroup (cfg el) = key).
    { intros el. by apply Hwf. }
    destruct (activate_group_side_by_side key e e' w w' g Hk Hl Hrel)
      as (w2 & t2 & w2' & t2' & Hpass & Hpass' & Hrel2 & Ht2).
    destruct (activate_group_run key e w g Hk Hl)
      as (? & ? & w3 & t3 & _ & Hpass3 & Hg3 & Hk3 & Hkeys3 & _).
    rewrite Hpass in Hpass3. injection Hpass3 as <- <-.
    destruct (IH w2 w2') as (w1 & t1 & w1' & t1' & Hrun & Hrun' & Hrel1 & Ht1);
      try done.
    { by eapply (members_in_own_group_store key). }
    { intros k Hin. rewrite Hkeys3. apply Hkeys. by right. }
    exists w1, (t2 ++ t1), w1', (t2' ++ t1').
    unfold bind. rewrite Hpass, Hpass', Hrun, Hrun'. simpl.
    split; [done|]. split; [done|]. split; [done|].
    by rewrite !hook_calls_app, Ht1, Ht2.
Qed.

End SideBySide.


End EngineFacts.

(** ** The checks of the invariants are sound *)

Lemma lookup_group_elem (key : string) (g : Group)
    (els : list (string * Group)) :
  lookup_group key els = Some g -> (key, g) ∈ els.
Proof.
  induction els as [|[k g0] els IH]; simpl; [done|].
  destruct (String.eqb_spec k key) as [->|Hne].
  - intros [= ->]. by left.
  - intros H. right. by apply IH.
Qed.

Lemma members_in_own_group_b_sound (cfg : nat -> ElementConfig) (w : World) :
  members_in_own_group_b cfg w = true -> members_in_own_group cfg w.
Proof.
  unfold members_in_own_group_b. rewrite forallb_forall.
  intros H key g el Hg Hel. apply lookup_group_elem in Hg.
  apply list_elem_of_In in Hg. specialize (H _ Hg). simpl in H.
  rewrite forallb_forall in H. apply list_elem_of_In in Hel.
  specialize (H _ Hel). by apply String.eqb_eq in H.
Qed.

Lemma activeElement_is_member_b_sound (w : World) :
  activeElement_is_member_b w = true -> activeElement_is_member w.
Proof.
  unfold activeElement_is_member_b. rewrite forallb_forall.
  intros H key g el Hg Hel. apply lookup_group_elem in Hg.
  apply list_elem_of_In in Hg. specialize (H _ Hg). simpl in H.
  rewrite Hel in H. apply existsb_exists in H as (x & Hx & Heq).
  apply Nat.eqb_eq in Heq. subst x. by apply list_elem_of_In.
Qed.

(** ** The matcher on plain templates *)

Example match_record :
  locationMatch simple_URL {| pathname := "/record/10"; hash := "" |}
    (One "/record/:id") None = MParams {[ "id" := "10" ]}.
Proof. vm_compute. reflexivity. Qed.

Example match_empty_capture :
  locationMatch simple_URL {| pathname := "/"; hash := "" |}
    (One "/:page") None = MParams {[ "page" := "" ]}.
Proof. vm_compute. reflexivity. Qed.

Example no_match_empty_wildcard :
  locationMatch simple_URL {| pathname := "/"; hash := "" |}
    (One "/*") None = MFalse.
Proof. vm_compute. reflexivity. Qed.

Example hash_star :
  locationMatch simple_URL (at_a_hash "#foo") (One "/a#*") None = MParams ∅ /\
  locationMatch simple_URL (at_a_hash "") (One "/a#*") None = MFalse.
Proof. vm_compute. by split. Qed.

Example hash_bare :
  locationMatch simple_URL (at_a_hash "") (One "/a#") None = MParams ∅ /\
  locationMatch simple_URL (at_a_hash "#foo") (One "/a#") None = MFalse.
Proof. vm_compute. by split. Qed.

Example hash_free :
  locationMatch simple_URL (at_a_hash "") (One "/a") None = MParams ∅ /\
  locationMatch simple_URL (at_a_hash "#foo") (One "/a") None = MParams ∅.
Proof. vm_compute. by split. Qed.





(** C6, counterexample. For the empty string as template [locationMatch]
    returns [undefined]: neither [false] nor a mapping. *)
Lemma empty_template_is_undefined :
  locationMatch simple_URL at_main (One "") None = MUndefined /\
  MUndefined <> MFalse /\
  forall p, MUndefined <> MParams p.
Proof. by repeat split. Qed.

Lemma locationMatch_result_witness :
  "/main" <> "" /\
  locationMatch simple_URL at_main (One "/main") None =
    match locationMatchExecutor simple_URL at_main "/main" None with
    | Some p => MParams p
    | None => MFalse
    end.
Proof.
  split; [discriminate|].
  apply (locationMatch_result simple_URL at_main (One "/main") None).
  discriminate.
Defined.

Example alternatives_in_order :
  locationMatch simple_URL at_main (Many ["/"; "/:page"; "/:page/*"]) None =
    MParams {[ "page" := "main" ]} /\
  locationMatch simple_URL at_deep (Many ["/"; "/:page"; "/:page/*"]) None =
    MFalse /\
  locationMatch simple_URL at_main (Many []) None = MFalse.
Proof. vm_compute. by repeat split. Qed.

(** ** The engine on the page of the examples *)

Example pages_world_invariants :
  members_in_own_group page pages_world /\ activeElement_is_member pages_world.
Proof.
  split.
  - by apply members_in_own_group_b_sound.
  - by apply activeElement_is_member_b_sound.
Qed.

(** At [/page-one/10] the second page is active with [{ id: "10" }], the
    others and the fallback are not. *)
Example pass_at_page_one :
  let run := activateCurrentPath simple_URL at_page_one page (Some 1)
               pages_world in
  returned run = true /\
  map (fun el => active_of (dom (world_of run) el)) [0; 1; 2; 3] =
    [false; true; false; false] /\
  lookup_group "default" (elements (world_of run)) =
    Some {| members := [0; 1; 2; 3]; fallback := Some 3;
            activeElement := Some 1 |} /\
  hook_calls (trace_of run) = [(false, 1, {[ "id" := "10" ]})].
Proof. vm_compute. by repeat split. Qed.

(** At [/unknown] no member matches; the fallback becomes active and its
    callbacks are called with the empty mapping. *)
Example pass_at_unknown :
  let run := activateCurrentPath simple_URL at_unknown page (Some 1)
               pages_world in
  returned run = true /\
  map (fun el => active_of (dom (world_of run) el)) [0; 1; 2; 3] =
    [false; false; false; true] /\
  trace_of run =
    [route_activated 3; call_preRouterCallback 3 ∅ (Some 1);
     call_routerCallback 3 ∅ (Some 1); console_log_elements].
Proof. vm_compute. by repeat split. Qed.

(** The listener at [/main]: its callbacks run, its flag and the active
    element of the group are not for it. *)
Example listener_at_main :
  let run := maybeActivateElement simple_URL at_main page 4 (Some 1)
               pages_world in
  returned run = true /\
  active_of (dom (world_of run) 4) = false /\
  elements (world_of run) = elements pages_world /\
  hook_calls (trace_of run) =
    [(true, 4, {[ "page" := "main" ]}); (false, 4, {[ "page" := "main" ]})].
Proof. vm_compute. by repeat split. Qed.

(** The pass that [installRouter] starts when the module has just been
    loaded does nothing. *)
Example installRouter_on_load :
  installRouter simple_URL at_main page initial_world =
  Returns tt initial_world [].
Proof. reflexivity. Qed.

Example tabs_world_elements :
  elements tabs_world =
    [("default", no_group);
     ("tabs", {| members := [5]; fallback := None; activeElement := None |})] /\
  Object_keys (elements tabs_world) = ["default"; "tabs"].
Proof. vm_compute. by split. Qed.

(** C1, the failing input. Only the group [tabs] has a member, the tab [5]
    with the path [/main]; the group [default], created first, is empty.
    On the navigation to [/main] the pass returns at the empty group: it
    does nothing at all, not even the final log, and the tab stays
    inactive. The loop started at [tabs] would activate it. *)
Theorem empty_group_ends_the_pass :
  let run := activateCurrentPath simple_URL at_main page (Some 1) tabs_world in
  let from_tabs := groups_loop simple_URL at_main page ["tabs"] (Some 1)
                     tabs_world in
  matches simple_URL at_main page 5 = true /\
  returned run = true /\
  trace_of run = [] /\
  elements (world_of run) = elements tabs_world /\
  active_of (dom (world_of run) 5) = false /\
  active_of (dom (world_of from_tabs) 5) = true /\
  trace_of from_tabs =
    [route_activated 5; call_routerCallback 5 ∅ (Some 1);
     console_log_elements].
Proof. vm_compute. by repeat split. Qed.

(** An empty list ends the pass whatever follows it. *)
Lemma groups_loop_empty_list (new_URL : string -> URL) (location : Location)
    (cfg : nat -> ElementConfig) (key : string) (rest : list string)
    (e : NavEvent) (w : World) (g : Group) :
  lookup_group key (elements w) = Some g ->
  members g = [] ->
  groups_loop new_URL location cfg (key :: rest) e w = Returns tt w [].
Proof.
  intros Hg Hm. simpl. unfold bind, elements_at. by rewrite Hg, Hm.
Qed.



Lemma fallback_iff_no_member_matched_witness :
  lookup_group "default" (elements pages_world) = Some pages /\
  (forall el, el ∈ members pages -> routingGroup (page el) = "default") /\
  exists w1 t1 w2 t2,
    members_loop simple_URL at_unknown page (members pages) false (Some 1)
      (with_activeElement "default" None pages pages_world) =
      Returns (existsb (counts simple_URL at_unknown page) (members pages))
        w1 t1 /\
    activate_group simple_URL at_unknown page "default" (Some 1) pages_world =
      Returns tt w2 t2 /\
    lookup_group "default" (elements w2) =
      Some {| members := members pages; fallback := fallback pages;
              activeElement :=
                recorded simple_URL at_unknown page (members pages) None |} /\
    (forall el,
       recorded simple_URL at_unknown page (members pages) None = Some el ->
       el ∈ members pages /\ counts simple_URL at_unknown page el = true) /\
    (forall fb,
       fallback pages = Some fb ->
       active_of (dom w2 fb) =
         negb (existsb (counts simple_URL at_unknown page) (members pages)) /\
       t2 = t1 ++
            (if existsb (counts simple_URL at_unknown page) (members pages)
             then []
             else route_activated fb :: callback_trace page fb ∅ (Some 1))).
Proof.
  assert (Hl : forall el, el ∈ members pages ->
                          routingGroup (page el) = "default").
  { apply Forall_forall. repeat constructor. }
  split; [reflexivity|]. split; [exact Hl|].
  exact (fallback_iff_no_member_matched simple_URL at_unknown page "default"
           (Some 1) pages_world pages eq_refl Hl).
Defined.

Lemma disabled_detour_witness :
  disableActivation (page 4) = true /\
  (forall params,
     locationMatch simple_URL at_main (pagePath (page 4)) None =
       MParams params ->
     maybeActivateElement simple_URL at_main page 4 (Some 1) listener_world =
     Returns false listener_world (callback_trace page 4 params (Some 1))) /\
  (forall r w' t,
     maybeActivateElement simple_URL at_main page 4 (Some 1) listener_world =
       Returns r w' t -> r = false) /\
  (is_Some (lookup_group (routingGroup (page 4)) (elements listener_world)) ->
   exists w' t,
     maybeActivateElement simple_URL at_main page 4 (Some 1) listener_world =
     Returns false w' t).
Proof.
  split; [reflexivity|].
  exact (disabled_detour simple_URL at_main page 4 (Some 1) listener_world
           eq_refl).
Defined.

Lemma missing_path_is_skipped_witness :
  falsy_template (pagePath (page 6)) = true /\
  lookup_group (routingGroup (page 6)) (elements listener_world) =
    Some pages_and_listener /\
  fallback pages_and_listener <> Some 6 /\
  disableActivation (page 6) = false /\
  maybeActivateElement simple_URL at_main page 6 (Some 1) listener_world =
    Returns false listener_world [console_error_no_path 6] /\
  forall rest oneActive,
    members_loop simple_URL at_main page (6 :: rest) oneActive (Some 1)
      listener_world =
    match members_loop simple_URL at_main page rest oneActive (Some 1)
            listener_world with
    | Returns b w' t => Returns b w' (console_error_no_path 6 :: t)
    | Throws w' t => Throws w' (console_error_no_path 6 :: t)
    end.
Proof.
  assert (Hfb : fallback pages_and_listener <> Some 6) by discriminate.
  split; [reflexivity|]. split; [reflexivity|]. split; [exact Hfb|].
  split; [reflexivity|].
  exact (missing_path_is_skipped simple_URL at_main page 6 (Some 1)
           listener_world pages_and_listener eq_refl eq_refl Hfb eq_refl).
Defined.

Lemma disabled_unmatched_is_cleared_witness :
  disableActivation (page 4) = true /\
  truthy_result (locationMatch simple_URL at_deep (pagePath (page 4)) None) =
    false /\
  lookup_group (routingGroup (page 4)) (elements listener_world) =
    Some pages_and_listener /\
  active_of (dom listener_world 4) = true /\
  maybeActivateElement simple_URL at_deep page 4 (Some 1) listener_world =
    Returns false (ensure_dom 4 false listener_world) [] /\
  active_of (dom (ensure_dom 4 false listener_world) 4) = false /\
  (active_of (dom listener_world 4) = true ->
   dom (ensure_dom 4 false listener_world) 4 =
   toggled false (dom listener_world 4)) /\
  (active_of (dom listener_world 4) = false ->
   ensure_dom 4 false listener_world = listener_world) /\
  elements (ensure_dom 4 false listener_world) = elements listener_world /\
  (forall x, x <> 4 ->
             dom (ensure_dom 4 false listener_world) x = dom listener_world x).
Proof.
  assert (Hm : truthy_result
                 (locationMatch simple_URL at_deep (pagePath (page 4)) None) =
               false).
  { vm_compute. reflexivity. }
  split; [reflexivity|]. split; [exact Hm|]. split; [reflexivity|].
  split; [reflexivity|].
  exact (disabled_unmatched_is_cleared simple_URL at_deep page 4 (Some 1)
           listener_world pages_and_listener eq_refl Hm eq_refl).
Defined.



(** * Further properties *)

(** ** More on the matcher *)

Section MatcherMore.

Variable new_URL : string -> URL.
Variable location : Location.

Local Abbreviation executor := (locationMatchExecutor new_URL location).

(** X1. A template whose path has not as many segments as the path of the
    location never matches, whatever its segments, its hash and the
    checker; a list of such templates yields [false]. *)
Theorem segment_count_mismatch_fails (ts : list string) chk :
  Forall (fun t => length (templatePath new_URL t) <>
                   length (browserPath location)) ts ->
  locationMatch new_URL location (Many ts) chk = MFalse /\
  forall t, t ∈ ts ->
    executor t chk = None /\
    truthy_result (locationMatch new_URL location (One t) chk) = false.
Proof.
  intros Hall.
  assert (Hexec : forall t, t ∈ ts -> executor t chk = None).
  { intros t Ht. rewrite Forall_forall in Hall. specialize (Hall t Ht).
    unfold locationMatchExecutor.
    destruct (Nat.eqb_spec (length (templatePath new_URL t))
                (length (browserPath location))); [done|done]. }
  split.
  - apply firstMatch_none. by apply Forall_forall.
  - intros t Ht. split; [by apply Hexec|].
    unfold locationMatch. destruct (falsy_template (One t)); [done|].
    by rewrite Hexec.
Qed.

Lemma matchSegments_sources (tp bp : list string) :
  forall (acc p : gmap string string) (name v : string),
    matchSegments tp bp acc = Some p ->
    p !! name = Some v ->
    acc !! name = Some v \/
    exists i s,
      tp !! i = Some s /\ startsWith_colon s = true /\
      substr1 s = name /\ bp !! i = Some v.
Proof.
  revert bp. induction tp as [|t tp IH]; intros bp acc p name v Hm Hp.
  - simpl in Hm. left. destruct bp; by simplify_eq.
  - destruct bp as [|b bp]; [discriminate|]. simpl in Hm.
    assert (Hshift :
      (exists i s, tp !! i = Some s /\ startsWith_colon s = true /\
                   substr1 s = name /\ bp !! i = Some v) ->
      exists i s, (t :: tp) !! i = Some s /\ startsWith_colon s = true /\
                  substr1 s = name /\ (b :: bp) !! i = Some v).
    { intros (i & s & ? & ? & ? & ?). by exists (S i), s. }
    destruct (startsWith_colon t) eqn:Hc.
    + destruct (IH _ _ _ _ _ Hm Hp) as [Hacc|Hex]; [|right; by apply Hshift].
      destruct (decide (substr1 t = name)) as [Heq|Hne].
      * rewrite Heq, lookup_insert_eq in Hacc. injection Hacc as ->.
        right. by exists 0, t.
      * rewrite lookup_insert_ne in Hacc by done. by left.
    + destruct (String.eqb t "*" && truthy b).
      { destruct (IH _ _ _ _ _ Hm Hp) as [?|?]; [by left|right; by apply Hshift]. }
      destruct (String.eqb t b); [|discriminate].
      destruct (IH _ _ _ _ _ Hm Hp) as [?|?]; [by left|right; by apply Hshift].
Qed.

Lemma matchSegments_binds (tp bp : list string) :
  forall (acc p : gmap string string) (i : nat) (s : string),
    matchSegments tp bp acc = Some p ->
    tp !! i = Some s -> startsWith_colon s = true ->
    is_Some (p !! substr1 s).
Proof.
  revert bp. induction tp as [|t tp IH]; intros bp acc p i s Hm Hi Hs.
  - done.
  - destruct bp as [|b bp]; [discriminate|]. simpl in Hm.
    destruct i as [|i]; simpl in Hi.
    + injection Hi as ->. rewrite Hs in Hm.
      destruct (decide (Forall (fun s' => startsWith_colon s' = true ->
                                          substr1 s' <> substr1 s) tp))
        as [Hfresh|Hdup].
      * rewrite Forall_forall in Hfresh.
        rewrite (matchSegments_keeps (substr1 s) tp bp _ p Hfresh Hm).
        rewrite lookup_insert_eq. by eexists.
      * apply not_Forall_Exists in Hdup; [|apply _].
        apply Exists_exists in Hdup as (s' & Hin & Hs').
        apply list_elem_of_lookup in Hin as [j Hj].
        destruct (startsWith_colon s') eqn:Hc'.
        -- destruct (decide (substr1 s' = substr1 s)) as [Heq|Hne].
           ++ rewrite <- Heq. by eapply IH.
           ++ exfalso. apply Hs'. by intros _.
        -- exfalso. apply Hs'. intros Hft. congruence.
    + destruct (startsWith_colon t); [by eapply IH|].
      destruct (String.eqb t "*" && truthy b); [by eapply IH|].
      destruct (String.eqb t b); [by eapply IH|discriminate].
Qed.


Lemma matchSegments_literal (tp bp : list string) :
  forall acc : gmap string string,
    Forall (fun s => startsWith_colon s = false /\ s <> "*") tp ->
    length tp = length bp ->
    matchSegments tp bp acc = if decide (tp = bp) then Some acc else None.
Proof.
  revert bp. induction tp as [|t tp IH]; intros [|b bp] acc Hlit Hlen;
    simpl in Hlen; try discriminate.
  - done.
  - apply Forall_cons in Hlit as [[Hc Hs] Hlit]. injection Hlen as Hlen.
    simpl. rewrite Hc. apply String.eqb_neq in Hs. rewrite Hs. simpl.
    rewrite IH by done.
    destruct (String.eqb_spec t b) as [->|Hne].
    + destruct (decide (tp = bp)) as [->|Hne'].
      * by rewrite decide_True.
      * rewrite decide_False; [done|]. congruence.
    + rewrite decide_False; [done|]. congruence.
Qed.

(** X3. A template all of whose segments are literal (neither [:name] nor
    [*]) matches exactly the locations with the same segments, the hash
    rule allowing, and its mapping is empty. *)
Theorem literal_template_matches_equal_path (t : string) :
  Forall (fun s => startsWith_colon s = false /\ s <> "*")
    (templatePath new_URL t) ->
  (forall p, executor t None = Some p ->
             p = ∅ /\ templatePath new_URL t = browserPath location) /\
  (templatePath new_URL t = browserPath location ->
   hashMatching new_URL location t = true ->
   executor t None = Some ∅).
Proof.
  intros Hlit. split.
  - intros p Hp. unfold locationMatchExecutor in Hp.
    destruct (Nat.eqb_spec (length (templatePath new_URL t))
                (length (browserPath location))) as [Hlen|]; [|done].
    simpl in Hp. destruct (hashMatching new_URL location t); [|done].
    simpl in Hp. rewrite (matchSegments_literal _ _ _ Hlit Hlen) in Hp.
    destruct (decide _); by simplify_eq.
  - intros Heq Hh. unfold locationMatchExecutor. rewrite Hh.
    rewrite <- Heq, Nat.eqb_refl. simpl.
    rewrite (matchSegments_literal _ _ _ Hlit eq_refl).
    by rewrite decide_True.
Qed.

Lemma executor_checker (t : string) (check : gmap string string -> bool)
    (p : gmap string string) :
  executor t (Some check) = Some p <->
  executor t None = Some p /\ check p = true.
Proof.
  unfold locationMatchExecutor.
  destruct (negb (Nat.eqb _ _)); [by split; [|intros []]|].
  destruct (negb (hashMatching _ _ _)); [by split; [|intros []]|].
  destruct (matchSegments _ _ _) as [q|]; [|by split; [|intros []]].
  destruct (check q) eqn:Hq; split.
  - by intros [= ->].
  - by intros [[= ->] _].
  - done.
  - intros [[= ->] ?]. congruence.
Qed.

(** X4. A checker only filters: with a checker, a list of alternatives
    yields the mapping [p] exactly when some alternative matches with [p]
    without the checker, the checker accepts [p], and the checker rejects
    the match of every earlier alternative that matches. The mapping is
    the one the checker was given. *)
Theorem checker_only_filters (ts : list string)
    (check : gmap string string -> bool) (p : gmap string string) :
  locationMatch new_URL location (Many ts) (Some check) = MParams p <->
  exists pre t post,
    ts = pre ++ t :: post /\
    executor t None = Some p /\ check p = true /\
    Forall (fun x => forall q, executor x None = Some q -> check q = false) pre.
Proof.
  change (locationMatch new_URL location (Many ts) (Some check))
    with (firstMatch new_URL location ts (Some check)).
  rewrite firstMatch_found. split.
  - intros (pre & t & post & -> & Hpre & Ht).
    apply executor_checker in Ht as [Ht Hc].
    exists pre, t, post. repeat split; try done.
    eapply Forall_impl; [exact Hpre|]. intros x Hx q Hq. simpl in Hx.
    destruct (check q) eqn:Hcq; [|done].
    assert (executor x (Some check) = Some q) by by apply executor_checker.
    congruence.
  - intros (pre & t & post & -> & Ht & Hc & Hpre).
    exists pre, t, post. split; [done|]. split.
    + eapply Forall_impl; [exact Hpre|]. intros x Hx. simpl in Hx.
      destruct (executor x (Some check)) as [q|] eqn:Hq; [|done].
      apply executor_checker in Hq as [Hq Hcq]. rewrite (Hx q Hq) in Hcq.
      discriminate.
    + by apply executor_checker.
Qed.

(** X5. Alternatives compose: a list of alternatives followed by another
    yields the match of the first list when it has one, and that of the
    second list otherwise; a list of one non-empty template behaves as
    that template alone. *)
Theorem alternatives_compose (ts1 ts2 : list string) chk :
  locationMatch new_URL location (Many (ts1 ++ ts2)) chk =
    (if truthy_result (locationMatch new_URL location (Many ts1) chk)
     then locationMatch new_URL location (Many ts1) chk
     else locationMatch new_URL location (Many ts2) chk) /\
  forall t, t <> "" ->
    locationMatch new_URL location (Many [t]) chk =
    locationMatch new_URL location (One t) chk.
Proof.
  split.
  - change (firstMatch new_URL location (ts1 ++ ts2) chk =
            if truthy_result (firstMatch new_URL location ts1 chk)
            then firstMatch new_URL location ts1 chk
            else firstMatch new_URL location ts2 chk).
    induction ts1 as [|t ts1 IH]; simpl; [done|].
    by destruct (executor t chk).
  - intros t Ht. unfold locationMatch. simpl.
    apply truthy_true in Ht. rewrite Ht. simpl.
    by destruct (executor t chk).
Qed.

End MatcherMore.

(** ** More on the engine *)

Section EngineMore.

Variable new_URL : string -> URL.
Variable location : Location.
Variable cfg : nat -> ElementConfig.

Local Abbreviation maybeActivate := (maybeActivateElement new_URL location cfg).
Local Abbreviation matched el :=
  (locationMatch new_URL location (pagePath (cfg el)) None).
Local Abbreviation member_of key el w :=
  (exists g, lookup_group key (elements w) = Some g /\ el ∈ members g).

Local Abbreviation wf := (members_in_own_group cfg).
Local Abbreviation known key w :=
  (is_Some (lookup_group key (elements w))).

(** *** Runs that return

    From a registry whose members are listed under their own group, every
    run returns and leaves such a registry. *)

Lemma wf_store (key : string) (g : Group) (w w' : World) :
  wf w ->
  lookup_group key (elements w') = Some g ->
  (forall k, k <> key ->
             lookup_group k (elements w') = lookup_group k (elements w)) ->
  (forall el, el ∈ members g -> routingGroup (cfg el) = key) ->
  wf w'.
Proof.
  intros Hwf Hg Hk Hm k g' el Hg' Hel.
  destruct (decide (k = key)) as [->|Hne].
  - rewrite Hg in Hg'. injection Hg' as <-. by apply Hm.
  - rewrite Hk in Hg' by done. by eapply Hwf.
Qed.

Lemma groups_loop_returns (e : NavEvent) (keys : list string) :
  forall w,
    (forall k, k ∈ keys -> k ∈ map fst (elements w)) ->
    wf w ->
    exists w' t,
      groups_loop new_URL location cfg keys e w = Returns tt w' t /\
      wf w' /\ map fst (elements w') = map fst (elements w).
Proof.
  induction keys as [|key keys IH]; intros w Hkeys Hwf.
  - exists w, [console_log_elements]. by repeat split.
  - destruct (lookup_group_key key (elements w)) as [g Hg].
    { apply Hkeys. by left. }
    simpl. unfold bind at 1. unfold elements_at. rewrite Hg.
    destruct (Nat.eqb (length (members g)) 0).
    { exists w, []. by repeat split. }
    destruct (activate_group_run new_URL location cfg key e w g Hg)
      as (w1 & t1 & w2 & t2 & _ & Hpass & Hg2 & Hk2 & Hkeys2 & _ & _).
    { intros el. by apply Hwf. }
    assert (Hwf2 : wf w2).
    { eapply (wf_store key); [exact Hwf|exact Hg2|exact Hk2|]. simpl.
      intros el. by apply Hwf. }
    destruct (IH w2) as (w3 & t3 & Hrun & Hwf3 & Hkeys3); [|done|].
    { intros k Hk. rewrite Hkeys2. apply Hkeys. by right. }
    exists w3, (t2 ++ t3). unfold bind. rewrite Hpass, Hrun. simpl.
    split; [done|]. split; [done|]. congruence.
Qed.

Lemma activateCurrentPath_returns (e : NavEvent) (w : World) :
  wf w ->
  exists w' t,
    activateCurrentPath new_URL location cfg e w = Returns tt w' t /\
    wf w' /\ map fst (elements w') = map fst (elements w).
Proof.
  intros Hwf. unfold activateCurrentPath.
  apply groups_loop_returns; [|done]. intros k. apply Object_keys_elem.
Qed.

Lemma activateCurrentPath_wf (e : NavEvent) (key : string) :
  triple (fun w => wf w /\ known key w)
    (activateCurrentPath new_URL location cfg e)
    (fun _ w => wf w /\ known key w).
Proof.
  intros w [Hwf Hkey].
  destruct (activateCurrentPath_returns e w Hwf) as (w' & t & Hrun & Hwf' & Hk).
  exists tt, w', t. split; [done|]. split; [done|].
  apply lookup_group_key. rewrite Hk. by apply lookup_group_known.
Qed.

Lemma ensure_group_wf (key : string) :
  triple wf (ensure_group key) (fun _ w => wf w /\ known key w).
Proof.
  intros w Hwf. unfold ensure_group.
  destruct (lookup_group key (elements w)) as [g|] eqn:Hg.
  - exists tt, w, []. by rewrite Hg.
  - eexists tt, _, []. split; [done|]. simpl. split.
    + eapply (wf_store key); [exact Hwf|apply lookup_store_eq| |]; simpl.
      * intros k Hk. by apply lookup_store_ne.
      * intros el H. by apply not_elem_of_nil in H.
    + by rewrite lookup_store_eq.
Qed.

Lemma push_member_wf (el : nat) :
  triple (fun w => wf w /\ known (routingGroup (cfg el)) w)
    (push_member (routingGroup (cfg el)) el)
    (fun _ w => wf w /\ known (routingGroup (cfg el)) w).
Proof.
  intros w [Hwf [g Hg]]. unfold push_member. rewrite Hg.
  eexists tt, _, []. split; [done|]. simpl. split.
  - eapply (wf_store (routingGroup (cfg el)));
      [exact Hwf|apply lookup_store_eq| |]; simpl.
    + intros k Hk. by apply lookup_store_ne.
    + intros x. rewrite elem_of_app, list_elem_of_singleton.
      intros [Hx| ->]; [by eapply Hwf|done].
  - by rewrite lookup_store_eq.
Qed.

Lemma set_fallback_wf (key : string) (fb : nat) :
  triple (fun w => wf w /\ known key w) (set_fallback key fb)
    (fun _ w => wf w /\ known key w).
Proof.
  intros w [Hwf [g Hg]]. unfold set_fallback. rewrite Hg.
  eexists tt, _, []. split; [done|]. simpl. split.
  - eapply (wf_store key); [exact Hwf|apply lookup_store_eq| |]; simpl.
    + intros k Hk. by apply lookup_store_ne.
    + intros x Hx. by eapply Hwf.
  - by rewrite lookup_store_eq.
Qed.

Lemma maybeActivateElement_wf (el : nat) (e : NavEvent) :
  triple (fun w => wf w /\ known (routingGroup (cfg el)) w)
    (maybeActivate el e) (fun _ w => wf w).
Proof.
  intros w [Hwf [g Hg]].
  destruct (maybeActivateElement_step new_URL location cfg el e w g Hg)
    as (w1 & t1 & Hrun & Hg1 & Hk1 & _).
  eexists _, w1, t1. split; [done|].
  eapply (wf_store (routingGroup (cfg el)));
    [exact Hwf|exact Hg1|exact Hk1|]; simpl.
  intros x Hx. by eapply Hwf.
Qed.

Lemma wf_same_elements (key : string) (w w' : World) :
  elements w' = elements w ->
  wf w /\ known key w -> wf w' /\ known key w'.
Proof. unfold members_in_own_group. by intros ->. Qed.

Lemma registerRoute_wf (el : nat) :
  triple wf (registerRoute new_URL location cfg el) (fun _ w => wf w).
Proof.
  unfold registerRoute. cbv zeta.
  eapply triple_bind; [apply ensure_group_wf|]. intros ?.
  eapply triple_bind; [apply triple_read|]. intros installed.
  eapply triple_bind.
  { apply triple_when. eapply triple_bind.
    - apply activateCurrentPath_wf.
    - intros ?. apply same_elements_keeps; [|done].
      apply wf_same_elements. }
  intros ?.
  eapply triple_bind; [apply triple_read|]. intros registered.
  eapply triple_bind; [apply triple_when, triple_emit|]. intros ?.
  eapply triple_bind.
  { apply same_elements_keeps; [|done]. apply wf_same_elements. }
  intros ?.
  eapply triple_bind; [apply push_member_wf|]. intros ?.
  eapply triple_bind; [apply (elements_at_keeps wf)|]. intros g.
  eapply triple_bind; [apply triple_when, set_fallback_wf|]. intros ?.
  eapply triple_bind; [apply (elements_at_keeps wf)|]. intros g'.
  destruct (negb (is_set (fallback g'))).
  - eapply triple_bind; [apply maybeActivateElement_wf|].
    intros ?. apply triple_ret.
  - eapply triple_weaken;
      [| |apply (activateCurrentPath_wf None (routingGroup (cfg el)))].
    + done.
    + by intros ? w [H _].
Qed.

Lemma registerRoutesFromSelector_wf (found : list nat) :
  triple wf (registerRoutesFromSelector new_URL location cfg found)
    (fun _ w => wf w).
Proof.
  induction found as [|el found IH]; simpl; [apply triple_ret|].
  eapply triple_bind; [apply ensure_group_wf|]. intros ?.
  eapply triple_bind.
  { eapply triple_weaken; [| |apply (elements_at_keeps wf)]; [done|].
    intros g w [H _]. exact H. }
  intros g.
  eapply triple_bind; [apply triple_when, registerRoute_wf|].
  intros ?. apply IH.
Qed.

(** *** Assertions that a pass keeps

    [P] survives a write of the recorded active element, and a write of
    the state of an element that satisfies [S]. *)
Section Stable.

Variable S : nat -> Prop.
Variable P : World -> Prop.
Hypothesis P_set_dom : forall w el s, S el -> P w -> P (set_dom el s w).
Hypothesis P_activeElement :
  forall w key v g, P w -> P (with_activeElement key v g w).

Lemma stable_ensure_dom (w : World) (el : nat) (b : bool) :
  S el -> P w -> P (ensure_dom el b w).
Proof.
  intros HS HP. unfold ensure_dom. destruct (Bool.eqb _ _); [done|].
  by apply P_set_dom.
Qed.

Lemma stable_maybeActivateElement (el : nat) (e : NavEvent) :
  S el -> keeps P (maybeActivate el e).
Proof.
  intros HS w r w1 t HP. rewrite maybeActivateElement_run. cbv zeta.
  destruct (falsy_template _).
  - destruct (lookup_group _ _) as [g|]; [|done].
    destruct (_ && _); intros ?; simplify_eq; [done|].
    by apply stable_ensure_dom.
  - destruct (matched el).
    + intros ?; simplify_eq. by apply stable_ensure_dom.
    + intros ?; simplify_eq. by apply stable_ensure_dom.
    + destruct (disableActivation _); [intros ?; by simplify_eq|].
      destruct (lookup_group _ _) as [g|]; [|done].
      intros ?; simplify_eq. apply P_activeElement.
      by apply stable_ensure_dom.
Qed.

Lemma stable_members_loop (e : NavEvent) (l : list nat) :
  forall acc,
    (forall el, el ∈ l -> S el) ->
    keeps P (members_loop new_URL location cfg l acc e).
Proof.
  induction l as [|el l IH]; intros acc Hl; simpl; [apply keeps_ret|].
  apply keeps_bind.
  - apply stable_maybeActivateElement. apply Hl. by left.
  - intros r. apply IH. intros x Hx. apply Hl. by right.
Qed.

Lemma stable_activate_group (key : string) (e : NavEvent) (w w2 : World)
    (g : Group) (t : list Event) :
  lookup_group key (elements w) = Some g ->
  (forall el, el ∈ members g -> S el) ->
  (forall fb, fallback g = Some fb -> S fb) ->
  P w ->
  activate_group new_URL location cfg key e w = Returns tt w2 t ->
  P w2.
Proof.
  intros Hg Hm Hfb HP Hrun. unfold activate_group in Hrun.
  apply bind_returns in Hrun as ([] & wr & ? & ? & Hset & Hrun & _).
  unfold set_activeElement in Hset. rewrite Hg in Hset.
  injection Hset as <- _.
  apply bind_returns in Hrun as (g0 & ? & ? & ? & Hat & Hrun & _).
  unfold elements_at in Hat. simpl in Hat. rewrite lookup_store_eq in Hat.
  injection Hat as <- <- _.
  apply bind_returns in Hrun as (oneActive & w1 & ? & ? & Hloop & Hrun & _).
  simpl in Hloop.
  assert (HP1 : P w1).
  { eapply (stable_members_loop e (members g) false Hm); [|exact Hloop].
    by apply P_activeElement. }
  assert (Hfr : framed (with_activeElement key None g w) w1).
  { eapply keeps_members_loop; [apply framed_refl|exact Hloop]. }
  apply bind_returns in Hrun as (g1 & ? & ? & ? & Hat & Hrun & _).
  unfold elements_at in Hat.
  destruct (lookup_group key (elements w1)) as [g1'|] eqn:Hg1; [|done].
  injection Hat as -> <- _.
  destruct Hfr as (Hfg & _). specialize (Hfg key). simpl in Hfg.
  rewrite lookup_store_eq, Hg1 in Hfg. simpl in Hfg.
  destruct Hfg as [_ Hf]. rewrite <- Hf in Hrun.
  destruct (fallback g) as [fb|]; [|unfold ret in Hrun; by simplify_eq].
  apply bind_returns in Hrun as ([] & w3 & ? & ? & Htog & Hrun & _).
  rewrite toggleElementActive_run in Htog. injection Htog as <- _.
  eapply (keeps_when P _ _ (keeps_callbacks cfg P fb ∅ e)); [|exact Hrun].
  apply P_set_dom; [by apply Hfb|done].
Qed.

Lemma stable_groups_loop (e : NavEvent) (keys : list string) :
  forall w w' t,
    (forall key g,
        lookup_group key (elements w) = Some g ->
        (forall el, el ∈ members g -> S el) /\
        (forall fb, fallback g = Some fb -> S fb)) ->
    P w ->
    groups_loop new_URL location cfg keys e w = Returns tt w' t ->
    P w'.
Proof.
  induction keys as [|key keys IH]; intros w w' t HS HP Hrun; simpl in Hrun.
  - unfold emit in Hrun. by simplify_eq.
  - apply bind_returns in Hrun as (g & ? & ? & ? & Hat & Hrun & _).
    unfold elements_at in Hat.
    destruct (lookup_group key (elements w)) as [g'|] eqn:Hg; [|done].
    injection Hat as -> <- _.
    destruct (Nat.eqb _ _); [unfold ret in Hrun; by simplify_eq|].
    apply bind_returns in Hrun as ([] & w2 & ? & ? & Hpass & Hrun & _).
    destruct (HS key g Hg) as [Hm Hfb].
    eapply (IH w2); [| |exact Hrun].
    + assert (Hfr : framed w w2).
      { eapply (keeps_activate_group new_URL location cfg w key e);
          [apply framed_refl|exact Hpass]. }
      intros k g2 Hg2. destruct Hfr as (Hfg & _). specialize (Hfg k).
      rewrite Hg2 in Hfg. unfold group_frame in Hfg.
      destruct (lookup_group k (elements w)) as [g0|] eqn:Hg0; [|done].
      destruct Hfg as [<- <-]. by apply (HS k g0).
    + by eapply stable_activate_group.
Qed.

End Stable.

Lemma pass_leaves_registry_of_run (e : NavEvent) (w w1 : World) (t : list Event) :
  activateCurrentPath new_URL location cfg e w = Returns tt w1 t ->
  (forall key,
      group_frame (lookup_group key (elements w))
        (lookup_group key (elements w1))) /\
  map fst (elements w1) = map fst (elements w) /\
  (forall el, routingRegistered (dom w1 el) = routingRegistered (dom w el)) /\
  routerInstalled w1 = routerInstalled w.
Proof.
  intros Hrun.
  destruct (activateCurrentPath_framed new_URL location cfg e w w1 t Hrun)
    as (Hg & Hr & Hk).
  split; [done|]. split; [done|]. split; [done|].
  unfold activateCurrentPath in Hrun.
  eapply (stable_groups_loop (fun _ => True)
            (fun w' => routerInstalled w' = routerInstalled w));
    [done|done| |done|exact Hrun].
  by intros.
Qed.

(** X6. From a registry whose members are listed under their own group a
    pass returns, and it writes active flags and recorded active elements
    only: every group keeps its members and its fallback, the groups keep
    their order, every element keeps its registration mark, and the router
    stays installed or not as it was. *)
Theorem pass_leaves_registry (e : NavEvent) (w : World) :
  wf w ->
  exists w1 t,
    activateCurrentPath new_URL location cfg e w = Returns tt w1 t /\
    (forall key,
        group_frame (lookup_group key (elements w))
          (lookup_group key (elements w1))) /\
    map fst (elements w1) = map fst (elements w) /\
    (forall el, routingRegistered (dom w1 el) = routingRegistered (dom w el)) /\
    routerInstalled w1 = routerInstalled w.
Proof.
  intros Hwf.
  destruct (activateCurrentPath_returns e w Hwf) as (w1 & t & Hrun & _).
  exists w1, t. split; [exact Hrun|].
  by apply (pass_leaves_registry_of_run e w w1 t).
Qed.

Lemma pass_touches_registered_only_of_run (e : NavEvent) (w w1 : World)
    (t : list Event) (x : nat) :
  (forall key g,
      lookup_group key (elements w) = Some g ->
      (x ∉ members g) /\ fallback g <> Some x) ->
  activateCurrentPath new_URL location cfg e w = Returns tt w1 t ->
  dom w1 x = dom w x.
Proof.
  intros Hx Hrun. unfold activateCurrentPath in Hrun.
  eapply (stable_groups_loop (fun el => el <> x)
            (fun w' => dom w' x = dom w x)); [| | |done|exact Hrun].
  - intros w' el s Hne Hd. simpl. by destruct (Nat.eqb_spec x el).
  - done.
  - intros key g Hg. destruct (Hx key g Hg) as [Hm Hf]. split.
    + intros el Hel ->. by apply Hm.
    + intros fb Hfb ->. by apply Hf.
Qed.

(** X7. From such a registry a pass returns and leaves alone every element
    that is neither a member nor the fallback of a group: its attribute,
    its property and its mark are as before. *)
Theorem pass_touches_registered_only (e : NavEvent) (w : World) (x : nat) :
  wf w ->
  (forall key g,
      lookup_group key (elements w) = Some g ->
      (x ∉ members g) /\ fallback g <> Some x) ->
  exists w1 t,
    activateCurrentPath new_URL location cfg e w = Returns tt w1 t /\
    dom w1 x = dom w x.
Proof.
  intros Hwf Hx.
  destruct (activateCurrentPath_returns e w Hwf) as (w1 & t & Hrun & _).
  exists w1, t. split; [exact Hrun|].
  by apply (pass_touches_registered_only_of_run e w w1 t x).
Qed.

(** *** The flags after a pass *)

Lemma activate_group_trace (key : string) (e : NavEvent) (w w2 : World)
    (g : Group) (t : list Event) :
  lookup_group key (elements w) = Some g ->
  activate_group new_URL location cfg key e w = Returns tt w2 t ->
  exists b w1 t1,
    members_loop new_URL location cfg (members g) false e
      (with_activeElement key None g w) = Returns b w1 t1 /\
    w2 = match fallback g with
         | Some fb => set_dom fb (toggled (negb b) (dom w1 fb)) w1
         | None => w1
         end /\
    t = t1 ++ match fallback g with
              | Some fb =>
                  if negb b
                  then route_activated fb :: callback_trace cfg fb ∅ e
                  else []
              | None => []
              end.
Proof.
  intros Hg Hrun. unfold activate_group in Hrun.
  apply bind_returns in Hrun as ([] & wr & ta & tb & Hset & Hrun & ->).
  unfold set_activeElement in Hset. rewrite Hg in Hset.
  injection Hset as <- <-.
  apply bind_returns in Hrun as (g0 & wc & tc & td & Hat & Hrun & ->).
  unfold elements_at in Hat. simpl in Hat. rewrite lookup_store_eq in Hat.
  injection Hat as <- <- <-.
  apply bind_returns in Hrun as (b & w1 & t1 & te & Hloop & Hrun & ->).
  simpl in Hloop. exists b, w1, t1. split; [exact Hloop|].
  assert (Hfr : framed (with_activeElement key None g w) w1).
  { eapply keeps_members_loop; [apply framed_refl|exact Hloop]. }
  apply bind_returns in Hrun as (g1 & wd & tf & tg & Hat & Hrun & ->).
  unfold elements_at in Hat.
  destruct (lookup_group key (elements w1)) as [g1'|] eqn:Hg1; [|done].
  injection Hat as -> <- <-.
  destruct Hfr as (Hfg & _). specialize (Hfg key). simpl in Hfg.
  rewrite lookup_store_eq, Hg1 in Hfg. simpl in Hfg.
  destruct Hfg as [_ Hf]. rewrite <- Hf in Hrun.
  destruct (fallback g) as [fb|].
  2:{ unfold ret in Hrun. simplify_eq. by rewrite ?app_nil_r. }
  apply bind_returns in Hrun as ([] & w3 & th & ti & Htog & Hrun & ->).
  rewrite toggleElementActive_run in Htog. injection Htog as <- <-.
  destruct (negb b); simpl in Hrun.
  - rewrite callbacks_run in Hrun. by simplify_eq.
  - unfold ret in Hrun. by simplify_eq.
Qed.

Lemma activate_group_inv (key : string) (e : NavEvent) (w w2 : World)
    (g : Group) (t : list Event) :
  lookup_group key (elements w) = Some g ->
  activate_group new_URL location cfg key e w = Returns tt w2 t ->
  exists b w1 t1,
    members_loop new_URL location cfg (members g) false e
      (with_activeElement key None g w) = Returns b w1 t1 /\
    w2 = match fallback g with
         | Some fb => set_dom fb (toggled (negb b) (dom w1 fb)) w1
         | None => w1
         end.
Proof.
  intros Hg Hrun.
  destruct (activate_group_trace key e w w2 g t Hg Hrun)
    as (b & w1 & t1 & Hloop & Hw & _).
  by exists b, w1, t1.
Qed.

Local Abbreviation flag_agrees w x :=
  (active_of (dom w x) = matches new_URL location cfg x).

Lemma ensure_dom_flag_agrees (w : World) (x y : nat) (b : bool) :
  b = matches new_URL location cfg y ->
  flag_agrees w x -> flag_agrees (ensure_dom y b w) x.
Proof.
  intros Hb Hx. destruct (decide (x = y)) as [->|Hne].
  - by rewrite ensure_dom_same, active_of_ensure.
  - by rewrite ensure_dom_other.
Qed.

Lemma maybeActivateElement_keeps_flag (x y : nat) (e : NavEvent)
    (w w1 : World) (r : bool) (t : list Event) :
  flag_agrees w x ->
  maybeActivate y e w = Returns r w1 t ->
  flag_agrees w1 x.
Proof.
  intros Hx. rewrite maybeActivateElement_run. cbv zeta.
  destruct (falsy_template (pagePath (cfg y))) eqn:Hf.
  - assert (Hm : false = matches new_URL location cfg y).
    { unfold matches. by rewrite (falsy_template_no_match _ _ _ _ Hf). }
    destruct (lookup_group _ _) as [g|]; [|done].
    destruct (_ && _); intros ?; simplify_eq; [done|].
    by apply ensure_dom_flag_agrees.
  - destruct (matched y) as [| |params] eqn:Hm.
    + intros ?; simplify_eq. apply ensure_dom_flag_agrees; [|done].
      unfold matches. by rewrite Hm.
    + intros ?; simplify_eq. apply ensure_dom_flag_agrees; [|done].
      unfold matches. by rewrite Hm.
    + destruct (disableActivation _); [intros ?; by simplify_eq|].
      destruct (lookup_group _ _) as [g|]; [|done].
      intros ?; simplify_eq. simpl.
      apply ensure_dom_flag_agrees; [|done].
      unfold matches. by rewrite Hm.
Qed.

Lemma maybeActivateElement_sets_flag (el : nat) (e : NavEvent)
    (w w1 : World) (r : bool) (t : list Event) :
  (forall g, lookup_group (routingGroup (cfg el)) (elements w) = Some g ->
             fallback g <> Some el) ->
  disableActivation (cfg el) && matches new_URL location cfg el = false ->
  falsy_template (pagePath (cfg el)) && negb (disableActivation (cfg el)) =
    false ->
  maybeActivate el e w = Returns r w1 t ->
  flag_agrees w1 el.
Proof.
  intros Hfb Hdetour Hpath. rewrite maybeActivateElement_run. cbv zeta.
  unfold matches in *.
  destruct (falsy_template (pagePath (cfg el))) eqn:Hf.
  - rewrite (falsy_template_no_match _ _ _ _ Hf). simpl in *.
    destruct (lookup_group _ _) as [g|]; [|done].
    apply negb_false_iff in Hpath. rewrite Hpath, andb_false_r.
    intros ?; simplify_eq. by rewrite ensure_dom_same, active_of_ensure.
  - destruct (matched el) as [| |params] eqn:Hm; simpl in *.
    + intros ?; simplify_eq. by rewrite ensure_dom_same, active_of_ensure.
    + intros ?; simplify_eq. by rewrite ensure_dom_same, active_of_ensure.
    + rewrite andb_true_r in Hdetour. rewrite Hdetour.
      destruct (lookup_group _ _) as [g|]; [|done].
      intros ?; simplify_eq. simpl.
      by rewrite ensure_dom_same, active_of_ensure.
Qed.

Lemma members_loop_keeps_flag (x : nat) (e : NavEvent) (l : list nat) :
  forall acc w w1 r t,
    flag_agrees w x ->
    members_loop new_URL location cfg l acc e w = Returns r w1 t ->
    flag_agrees w1 x.
Proof.
  induction l as [|y l IH]; intros acc w w1 r t Hx Hrun; simpl in Hrun.
  - unfold ret in Hrun. by simplify_eq.
  - apply bind_returns in Hrun as (a & w2 & ? & ? & Hstep & Hrun & _).
    eapply IH; [|exact Hrun]. by eapply maybeActivateElement_keeps_flag.
Qed.

Lemma members_loop_sets_flag (el : nat) (e : NavEvent) (l : list nat) :
  forall acc w w1 r t,
    el ∈ l ->
    (forall g, lookup_group (routingGroup (cfg el)) (elements w) = Some g ->
               fallback g <> Some el) ->
    disableActivation (cfg el) && matches new_URL location cfg el = false ->
    falsy_template (pagePath (cfg el)) && negb (disableActivation (cfg el)) =
      false ->
    members_loop new_URL location cfg l acc e w = Returns r w1 t ->
    flag_agrees w1 el.
Proof.
  induction l as [|y l IH]; intros acc w w1 r t Hin Hfb Hd Hp Hrun.
  - by apply elem_of_nil in Hin.
  - simpl in Hrun.
    apply bind_returns in Hrun as (a & w2 & ? & ? & Hstep & Hrun & _).
    apply elem_of_cons in Hin as [->|Hin].
    + eapply members_loop_keeps_flag; [|exact Hrun].
      by eapply maybeActivateElement_sets_flag.
    + eapply (IH _ w2); [done| |done|done|exact Hrun].
      assert (Hfr : framed w w2).
      { eapply (keeps_maybeActivateElement new_URL location cfg w y e);
          [apply framed_refl|exact Hstep]. }
      intros g2 Hg2. destruct Hfr as (Hfg & _).
      specialize (Hfg (routingGroup (cfg el))). rewrite Hg2 in Hfg.
      unfold group_frame in Hfg.
      destruct (lookup_group _ (elements w)) as [g0|] eqn:Hg0; [|done].
      destruct Hfg as [_ <-]. by apply Hfb.
Qed.

Lemma activate_group_sets_flag (key : string) (e : NavEvent)
    (w w2 : World) (g : Group) (t : list Event) (el : nat) :
  lookup_group key (elements w) = Some g ->
  activate_group new_URL location cfg key e w = Returns tt w2 t ->
  el ∈ members g ->
  routingGroup (cfg el) = key ->
  fallback g <> Some el ->
  disableActivation (cfg el) && matches new_URL location cfg el = false ->
  falsy_template (pagePath (cfg el)) && negb (disableActivation (cfg el)) =
    false ->
  active_of (dom w2 el) = matches new_URL location cfg el.
Proof.
  intros Hg Hrun Hin Hkey Hfb Hd Hp.
  destruct (activate_group_inv key e w w2 g t Hg Hrun)
    as (b & w1 & t1 & Hloop & ->).
  assert (H1 : flag_agrees w1 el).
  { eapply members_loop_sets_flag; [exact Hin| |done|done|exact Hloop].
    intros g0. rewrite Hkey. simpl. rewrite lookup_store_eq.
    by intros [= <-]. }
  destruct (fallback g) as [fb|]; [|done]. simpl.
  destruct (Nat.eqb_spec el fb) as [->|Hne]; [done|done].
Qed.

Lemma activate_group_keeps_flag (key : string) (e : NavEvent)
    (w w2 : World) (g : Group) (t : list Event) (x : nat) :
  lookup_group key (elements w) = Some g ->
  fallback g <> Some x ->
  flag_agrees w x ->
  activate_group new_URL location cfg key e w = Returns tt w2 t ->
  flag_agrees w2 x.
Proof.
  intros Hg Hfb Hx Hrun.
  destruct (activate_group_inv key e w w2 g t Hg Hrun)
    as (b & w1 & t1 & Hloop & ->).
  assert (H1 : flag_agrees w1 x).
  { eapply members_loop_keeps_flag; [|exact Hloop]. exact Hx. }
  destruct (fallback g) as [fb|]; [|done]. simpl.
  destruct (Nat.eqb_spec x fb) as [->|Hne]; [done|done].
Qed.

Lemma insert_index_keeps (i : N) (k x : string) (l : list (N * string)) :
  x = k \/ x ∈ map snd l -> x ∈ map snd (insert_index i k l).
Proof.
  induction l as [|[j k'] l IH]; simpl.
  - rewrite list_elem_of_singleton. intros [?|H]; [done|].
    by apply elem_of_nil in H.
  - destruct (i <=? j)%N; simpl; rewrite !elem_of_cons; [tauto|].
    intros [H|[H|H]]; [right; apply IH; by left|by left|].
    right. apply IH. by right.
Qed.

(** [Object.keys] lists every key of the object. *)
Lemma Object_keys_complete (key : string) (els : list (string * Group)) :
  key ∈ map fst els -> key ∈ Object_keys els.
Proof.
  unfold Object_keys. intros H. apply elem_of_app.
  destruct (is_index key) eqn:Hi.
  - left. unfold is_index in Hi.
    induction (map fst els) as [|k ks IH]; [by apply elem_of_nil in H|].
    simpl. apply elem_of_cons in H as [<-|H].
    + destruct (array_index key); [|done].
      apply insert_index_keeps. by left.
    + destruct (array_index k); [|by apply IH].
      apply insert_index_keeps. right. by apply IH.
  - right. by apply list_elem_of_filter.
Qed.

Lemma groups_loop_sets_flag (key : string) (x : nat) (e : NavEvent)
    (keys : list string) :
  forall w w' t,
    (forall k g, lookup_group k (elements w) = Some g ->
                 members g <> [] /\ fallback g <> Some x) ->
    member_of key x w ->
    routingGroup (cfg x) = key ->
    disableActivation (cfg x) && matches new_URL location cfg x = false ->
    falsy_template (pagePath (cfg x)) && negb (disableActivation (cfg x)) =
      false ->
    key ∈ keys \/ flag_agrees w x ->
    groups_loop new_URL location cfg keys e w = Returns tt w' t ->
    flag_agrees w' x.
Proof.
  induction keys as [|k keys IH];
    intros w w' t Hall Hmem Hkey Hd Hp Hor Hrun; simpl in Hrun.
  - unfold emit in Hrun. simplify_eq.
    destruct Hor as [H|H]; [by apply elem_of_nil in H|done].
  - apply bind_returns in Hrun as (g & ? & ? & ? & Hat & Hrun & _).
    unfold elements_at in Hat.
    destruct (lookup_group k (elements w)) as [g'|] eqn:Hg; [|done].
    injection Hat as -> <- _.
    destruct (Hall k g Hg) as [Hne Hfb].
    destruct (members g) as [|m ms] eqn:Hms; [done|]. simpl in Hrun.
    apply bind_returns in Hrun as ([] & w2 & ? & ? & Hpass & Hrun & _).
    assert (Hfr : framed w w2).
    { eapply (keeps_activate_group new_URL location cfg w k e);
        [apply framed_refl|exact Hpass]. }
    destruct Hfr as (Hfg & _).
    eapply (IH w2); [| |done|done|done| |exact Hrun].
    + intros k2 g2 Hg2. specialize (Hfg k2). rewrite Hg2 in Hfg.
      unfold group_frame in Hfg.
      destruct (lookup_group k2 (elements w)) as [g0|] eqn:Hg0; [|done].
      destruct Hfg as [<- <-]. by apply (Hall k2 g0).
    + destruct Hmem as (g0 & Hg0 & Hin). specialize (Hfg key).
      rewrite Hg0 in Hfg. unfold group_frame in Hfg.
      destruct (lookup_group key (elements w2)) as [g2|]; [|done].
      destruct Hfg as [Hm _]. exists g2. split; [done|]. by rewrite <- Hm.
    + destruct (decide (k = key)) as [->|Hnk].
      * right. destruct Hmem as (g0 & Hg0 & Hin).
        rewrite Hg in Hg0. injection Hg0 as <-.
        by eapply (activate_group_sets_flag key e w w2 g).
      * destruct Hor as [Hin|Hx].
        -- left. apply elem_of_cons in Hin as [?|?]; [congruence|done].
        -- right. by eapply activate_group_keeps_flag.
Qed.

Lemma members_active_iff_match_of_run (key : string) (e : NavEvent)
    (w w2 : World) (g : Group) (t : list Event) (el : nat) :
  lookup_group key (elements w) = Some g ->
  activate_group new_URL location cfg key e w = Returns tt w2 t ->
  el ∈ members g ->
  routingGroup (cfg el) = key ->
  fallback g <> Some el ->
  disableActivation (cfg el) && matches new_URL location cfg el = false ->
  falsy_template (pagePath (cfg el)) && negb (disableActivation (cfg el)) =
    false ->
  active_of (dom w2 el) = matches new_URL location cfg el.
Proof. apply activate_group_sets_flag. Qed.

(** X8. The pass over a group whose members name that group returns, and
    afterwards every member that is not the fallback of the group, has a
    path or has activation disabled, and does not take the detour
    (activation disabled and matching) has its active flag set exactly when
    the location matches its path. *)
Theorem members_active_iff_match (key : string) (e : NavEvent)
    (w : World) (g : Group) (el : nat) :
  lookup_group key (elements w) = Some g ->
  (forall x, x ∈ members g -> routingGroup (cfg x) = key) ->
  el ∈ members g ->
  fallback g <> Some el ->
  disableActivation (cfg el) && matches new_URL location cfg el = false ->
  falsy_template (pagePath (cfg el)) && negb (disableActivation (cfg el)) =
    false ->
  exists w2 t,
    activate_group new_URL location cfg key e w = Returns tt w2 t /\
    active_of (dom w2 el) = matches new_URL location cfg el.
Proof.
  intros Hg Hown Hin Hfb Hd Hp.
  destruct (activate_group_run new_URL location cfg key e w g Hg Hown)
    as (w1 & t1 & w2 & t2 & _ & Hrun & _).
  exists w2, t2. split; [exact Hrun|].
  apply (members_active_iff_match_of_run key e w w2 g t2 el); try done.
  by apply Hown.
Qed.

Lemma pass_activates_matching_members_of_run (e : NavEvent) (w w' : World)
    (t : list Event) (key : string) (g : Group) (x : nat) :
  (forall k g0, lookup_group k (elements w) = Some g0 ->
                members g0 <> [] /\ fallback g0 <> Some x) ->
  lookup_group key (elements w) = Some g ->
  x ∈ members g ->
  routingGroup (cfg x) = key ->
  disableActivation (cfg x) && matches new_URL location cfg x = false ->
  falsy_template (pagePath (cfg x)) && negb (disableActivation (cfg x)) =
    false ->
  activateCurrentPath new_URL location cfg e w = Returns tt w' t ->
  active_of (dom w' x) = matches new_URL location cfg x.
Proof.
  intros Hall Hg Hin Hkey Hd Hp Hrun. unfold activateCurrentPath in Hrun.
  eapply (groups_loop_sets_flag key x e); [exact Hall| |done|done|done|
                                            |exact Hrun].
  - by exists g.
  - left. apply Object_keys_complete. apply lookup_group_known. by eexists.
Qed.

(** X9. From a registry whose members are listed under their own group and
    in which no group has an empty list, a pass returns and leaves every
    member that is the fallback of no group, has a path or has activation
    disabled, and does not take the detour with its active flag set
    exactly when the location matches its path, in whatever group it
    is. *)
Theorem pass_activates_matching_members (e : NavEvent) (w : World)
    (key : string) (g : Group) (x : nat) :
  wf w ->
  (forall k g0, lookup_group k (elements w) = Some g0 ->
                members g0 <> [] /\ fallback g0 <> Some x) ->
  lookup_group key (elements w) = Some g ->
  x ∈ members g ->
  disableActivation (cfg x) && matches new_URL location cfg x = false ->
  falsy_template (pagePath (cfg x)) && negb (disableActivation (cfg x)) =
    false ->
  exists w' t,
    activateCurrentPath new_URL location cfg e w = Returns tt w' t /\
    active_of (dom w' x) = matches new_URL location cfg x.
Proof.
  intros Hwf Hall Hg Hin Hd Hp.
  destruct (activateCurrentPath_returns e w Hwf) as (w' & t & Hrun & _).
  exists w', t. split; [exact Hrun|].
  apply (pass_activates_matching_members_of_run e w w' t key g x); try done.
  by apply (Hwf key g).
Qed.

(** *** The route-activated event of a member *)

Lemma callback_trace_no_activation (el x : nat)
    (params : gmap string string) (e : NavEvent) :
  route_activated x ∉ callback_trace cfg el params e.
Proof.
  unfold callback_trace.
  destruct (preRouterCallback (cfg el)), (routerCallback (cfg el)); simpl;
    rewrite ?elem_of_cons; intros H;
    repeat (destruct H as [H|H]; [discriminate|]);
    by apply not_elem_of_nil in H.
Qed.

Lemma ensure_trace_activation (el x : nat) (w : World) :
  route_activated x ∈ ensure_trace el true w <->
  x = el /\ active_of (dom w el) = false.
Proof.
  unfold ensure_trace. destruct (active_of (dom w el)); simpl.
  - split; [by intros ?%not_elem_of_nil|by intros [_ ?]].
  - rewrite list_elem_of_singleton. split; [by intros [= ->]|by intros [-> _]].
Qed.

Lemma maybeActivateElement_activation (el x : nat) (e : NavEvent)
    (w w1 : World) (r : bool) (t : list Event) :
  maybeActivate el e w = Returns r w1 t ->
  (route_activated x ∈ t <->
   x = el /\ counts new_URL location cfg el = true /\
   active_of (dom w el) = false) /\
  (x <> el -> dom w1 x = dom w x) /\
  (counts new_URL location cfg x = true ->
   x = el \/ active_of (dom w x) = true -> active_of (dom w1 x) = true).
Proof.
  rewrite maybeActivateElement_run. cbv zeta.
  rewrite !(counts_matched new_URL location cfg).
  destruct (falsy_template (pagePath (cfg el))) eqn:Hf.
  - rewrite (falsy_template_no_match _ _ _ _ Hf). simpl.
    destruct (lookup_group _ _) as [g|]; [|done].
    destruct (_ && _); intros ?; simplify_eq.
    + split; [|split; [done|]].
      * rewrite list_elem_of_singleton. split; [done|by intros (_ & ? & _)].
      * intros Hc [->|Ha]; [|done].
        by rewrite (falsy_template_no_match _ _ _ _ Hf) in Hc.
    + split; [|split; [by apply ensure_dom_other|]].
      * split; [by intros ?%not_elem_of_nil|by intros (_ & ? & _)].
      * intros Hc [->|Ha].
        -- by rewrite (falsy_template_no_match _ _ _ _ Hf) in Hc.
        -- destruct (decide (x = el)) as [->|Hne];
             [by rewrite (falsy_template_no_match _ _ _ _ Hf) in Hc|].
           by rewrite ensure_dom_other.
  - destruct (matched el) as [| |params] eqn:Hm; simpl.
    + intros ?; simplify_eq. split; [|split; [by apply ensure_dom_other|]].
      * split; [by intros ?%not_elem_of_nil|by intros (_ & ? & _)].
      * intros Hc [->|Ha]; [by rewrite Hm in Hc|].
        destruct (decide (x = el)) as [->|Hne]; [by rewrite Hm in Hc|].
        by rewrite ensure_dom_other.
    + intros ?; simplify_eq. split; [|split; [by apply ensure_dom_other|]].
      * split; [by intros ?%not_elem_of_nil|by intros (_ & ? & _)].
      * intros Hc [->|Ha]; [by rewrite Hm in Hc|].
        destruct (decide (x = el)) as [->|Hne]; [by rewrite Hm in Hc|].
        by rewrite ensure_dom_other.
    + destruct (disableActivation (cfg el)) eqn:Hd; simpl.
      * intros ?; simplify_eq. split; [|split; [done|]].
        -- split; [|by intros (_ & ? & _)].
           intros H. by apply callback_trace_no_activation in H.
        -- intros Hc [->|Ha]; [|done]. by rewrite Hm, Hd in Hc.
      * destruct (lookup_group _ _) as [g|]; [|done].
        intros ?; simplify_eq. simpl.
        split; [|split; [by apply ensure_dom_other|]].
        -- rewrite elem_of_app, ensure_trace_activation. split.
           ++ intros [[-> Ha]|H]; [done|].
              destruct (is_not el (activeElement g));
                [by apply callback_trace_no_activation in H
                |by apply not_elem_of_nil in H].
           ++ intros (-> & _ & Ha). by left.
        -- intros Hc [->|Ha].
           ++ by rewrite ensure_dom_same, active_of_ensure.
           ++ destruct (decide (x = el)) as [->|Hne].
              ** by rewrite ensure_dom_same, active_of_ensure.
              ** by rewrite ensure_dom_other.
Qed.

Lemma members_loop_activation (x : nat) (e : NavEvent) (l : list nat) :
  forall acc w w1 r t,
    members_loop new_URL location cfg l acc e w = Returns r w1 t ->
    (route_activated x ∈ t <->
     x ∈ l /\ counts new_URL location cfg x = true /\
     active_of (dom w x) = false) /\
    (x ∉ l -> dom w1 x = dom w x) /\
    (counts new_URL location cfg x = true ->
     x ∈ l \/ active_of (dom w x) = true -> active_of (dom w1 x) = true).
Proof.
  induction l as [|el l IH]; intros acc w w1 r t Hrun; simpl in Hrun.
  - unfold ret in Hrun. simplify_eq. split; [|split; [done|]].
    + split; [by intros ?%not_elem_of_nil|].
      by intros (?%not_elem_of_nil & _).
    + intros _ [H|H]; [by apply not_elem_of_nil in H|done].
  - apply bind_returns in Hrun as (a & w2 & t1 & t2 & Hstep & Hrun & ->).
    destruct (maybeActivateElement_activation el x e w w2 a t1 Hstep)
      as (Hev1 & Hdom1 & Hact1).
    destruct (IH _ w2 w1 r t2 Hrun) as (Hev2 & Hdom2 & Hact2).
    split; [|split].
    + rewrite elem_of_app, Hev1, Hev2, elem_of_cons.
      destruct (decide (x = el)) as [->|Hne].
      * split.
        -- intros [(_ & Hc & Ha)|(Hin & Hc & Ha)]; [by split; [left|]|].
           rewrite Hact1 in Ha; [done|done|by left].
        -- intros (_ & Hc & Ha). by left.
      * rewrite (Hdom1 Hne). split.
        -- intros [(? & _)|(Hin & Hc & Ha)]; [done|]. by split; [right|].
        -- intros ([?|Hin] & Hc & Ha); [done|]. by right.
    + intros Hnot. apply not_elem_of_cons in Hnot as [Hne Hnot].
      by rewrite (Hdom2 Hnot), (Hdom1 Hne).
    + intros Hc [Hin|Ha].
      * apply elem_of_cons in Hin as [->|Hin].
        -- apply (Hact2 Hc). right. apply (Hact1 Hc). by left.
        -- apply (Hact2 Hc). by left.
      * apply (Hact2 Hc). right. apply (Hact1 Hc). by right.
Qed.

Lemma activate_group_activation (key : string) (x : nat) (e : NavEvent)
    (w w2 : World) (g : Group) (t : list Event) :
  lookup_group key (elements w) = Some g ->
  fallback g <> Some x ->
  activate_group new_URL location cfg key e w = Returns tt w2 t ->
  (route_activated x ∈ t <->
   x ∈ members g /\ counts new_URL location cfg x = true /\
   active_of (dom w x) = false) /\
  (x ∉ members g -> dom w2 x = dom w x) /\
  (counts new_URL location cfg x = true -> x ∈ members g ->
   active_of (dom w2 x) = true).
Proof.
  intros Hg Hfb Hrun.
  destruct (activate_group_trace key e w w2 g t Hg Hrun)
    as (b & w1 & t1 & Hloop & -> & ->).
  destruct (members_loop_activation x e (members g) _ _ _ _ _ Hloop)
    as (Hev & Hdom & Hact).
  simpl in Hev, Hdom, Hact.
  assert (Hother : forall fb s, fallback g = Some fb ->
                                dom (set_dom fb s w1) x = dom w1 x).
  { intros fb s Hf. simpl. destruct (Nat.eqb_spec x fb) as [->|]; [|done].
    congruence. }
  split; [|split].
  - rewrite elem_of_app, Hev. split; [|by left].
    intros [H|H]; [done|].
    destruct (fallback g) as [fb|]; [|by apply not_elem_of_nil in H].
    destruct (negb b); [|by apply not_elem_of_nil in H].
    apply elem_of_cons in H as [[= ->]|H]; [done|].
    by apply callback_trace_no_activation in H.
  - intros Hnot. destruct (fallback g) as [fb|] eqn:Hf; [|by apply Hdom].
    rewrite (Hother fb _ eq_refl). by apply Hdom.
  - intros Hc Hin. destruct (fallback g) as [fb|] eqn:Hf.
    + rewrite (Hother fb _ eq_refl). apply (Hact Hc). by left.
    + apply (Hact Hc). by left.
Qed.

Lemma groups_loop_activation (x : nat) (e : NavEvent) (keys : list string) :
  forall w w' t,
    (forall k g, lookup_group k (elements w) = Some g ->
                 members g <> [] /\ fallback g <> Some x /\
                 (x ∈ members g -> k = routingGroup (cfg x))) ->
    groups_loop new_URL location cfg keys e w = Returns tt w' t ->
    (route_activated x ∈ t <->
     routingGroup (cfg x) ∈ keys /\
     member_of (routingGroup (cfg x)) x w /\
     counts new_URL location cfg x = true /\
     active_of (dom w x) = false).
Proof.
  induction keys as [|k keys IH]; intros w w' t Hall Hrun; simpl in Hrun.
  - unfold emit in Hrun. simplify_eq. rewrite list_elem_of_singleton.
    split; [done|]. by intros (?%not_elem_of_nil & _).
  - apply bind_returns in Hrun as (g & wa & ta & tb & Hat & Hrun & ->).
    unfold elements_at in Hat.
    destruct (lookup_group k (elements w)) as [g'|] eqn:Hg; [|done].
    injection Hat as -> <- <-.
    destruct (Hall k g Hg) as (Hne & Hfb & Hown).
    destruct (members g) as [|m ms] eqn:Hms; [done|]. simpl in Hrun.
    rewrite <- Hms in *.
    apply bind_returns in Hrun as ([] & w2 & t1 & t2 & Hpass & Hrun & ->).
    destruct (activate_group_activation k x e w w2 g t1 Hg Hfb Hpass)
      as (Hev1 & Hdom1 & Hact1).
    assert (Hfr : framed w w2).
    { eapply (keeps_activate_group new_URL location cfg w k e);
        [apply framed_refl|exact Hpass]. }
    destruct Hfr as (Hfg & _).
    assert (Hall2 : forall k2 g2,
      lookup_group k2 (elements w2) = Some g2 ->
      members g2 <> [] /\ fallback g2 <> Some x /\
      (x ∈ members g2 -> k2 = routingGroup (cfg x))).
    { intros k2 g2 Hg2. specialize (Hfg k2). rewrite Hg2 in Hfg.
      unfold group_frame in Hfg.
      destruct (lookup_group k2 (elements w)) as [g0|] eqn:Hg0; [|done].
      destruct Hfg as [<- <-]. by apply (Hall k2 g0). }
    assert (Hmem : member_of (routingGroup (cfg x)) x w2 <->
                   member_of (routingGroup (cfg x)) x w).
    { specialize (Hfg (routingGroup (cfg x))). unfold group_frame in Hfg.
      destruct (lookup_group (routingGroup (cfg x)) (elements w))
        as [g0|] eqn:Hg0;
        destruct (lookup_group (routingGroup (cfg x)) (elements w2))
          as [g2|] eqn:Hg2; try done.
      destruct Hfg as [Hm _]. split.
      - intros (? & [= <-] & Hin). exists g0. by rewrite Hm.
      - intros (? & [= <-] & Hin). exists g2. by rewrite <- Hm. }
    rewrite app_nil_l, elem_of_app, Hev1, (IH w2 w' t2 Hall2 Hrun), Hmem,
      elem_of_cons.
    destruct (decide (x ∈ members g)) as [Hin|Hnot].
    + pose proof (Hown Hin) as ->. split.
      * intros [(_ & Hc & Ha)|(_ & _ & Hc & Ha)].
        -- split; [by left|]. split; [by exists g|done].
        -- by rewrite (Hact1 Hc Hin) in Ha.
      * intros (_ & _ & Hc & Ha). by left.
    + rewrite (Hdom1 Hnot). split.
      * intros [(? & _)|(Hk & Hm & Hc & Ha)]; [done|].
        split; [by right|done].
      * intros ([Hk|Hk] & Hm & Hc & Ha).
        -- destruct Hm as (g0 & Hg0 & Hin0). rewrite Hk, Hg in Hg0.
           by simplify_eq.
        -- by right.
Qed.

(** X24. From a registry whose members are listed under their own group
    and in which no group has an empty list, a pass returns, and it
    dispatches [route-activated] on an element that is the fallback of no
    group exactly when the element is a member of its group, the location
    matches its path, its activation is not disabled and it was not active
    before the pass: the event marks the change into the active state and
    is not sent again while the element stays active. *)
Theorem route_activated_on_transition (e : NavEvent) (w : World) (x : nat) :
  wf w ->
  (forall k g, lookup_group k (elements w) = Some g ->
               members g <> [] /\ fallback g <> Some x) ->
  exists w' t,
    activateCurrentPath new_URL location cfg e w = Returns tt w' t /\
    (route_activated x ∈ t <->
     member_of (routingGroup (cfg x)) x w /\
     counts new_URL location cfg x = true /\
     active_of (dom w x) = false).
Proof.
  intros Hwf Hall.
  destruct (activateCurrentPath_returns e w Hwf) as (w' & t & Hrun & _).
  exists w', t. split; [exact Hrun|].
  unfold activateCurrentPath in Hrun.
  assert (Hown : forall k g,
    lookup_group k (elements w) = Some g ->
    members g <> [] /\ fallback g <> Some x /\
    (x ∈ members g -> k = routingGroup (cfg x))).
  { intros k g Hg. destruct (Hall k g Hg) as [Hne Hfb].
    split; [done|]. split; [done|]. intros Hin.
    symmetry. by apply (Hwf k g x). }
  rewrite (groups_loop_activation x e (Object_keys (elements w)) w w' t
             Hown Hrun).
  split; [by intros (_ & ?)|]. intros (Hm & Hc & Ha).
  split; [|done]. destruct Hm as (g & Hg & _).
  apply Object_keys_complete, lookup_group_known. by eexists.
Qed.

(** *** What a pass can emit *)

Section EmitsOnly.

Variable Q : Event -> Prop.
Hypothesis Q_no_path : forall el, Q (console_error_no_path el).
Hypothesis Q_pre : forall el params e, Q (call_preRouterCallback el params e).
Hypothesis Q_cb : forall el params e, Q (call_routerCallback el params e).
Hypothesis Q_activated : forall el, Q (route_activated el).
Hypothesis Q_log : Q console_log_elements.

Lemma emits_bind {A B} (m : M A) (k : A -> M B) :
  emits Q m -> (forall a, emits Q (k a)) -> emits Q (bind m k).
Proof.
  intros Hm Hk w b w2 t Hrun.
  apply bind_returns in Hrun as (a & w1 & t1 & t2 & E1 & E2 & ->).
  apply Forall_app. split; [by eapply Hm|by eapply Hk].
Qed.

Lemma emits_ret {A} (a : A) : emits Q (ret a).
Proof. intros w a' w1 t. unfold ret. intros ?; by simplify_eq. Qed.

Lemma emits_when (b : bool) (m : M unit) : emits Q m -> emits Q (when b m).
Proof. destruct b; simpl; [done|]. intros _. apply emits_ret. Qed.

Lemma emits_elements_at (key : string) : emits Q (elements_at key).
Proof.
  intros w a w1 t. unfold elements_at.
  destruct (lookup_group _ _); [|done]. intros ?; by simplify_eq.
Qed.

Lemma emits_set_activeElement (key : string) (v : option nat) :
  emits Q (set_activeElement key v).
Proof.
  intros w a w1 t. unfold set_activeElement.
  destruct (lookup_group _ _); [|done]. intros ?; by simplify_eq.
Qed.

Lemma Forall_callback_trace (el : nat) (params : gmap string string)
    (e : NavEvent) :
  Forall Q (callback_trace cfg el params e).
Proof.
  unfold callback_trace.
  destruct (preRouterCallback (cfg el)), (routerCallback (cfg el));
    repeat constructor; done.
Qed.

Lemma emits_callbacks (el : nat) (params : gmap string string)
    (e : NavEvent) :
  emits Q (callbacks cfg el params e).
Proof.
  intros w a w1 t. rewrite callbacks_run. intros ?; simplify_eq.
  apply Forall_callback_trace.
Qed.

Lemma emits_toggleElementActive (el : nat) (b : bool) :
  emits Q (toggleElementActive el b).
Proof.
  intros w a w1 t. rewrite toggleElementActive_run. intros ?; simplify_eq.
  destruct b; repeat constructor; done.
Qed.

Lemma emits_maybeActivateElement (el : nat) (e : NavEvent) :
  emits Q (maybeActivate el e).
Proof.
  intros w r w1 t. rewrite maybeActivateElement_run. cbv zeta.
  destruct (falsy_template _).
  - destruct (lookup_group _ _) as [g|]; [|done].
    destruct (_ && _); intros ?; simplify_eq; repeat constructor; done.
  - destruct (matched el).
    + intros ?; by simplify_eq.
    + intros ?; by simplify_eq.
    + destruct (disableActivation _).
      { intros ?; simplify_eq. apply Forall_callback_trace. }
      destruct (lookup_group _ _) as [g|]; [|done].
      intros ?; simplify_eq. apply Forall_app. split.
      * unfold ensure_trace. destruct (Bool.eqb _ _); [done|].
        repeat constructor; done.
      * destruct (is_not _ _); [apply Forall_callback_trace|done].
Qed.

Lemma emits_members_loop (e : NavEvent) (l : list nat) :
  forall acc, emits Q (members_loop new_URL location cfg l acc e).
Proof.
  induction l as [|el l IH]; intros acc; simpl; [apply emits_ret|].
  apply emits_bind; [apply emits_maybeActivateElement|]. intros r. apply IH.
Qed.

Lemma emits_activate_group (key : string) (e : NavEvent) :
  emits Q (activate_group new_URL location cfg key e).
Proof.
  unfold activate_group.
  apply emits_bind; [apply emits_set_activeElement|]. intros _.
  apply emits_bind; [apply emits_elements_at|]. intros g.
  apply emits_bind; [apply emits_members_loop|]. intros oneActive.
  apply emits_bind; [apply emits_elements_at|]. intros g'.
  destruct (fallback g') as [fb|]; [|apply emits_ret].
  apply emits_bind; [apply emits_toggleElementActive|]. intros _.
  apply emits_when, emits_callbacks.
Qed.

Lemma emits_groups_loop (e : NavEvent) (keys : list string) :
  emits Q (groups_loop new_URL location cfg keys e).
Proof.
  induction keys as [|key keys IH]; simpl.
  - intros w a w1 t. unfold emit. intros ?; simplify_eq.
    by repeat constructor.
  - apply emits_bind; [apply emits_elements_at|]. intros g.
    destruct (Nat.eqb _ _); [apply emits_ret|].
    apply emits_bind; [apply emits_activate_group|]. intros _. apply IH.
Qed.

Lemma emits_activateCurrentPath (e : NavEvent) :
  emits Q (activateCurrentPath new_URL location cfg e).
Proof. intros w a w1 t. unfold activateCurrentPath. apply emits_groups_loop. Qed.

End EmitsOnly.

(** *** Registration *)

Lemma keys_store_new (key : string) (g : Group)
    (els : list (string * Group)) :
  lookup_group key els = None ->
  map fst (store_group key g els) = map fst els ++ [key].
Proof.
  induction els as [|[k g0] els IH]; simpl; [done|].
  destruct (String.eqb k key); [done|]. intros H. simpl. by rewrite IH.
Qed.

Lemma framed_trans (w1 w2 w3 : World) :
  framed w1 w2 -> framed w2 w3 -> framed w1 w3.
Proof.
  intros (Hg & Hr & Hk) (Hg' & Hr' & Hk'). split; [|split; [|congruence]].
  - intros key. specialize (Hg key). specialize (Hg' key).
    unfold group_frame in *.
    destruct (lookup_group key (elements w1)),
      (lookup_group key (elements w2)),
      (lookup_group key (elements w3)); try done.
    destruct Hg, Hg'. split; congruence.
  - intros el. by rewrite Hr', Hr.
Qed.

Lemma framed_same_elements (w w' : World) :
  elements w' = elements w ->
  (forall el, routingRegistered (dom w' el) = routingRegistered (dom w el)) ->
  framed w w'.
Proof.
  intros He Hd. split; [|split; [done|by rewrite He]].
  intros key. rewrite He. unfold group_frame.
  by destruct (lookup_group _ _).
Qed.

(** The installation of the router, when it is due. *)
Lemma install_step (w w3 : World) (t3 : list Event) (x : nat) :
  when (negb (routerInstalled w))
    (installRouter new_URL location cfg >> set_routerInstalled) w =
    Returns tt w3 t3 ->
  framed w w3 /\ routerInstalled w3 = true /\
  Forall (fun ev => ev <> console_error_registered_twice x) t3.
Proof.
  destruct (routerInstalled w) eqn:Hi; simpl.
  - unfold ret. intros ?; simplify_eq. split; [apply framed_refl|done].
  - intros Hrun.
    apply bind_returns in Hrun as ([] & w2 & t2 & ? & Hpass & Hset & ->).
    unfold set_routerInstalled in Hset. injection Hset as <- <-.
    unfold installRouter in Hpass.
    split; [|split; [done|]].
    + eapply framed_trans.
      * by eapply activateCurrentPath_framed.
      * by apply framed_same_elements.
    + rewrite app_nil_r.
      by eapply (emits_activateCurrentPath
                   (fun ev => ev <> console_error_registered_twice x)).
Qed.

(** The last step of [registerRoute]. *)
Lemma activation_step (el : nat) (b : bool) (w w' : World)
    (t : list Event) (x : nat) :
  (if b then maybeActivate el None >> ret tt
   else activateCurrentPath new_URL location cfg None) w = Returns tt w' t ->
  framed w w' /\ routerInstalled w' = routerInstalled w /\
  Forall (fun ev => ev <> console_error_registered_twice x) t.
Proof.
  destruct b; intros Hrun.
  - apply bind_returns in Hrun as (r & w1 & t1 & ? & Hstep & Hret & ->).
    unfold ret in Hret. injection Hret as <- <-. rewrite app_nil_r.
    split; [|split].
    + eapply (keeps_maybeActivateElement new_URL location cfg w el None);
        [apply framed_refl|exact Hstep].
    + eapply (stable_maybeActivateElement (fun _ => True)
                (fun w1 => routerInstalled w1 = routerInstalled w));
        [done|done|done|done|exact Hstep].
    + by eapply (emits_maybeActivateElement
                   (fun ev => ev <> console_error_registered_twice x)).
  - split; [|split].
    + by eapply activateCurrentPath_framed.
    + unfold activateCurrentPath in Hrun.
      eapply (stable_groups_loop (fun _ => True)
                (fun w1 => routerInstalled w1 = routerInstalled w));
        [done|done| |done|exact Hrun].
      by intros.
    + by eapply (emits_activateCurrentPath
                   (fun ev => ev <> console_error_registered_twice x)).
Qed.

Lemma registerRoute_effect (el : nat) (w w' : World) (t : list Event) :
  registerRoute new_URL location cfg el w = Returns tt w' t ->
  exists g',
    lookup_group (routingGroup (cfg el)) (elements w') = Some g' /\
    members g' =
      match lookup_group (routingGroup (cfg el)) (elements w) with
      | Some g => members g
      | None => []
      end ++ [el] /\
    fallback g' =
      match lookup_group (routingGroup (cfg el)) (elements w) ≫= fallback with
      | Some fb => Some fb
      | None => if isFallback (cfg el) then Some el else None
      end /\
    (forall k, k <> routingGroup (cfg el) ->
               group_frame (lookup_group k (elements w))
                 (lookup_group k (elements w'))) /\
    map fst (elements w') =
      match lookup_group (routingGroup (cfg el)) (elements w) with
      | Some _ => map fst (elements w)
      | None => map fst (elements w) ++ [routingGroup (cfg el)]
      end /\
    routerInstalled w' = true /\
    routingRegistered (dom w' el) = true /\
    (forall x, x <> el ->
               routingRegistered (dom w' x) = routingRegistered (dom w x)) /\
    (console_error_registered_twice el ∈ t <->
     routingRegistered (dom w el) = true).
Proof.
  intros Hrun. unfold registerRoute in Hrun. cbv zeta in Hrun.
  set (group := routingGroup (cfg el)) in *.
  (* the group is there *)
  apply bind_returns in Hrun as ([] & w1 & t1 & ? & Hens & Hrun & ->).
  assert (H1 : exists g1,
    lookup_group group (elements w1) = Some g1 /\
    members g1 = match lookup_group group (elements w) with
                 | Some g => members g | None => [] end /\
    fallback g1 = lookup_group group (elements w) ≫= fallback /\
    (forall k, k <> group ->
               lookup_group k (elements w1) = lookup_group k (elements w)) /\
    map fst (elements w1) =
      match lookup_group group (elements w) with
      | Some _ => map fst (elements w)
      | None => map fst (elements w) ++ [group]
      end /\
    dom w1 = dom w /\ t1 = []).
  { unfold ensure_group in Hens.
    destruct (lookup_group group (elements w)) as [g|] eqn:Hg.
    - simplify_eq. exists g. by rewrite Hg.
    - simplify_eq. eexists. simpl. rewrite lookup_store_eq.
      split; [done|]. split; [done|]. split; [done|].
      split; [by intros k Hk; apply lookup_store_ne|].
      split; [by apply keys_store_new|done]. }
  destruct H1 as (g1 & Hg1 & Hm1 & Hf1 & Hk1 & Hkeys1 & Hdom1 & ->).
  (* the router is installed *)
  apply bind_returns in Hrun as (installed & wa & ta & ? & Hread & Hrun & ->).
  injection Hread as <- <- <-.
  apply bind_returns in Hrun as ([] & w3 & t3 & ? & Hinst & Hrun & ->).
  destruct (install_step w1 w3 t3 el Hinst) as (Hfr3 & Hinst3 & Hno3).
  (* the mark and the warning *)
  apply bind_returns in Hrun as (registered & wb & tb & ? & Hread & Hrun & ->).
  injection Hread as <- <- <-.
  apply bind_returns in Hrun as ([] & wc & t4 & ? & Hwarn & Hrun & ->).
  assert (Hreg : routingRegistered (dom w3 el) = routingRegistered (dom w el)).
  { destruct Hfr3 as (_ & Hr & _). by rewrite Hr, Hdom1. }
  assert (Hw4 : wc = w3 /\
    t4 = if routingRegistered (dom w el)
         then [console_error_registered_twice el] else []).
  { rewrite Hreg in Hwarn. destruct (routingRegistered (dom w el));
      simpl in Hwarn; unfold emit, ret in Hwarn; by simplify_eq. }
  destruct Hw4 as [-> ->].
  apply bind_returns in Hrun as ([] & w4 & tm & ? & Hmark & Hrun & ->).
  unfold mark_registered in Hmark. injection Hmark as <- <-.
  (* the push *)
  destruct Hfr3 as (Hfg3 & Hfr3 & Hfk3).
  assert (H3 : exists g3,
    lookup_group group (elements w3) = Some g3 /\
    members g3 = members g1 /\ fallback g3 = fallback g1).
  { specialize (Hfg3 group). rewrite Hg1 in Hfg3. unfold group_frame in Hfg3.
    destruct (lookup_group group (elements w3)) as [g3|]; [|done].
    exists g3. by destruct Hfg3. }
  destruct H3 as (g3 & Hg3 & Hm3 & Hf3).
  apply bind_returns in Hrun as ([] & wp & tp & ? & Hpush & Hrun & ->).
  unfold push_member in Hpush. simpl in Hpush. rewrite Hg3 in Hpush.
  injection Hpush as <- <-.
  (* the fallback *)
  apply bind_returns in Hrun as (g5 & wq & tq & ? & Hat & Hrun & ->).
  unfold elements_at in Hat. simpl in Hat. rewrite lookup_store_eq in Hat.
  injection Hat as <- <- <-.
  apply bind_returns in Hrun as ([] & w6 & t6 & ? & Hfb & Hrun & ->).
  simpl in Hfb.
  set (pushed := {| members := members g3 ++ [el]; fallback := fallback g3;
                    activeElement := activeElement g3 |}) in *.
  set (w5 := {| elements := store_group group pushed (elements w3);
                routerInstalled := routerInstalled w3;
                dom := fun x =>
                  if Nat.eqb x el
                  then {| activeAttribute := activeAttribute (dom w3 el);
                          activeProperty := activeProperty (dom w3 el);
                          routingRegistered := true |}
                  else dom w3 x |}) in *.
  assert (H6 : exists g6,
    lookup_group group (elements w6) = Some g6 /\
    members g6 = members g3 ++ [el] /\
    fallback g6 = match fallback g3 with
                  | Some fb => Some fb
                  | None => if isFallback (cfg el) then Some el else None
                  end /\
    (forall k, k <> group ->
               lookup_group k (elements w6) = lookup_group k (elements w3)) /\
    map fst (elements w6) = map fst (elements w3) /\
    routerInstalled w6 = routerInstalled w3 /\ dom w6 = dom w5 /\ t6 = []).
  { destruct (fallback g3) as [fb|] eqn:Hfb3; simpl in Hfb.
    - unfold ret in Hfb. simplify_eq. exists pushed. simpl.
      rewrite lookup_store_eq.
      split; [done|]. split; [done|]. split; [done|].
      split; [by intros k Hk; apply lookup_store_ne|].
      split; [by eapply keys_store|done].
    - destruct (isFallback (cfg el)); simpl in Hfb.
      + unfold set_fallback in Hfb. simpl in Hfb.
        rewrite lookup_store_eq in Hfb. simplify_eq. eexists. simpl.
        rewrite lookup_store_eq. split; [done|]. split; [done|].
        split; [done|].
        split.
        { intros k Hk. by rewrite !lookup_store_ne. }
        split; [|done].
        erewrite keys_store; [by eapply keys_store|].
        apply lookup_store_eq.
      + unfold ret in Hfb. simplify_eq. exists pushed. simpl.
        rewrite lookup_store_eq.
        split; [done|]. split; [done|]. split; [done|].
        split; [by intros k Hk; apply lookup_store_ne|].
        split; [by eapply keys_store|done]. }
  destruct H6 as (g6 & Hg6 & Hm6 & Hf6 & Hk6 & Hkeys6 & Hinst6 & Hdom6 & ->).
  (* the activation *)
  apply bind_returns in Hrun as (g7 & wr & tr & ? & Hat & Hrun & ->).
  unfold elements_at in Hat. rewrite Hg6 in Hat. injection Hat as <- <- <-.
  destruct (activation_step el _ w6 w' _ el Hrun)
    as ((Hfg' & Hfr' & Hfk') & Hinst' & Hno').
  assert (H' : exists g',
    lookup_group group (elements w') = Some g' /\
    members g' = members g6 /\ fallback g' = fallback g6).
  { specialize (Hfg' group). rewrite Hg6 in Hfg'. unfold group_frame in Hfg'.
    destruct (lookup_group group (elements w')) as [g'|]; [|done].
    exists g'. destruct Hfg'. by split. }
  destruct H' as (g' & Hg' & Hm' & Hf').
  exists g'. split; [done|].
  split; [by rewrite Hm', Hm6, Hm3, Hm1|].
  split.
  { rewrite Hf', Hf6, Hf3, Hf1. done. }
  split.
  { intros k Hk. specialize (Hfg' k). specialize (Hfg3 k).
    rewrite Hk6 in Hfg' by done. rewrite Hk1 in Hfg3 by done.
    unfold group_frame in *.
    destruct (lookup_group k (elements w)), (lookup_group k (elements w3)),
      (lookup_group k (elements w')); try done.
    destruct Hfg', Hfg3. split; congruence. }
  split; [by rewrite Hfk', Hkeys6, Hfk3, Hkeys1|].
  split; [by rewrite Hinst', Hinst6|].
  split.
  { rewrite Hfr', Hdom6. unfold w5. simpl. by rewrite Nat.eqb_refl. }
  split.
  { intros x Hx. rewrite Hfr', Hdom6. unfold w5. simpl.
    destruct (Nat.eqb_spec x el); [done|]. by rewrite Hfr3, Hdom1. }
  simpl. rewrite ?app_nil_r. rewrite !elem_of_app. split.
  - intros [Hin|[Hin|Hin]].
    + rewrite Forall_forall in Hno3. by destruct (Hno3 _ Hin).
    + destruct (routingRegistered (dom w el)); [done|].
      by apply elem_of_nil in Hin.
    + rewrite Forall_forall in Hno'. by destruct (Hno' _ Hin).
  - intros ->. right. left. by apply list_elem_of_singleton.
Qed.

Lemma registerRoute_appends_of_run (el : nat) (w w' : World) (t : list Event) :
  registerRoute new_URL location cfg el w = Returns tt w' t ->
  exists g',
    lookup_group (routingGroup (cfg el)) (elements w') = Some g' /\
    members g' =
      match lookup_group (routingGroup (cfg el)) (elements w) with
      | Some g => members g
      | None => []
      end ++ [el] /\
    fallback g' =
      match lookup_group (routingGroup (cfg el)) (elements w) ≫= fallback with
      | Some fb => Some fb
      | None => if isFallback (cfg el) then Some el else None
      end /\
    (forall k, k <> routingGroup (cfg el) ->
               group_frame (lookup_group k (elements w))
                 (lookup_group k (elements w'))) /\
    map fst (elements w') =
      match lookup_group (routingGroup (cfg el)) (elements w) with
      | Some _ => map fst (elements w)
      | None => map fst (elements w) ++ [routingGroup (cfg el)]
      end.
Proof.
  intros Hrun.
  destruct (registerRoute_effect el w w' t Hrun)
    as (g' & Hg & Hm & Hf & Hk & Hkeys & _).
  by exists g'.
Qed.


Lemma registerRoute_marks_and_warns_of_run (el : nat) (w w' : World)
    (t : list Event) :
  registerRoute new_URL location cfg el w = Returns tt w' t ->
  routerInstalled w' = true /\
  routingRegistered (dom w' el) = true /\
  (forall x, x <> el ->
             routingRegistered (dom w' x) = routingRegistered (dom w x)) /\
  (console_error_registered_twice el ∈ t <->
   routingRegistered (dom w el) = true).
Proof.
  intros Hrun.
  by destruct (registerRoute_effect el w w' t Hrun)
    as (g' & _ & _ & _ & _ & _ & Hi & Hr & Hx & Ht).
Qed.


Lemma registerRoute_members (el : nat) (w w' : World) (t : list Event) :
  registerRoute new_URL location cfg el w = Returns tt w' t ->
  (forall k x, member_of k x w -> member_of k x w') /\
  member_of (routingGroup (cfg el)) el w'.
Proof.
  intros Hrun.
  destruct (registerRoute_effect el w w' t Hrun)
    as (g' & Hg & Hm & _ & Hk & _).
  split.
  - intros k x (g & Hgk & Hx).
    destruct (decide (k = routingGroup (cfg el))) as [->|Hne].
    + exists g'. split; [done|]. rewrite Hm, Hgk.
      apply elem_of_app. by left.
    + specialize (Hk k Hne). rewrite Hgk in Hk. unfold group_frame in Hk.
      destruct (lookup_group k (elements w')) as [g2|]; [|done].
      destruct Hk as [Hm2 _]. exists g2. split; [done|]. by rewrite <- Hm2.
  - exists g'. split; [done|]. rewrite Hm. apply elem_of_app. right.
    by apply list_elem_of_singleton.
Qed.

Lemma existsb_member (el : nat) (l : list nat) :
  existsb (Nat.eqb el) l = true <-> el ∈ l.
Proof.
  rewrite existsb_exists. split.
  - intros (x & Hx & Heq). apply Nat.eqb_eq in Heq. subst.
    by apply list_elem_of_In.
  - intros H. exists el. split; [by apply list_elem_of_In|].
    apply Nat.eqb_refl.
Qed.

Lemma registerRoutesFromSelector_noop (found : list nat) (w : World) :
  (forall el, el ∈ found -> member_of (routingGroup (cfg el)) el w) ->
  registerRoutesFromSelector new_URL location cfg found w = Returns tt w [].
Proof.
  induction found as [|el found IH]; intros Hall; [done|].
  destruct (Hall el) as (g & Hg & Hel); [by left|].
  simpl. unfold bind, ensure_group, elements_at. rewrite Hg. simpl.
  rewrite Hg. simpl.
  apply existsb_member in Hel. rewrite Hel. simpl.
  rewrite IH; [done|]. intros x Hx. apply Hall. by right.
Qed.

Lemma registerRoutesFromSelector_members (found : list nat) :
  forall w w' t,
    registerRoutesFromSelector new_URL location cfg found w =
      Returns tt w' t ->
    (forall k x, member_of k x w -> member_of k x w') /\
    (forall el, el ∈ found -> member_of (routingGroup (cfg el)) el w').
Proof.
  induction found as [|el found IH]; intros w w' t Hrun; simpl in Hrun.
  - unfold ret in Hrun. simplify_eq. split; [done|].
    intros el H. by apply elem_of_nil in H.
  - apply bind_returns in Hrun as ([] & w1 & t1 & r1 & Hens & Hrun & ->).
    apply bind_returns in Hrun as (g & wa & ta & r2 & Hat & Hrun & ->).
    apply bind_returns in Hrun as ([] & w2 & t2 & r3 & Hreg & Hrun & ->).
    destruct (IH _ _ _ Hrun) as [Hkeep Hall].
    assert (H01 : forall k x, member_of k x w -> member_of k x w1).
    { intros k x (g0 & Hg0 & Hx). unfold ensure_group in Hens.
      destruct (lookup_group (routingGroup (cfg el)) (elements w)) eqn:Hl.
      - simplify_eq. by exists g0.
      - simplify_eq. exists g0. split; [|done]. simpl.
        rewrite lookup_store_ne; [done|]. intros <-. congruence. }
    unfold elements_at in Hat.
    destruct (lookup_group (routingGroup (cfg el)) (elements w1)) as [g1|]
      eqn:Hg1; [|done].
    injection Hat as <- <- <-.
    assert (H12 : (forall k x, member_of k x w1 -> member_of k x w2) /\
                  member_of (routingGroup (cfg el)) el w2).
    { destruct (existsb (Nat.eqb el) (members g1)) eqn:Hex; simpl in Hreg.
      - unfold ret in Hreg. simplify_eq. split; [done|].
        exists g1. split; [done|]. by apply existsb_member.
      - by eapply registerRoute_members. }
    destruct H12 as [H12 Hel]. split.
    + intros k x Hx. by apply Hkeep, H12, H01.
    + intros x Hx. apply elem_of_cons in Hx as [->|Hx].
      * by apply Hkeep.
      * by apply Hall.
Qed.

Lemma registerRoutesFromSelector_idempotent_of_run (found : list nat)
    (w w' : World) (t : list Event) :
  registerRoutesFromSelector new_URL location cfg found w = Returns tt w' t ->
  (forall el, el ∈ found -> member_of (routingGroup (cfg el)) el w') /\
  (forall k x, member_of k x w -> member_of k x w') /\
  registerRoutesFromSelector new_URL location cfg found w' = Returns tt w' [].
Proof.
  intros Hrun.
  destruct (registerRoutesFromSelector_members found w w' t Hrun)
    as [Hkeep Hall].
  split; [done|]. split; [done|].
  by apply registerRoutesFromSelector_noop.
Qed.


(** *** Unregistration *)

Lemma store_store (key : string) (g g1 : Group)
    (els : list (string * Group)) :
  store_group key g (store_group key g1 els) = store_group key g els.
Proof.
  induction els as [|[k g0] els IH]; simpl.
  - by rewrite String.eqb_refl.
  - destruct (String.eqb k key) eqn:E; simpl; rewrite E; [done|].
    by rewrite IH.
Qed.

Lemma unregisterRoute_lookup (el : nat) (w : World) :
  exists w',
    unregisterRoute cfg el w = Returns tt w' [] /\
    (forall key g,
        lookup_group key (elements w) = Some g ->
        lookup_group key (elements w') =
        Some {| members :=
                  if String.eqb key (routingGroup (cfg el))
                  then filter (fun item => item <> el) (members g)
                  else members g;
                fallback := fallback g;
                activeElement := activeElement g |}) /\
    (forall key, lookup_group key (elements w) = None ->
                 lookup_group key (elements w') = None) /\
    map fst (elements w') = map fst (elements w) /\
    dom w' = dom w /\ routerInstalled w' = routerInstalled w.
Proof.
  unfold unregisterRoute. cbv zeta.
  destruct (lookup_group (routingGroup (cfg el)) (elements w))
    as [g0|] eqn:Hg0.
  - eexists. split; [done|]. simpl. split; [|split; [|split; [|done]]].
    + intros key g Hg.
      destruct (String.eqb_spec key (routingGroup (cfg el))) as [->|Hne].
      * rewrite lookup_store_eq. congruence.
      * rewrite lookup_store_ne by done. rewrite Hg. by destruct g.
    + intros key Hk. rewrite lookup_store_ne; [done|]. congruence.
    + by eapply keys_store.
  - exists w. split; [done|]. split; [|done].
    intros key g Hg.
    destruct (String.eqb_spec key (routingGroup (cfg el))) as [->|Hne];
      [congruence|].
    rewrite Hg. by destruct g.
Qed.


Lemma reregistration_warns_of_run (el : nat) (w w1 w2 w3 : World)
    (t1 t2 t3 : list Event) :
  registerRoute new_URL location cfg el w = Returns tt w1 t1 ->
  unregisterRoute cfg el w1 = Returns tt w2 t2 ->
  registerRoute new_URL location cfg el w2 = Returns tt w3 t3 ->
  routingRegistered (dom w2 el) = true /\
  console_error_registered_twice el ∈ t3 /\
  member_of (routingGroup (cfg el)) el w3.
Proof.
  intros H1 H2 H3.
  destruct (registerRoute_effect el w w1 t1 H1)
    as (_ & _ & _ & _ & _ & _ & _ & Hr1 & _).
  destruct (unregisterRoute_lookup el w1)
    as (w2' & H2' & _ & _ & _ & Hdom & _).
  rewrite H2 in H2'. injection H2' as <- _.
  assert (Hr2 : routingRegistered (dom w2 el) = true) by by rewrite Hdom.
  destruct (registerRoute_effect el w2 w3 t3 H3)
    as (_ & _ & _ & _ & _ & _ & _ & _ & _ & Hwarn).
  split; [done|]. split; [by apply Hwarn|].
  by eapply registerRoute_members.
Qed.



(** X16. When the groups of all the elements it is given exist,
    [unregisterRoutesFromSelector] returns, emits nothing and removes from
    the list of every group exactly the given elements that belong to that
    group, keeping the order of the others; fallbacks, recorded active
    elements and the state of the elements are as before. *)
Theorem unregisterRoutesFromSelector_removes (found : list nat) :
  forall w,
    (forall el, el ∈ found ->
                is_Some (lookup_group (routingGroup (cfg el)) (elements w))) ->
    exists w',
      unregisterRoutesFromSelector cfg found w = Returns tt w' [] /\
      (forall key g,
          lookup_group key (elements w) = Some g ->
          lookup_group key (elements w') =
          Some {| members :=
                    filter (fun x => ~ (x ∈ found /\ routingGroup (cfg x) = key))
                      (members g);
                  fallback := fallback g;
                  activeElement := activeElement g |}) /\
      dom w' = dom w.
Proof.
  induction found as [|el found IH]; intros w Hall.
  - exists w. split; [done|]. split; [|done]. intros key g Hg. rewrite Hg.
    destruct g as [m f a]. simpl. f_equal. f_equal. clear Hg.
    induction m as [|x m IHm]; [done|].
    rewrite filter_cons_True; [by rewrite <- IHm|].
    intros [H _]. by apply not_elem_of_nil in H.
  - destruct (Hall el) as [g0 Hg0]; [by left|].
    destruct (unregisterRoute_lookup el w)
      as (w1 & Hrun1 & Hlook1 & _ & _ & Hdom1 & _).
    destruct (IH w1) as (w' & Hrun' & Hlook' & Hdom').
    { intros x Hx. destruct (Hall x) as [gx Hgx]; [by right|].
      rewrite (Hlook1 _ _ Hgx). by eexists. }
    exists w'. simpl. rewrite Hg0. unfold bind. rewrite Hrun1, Hrun'.
    split; [done|]. split; [|congruence].
    intros key g Hg. rewrite (Hlook' _ _ (Hlook1 _ _ Hg)). simpl.
    f_equal. f_equal.
    destruct (String.eqb_spec key (routingGroup (cfg el))) as [->|Hne].
    + rewrite list_filter_filter. apply list_filter_iff. intros x.
      rewrite elem_of_cons. split.
      * intros [Hrest Hx] [[->|Hin] Hk]; [done|]. by apply Hrest.
      * intros Hno. split.
        -- intros [Hin Hk]. apply Hno. split; [by right|done].
        -- intros ->. apply Hno. split; [by left|done].
    + apply list_filter_iff. intros x. rewrite elem_of_cons. split.
      * intros Hrest [[->|Hin] Hk]; [done|]. by apply Hrest.
      * intros Hno [Hin Hk]. apply Hno. split; [by right|done].
Qed.

End EngineMore.

(** ** indexOf, split and join *)

Lemma append_cons (c : ascii) (s t : string) :
  String c s +:+ t = String c (s +:+ t).
Proof. reflexivity. Qed.

Lemma append_empty (t : string) : "" +:+ t = t.
Proof. reflexivity. Qed.

Lemma prefix_append (n h : string) :
  String.prefix n h = true <-> exists suf, h = n +:+ suf.
Proof.
  revert h. induction n as [|a n IH]; intros h.
  - split; [|by destruct h]. intros _. by exists h.
  - destruct h as [|b h]; simpl.
    + split; [done|]. by intros [suf ?].
    + destruct (ascii_dec a b) as [->|Hne].
      * rewrite IH.
        split; intros [suf Hs]; exists suf; rewrite ?append_cons in *;
          congruence.
      * split; [done|]. intros [suf Hs]. rewrite append_cons in Hs.
        congruence.
Qed.

Lemma indexOf_unfold (n h : string) :
  indexOf n h =
  if String.prefix n h then 0%Z
  else match h with
       | EmptyString => (-1)%Z
       | String _ rest =>
           if (indexOf n rest <? 0)%Z then (-1)%Z
           else (indexOf n rest + 1)%Z
       end.
Proof. by destruct h. Qed.

Lemma indexOf_range (n h : string) : (-1 <= indexOf n h)%Z.
Proof.
  induction h as [|c h IH]; rewrite indexOf_unfold.
  - destruct (String.prefix n ""); lia.
  - destruct (String.prefix n (String c h)); [lia|].
    destruct (Z.ltb_spec (indexOf n h) 0); lia.
Qed.

Lemma indexOf_zero (n h : string) :
  indexOf n h = 0%Z <-> exists suf, h = n +:+ suf.
Proof.
  rewrite <- prefix_append, indexOf_unfold.
  destruct (String.prefix n h); [done|].
  split; [|done]. destruct h as [|c h]; [done|].
  pose proof (indexOf_range n h).
  destruct (Z.ltb_spec (indexOf n h) 0); lia.
Qed.

Lemma indexOf_none (n h : string) :
  indexOf n h = (-1)%Z <-> forall pre suf, h <> pre +:+ n +:+ suf.
Proof.
  induction h as [|c h IH]; rewrite indexOf_unfold.
  - destruct (String.prefix n "") eqn:Hp.
    + split; [done|]. intros Hno. apply prefix_append in Hp as [suf Hs].
      by destruct (Hno "" suf).
    + split; [|done]. intros _ pre suf Hs.
      destruct pre; [|done]. rewrite append_empty in Hs.
      assert (String.prefix n "" = true); [|congruence].
      apply prefix_append. by exists suf.
  - destruct (String.prefix n (String c h)) eqn:Hp.
    + split; [done|]. intros Hno. apply prefix_append in Hp as [suf Hs].
      by destruct (Hno "" suf).
    + pose proof (indexOf_range n h).
      assert (Hstep : (forall pre suf, String c h <> pre +:+ n +:+ suf) <->
                      (forall pre suf, h <> pre +:+ n +:+ suf)).
      { split.
        - intros Hno pre suf ->. by apply (Hno (String c pre) suf).
        - intros Hno [|c' pre] suf Hs.
          + assert (String.prefix n (String c h) = true); [|congruence].
            apply prefix_append. by exists suf.
          + rewrite append_cons in Hs. injection Hs as _ Hs.
            by apply (Hno pre suf). }
      rewrite Hstep, <- IH.
      destruct (Z.ltb_spec (indexOf n h) 0); split; lia.
Qed.

Lemma indexOf_char (sep c : ascii) (s : string) :
  indexOf (String sep "") (String c s) =
  if Ascii.eqb c sep then 0%Z
  else if (indexOf (String sep "") s <? 0)%Z then (-1)%Z
       else (indexOf (String sep "") s + 1)%Z.
Proof.
  rewrite indexOf_unfold. simpl.
  destruct (ascii_dec sep c) as [->|Hne].
  - rewrite Ascii.eqb_refl. by destruct s.
  - destruct (Ascii.eqb_spec c sep); [congruence|done].
Qed.

Lemma split_not_nil (sep : ascii) (s : string) : split sep s <> [].
Proof.
  induction s as [|c s IH]; simpl; [done|].
  destruct (Ascii.eqb c sep); [done|]. by destruct (split sep s).
Qed.

(** [split] against [indexOf] and [join]: without the separator the string
    is the only piece; with it there are two pieces or more; no piece holds
    the separator; and [join] gives the string back. *)
Lemma split_pieces (sep : ascii) (s : string) :
  (indexOf (String sep "") s = (-1)%Z -> split sep s = [s]) /\
  (indexOf (String sep "") s <> (-1)%Z -> 2 <= length (split sep s)) /\
  Forall (fun p => indexOf (String sep "") p = (-1)%Z) (split sep s) /\
  join (String sep "") (split sep s) = s.
Proof.
  induction s as [|c s (IH1 & IH2 & IH3 & IH4)].
  - split; [done|]. split; [done|]. split; [|done].
    simpl. by constructor.
  - pose proof (indexOf_range (String sep "") s) as Hr.
    pose proof (split_not_nil sep s) as Hnn.
    rewrite indexOf_char. simpl.
    destruct (Ascii.eqb_spec c sep) as [->|Hne].
    + split; [done|]. split.
      { intros _. simpl. destruct (split sep s); [done|simpl; lia]. }
      split; [by constructor|].
      destruct (split sep s) as [|h t] eqn:Hs; [done|].
      simpl in *. by rewrite IH4.
    + destruct (split sep s) as [|h t] eqn:Hs; [done|].
      assert (Hhead : indexOf (String sep "") (String c h) = (-1)%Z).
      { rewrite indexOf_char. destruct (Ascii.eqb_spec c sep); [done|].
        apply Forall_cons in IH3 as [-> _]. done. }
      split.
      { destruct (Z.ltb_spec (indexOf (String sep "") s) 0); [|lia].
        intros _. assert (Hi : indexOf (String sep "") s = (-1)%Z) by lia.
        specialize (IH1 Hi). by simplify_eq. }
      split.
      { destruct (Z.ltb_spec (indexOf (String sep "") s) 0); [done|].
        intros _. assert (Hi : indexOf (String sep "") s <> (-1)%Z) by lia.
        specialize (IH2 Hi). simpl in *. lia. }
      split.
      { apply Forall_cons in IH3 as [_ Ht]. by constructor. }
      simpl in IH4. destruct t; simpl; by rewrite <- IH4.
Qed.

(** ** The configuration helpers *)

Section HelperFacts.

Import Helpers.

Variable c : Config.

Lemma js_or_false (a : JsValue) :
  js_truthy (js_or a (JBool false)) = false ->
  js_or a (JBool false) = JBool false.
Proof. unfold js_or. destruct (js_truthy a) eqn:E; simpl; congruence. Qed.

Lemma js_or_truthy (a b : JsValue) :
  js_truthy a = true -> js_or a b = a.
Proof. unfold js_or. by intros ->. Qed.

(** X17. A helper never returns a falsy value other than [false]: the path
    of an element is truthy or [false] (never the empty string, [null] or
    [undefined]), and so are its three flags; its routing group is always
    truthy. *)
Theorem helpers_falsy_is_false (el : Element) :
  (js_truthy (getPagePathFromEl c el) = false ->
   getPagePathFromEl c el = JBool false) /\
  js_truthy (getRoutingGroupFromEl c el) = true /\
  (js_truthy (getFallbackFromEl c el) = false ->
   getFallbackFromEl c el = JBool false) /\
  (js_truthy (getDisableActivationFromEl c el) = false ->
   getDisableActivationFromEl c el = JBool false) /\
  (js_truthy (getActiveFromEl c el) = false ->
   getActiveFromEl c el = JBool false).
Proof.
  split; [apply js_or_false|]. split.
  { unfold getRoutingGroupFromEl.
    unfold js_or at 1. by destruct (js_truthy (js_or _ _)) eqn:E. }
  split; [apply js_or_false|]. split; apply js_or_false.
Qed.

Lemma toArray_pieces (a : string) :
  a <> "" ->
  toArray (JString a) =
    (if Nat.eqb (length (split " " a)) 1 then JString a
     else JArray (split " " a)) /\
  js_truthy (toArray (JString a)) = true.
Proof.
  intros Ha. apply truthy_true in Ha. unfold toArray. simpl. rewrite Ha. simpl.
  destruct (split_pieces " " a) as (H1 & H2 & _).
  pose proof (indexOf_range " " a).
  destruct (Z.leb_spec 0 (indexOf " " a)); simpl.
  - split; [|done]. destruct (Nat.eqb_spec (length (split " " a)) 1); [|done].
    assert (2 <= length (split " " a)); [apply H2|]; lia.
  - split; [|done]. rewrite H1 by lia. done.
Qed.

Lemma getPagePathFromEl_attribute (el : Element) (a : string) :
  attributes el !! name_of c "pagePathAttribute" = Some a ->
  a <> "" ->
  getPagePathFromEl c el = toArray (JString a).
Proof.
  intros Hattr Ha. destruct (toArray_pieces a Ha) as [_ Htruthy].
  unfold getPagePathFromEl, getAttribute. rewrite Hattr.
  rewrite (js_or_truthy (toArray _)) by done.
  rewrite (js_or_truthy (toArray _)) by done.
  by rewrite (js_or_truthy (toArray _)).
Qed.

(** X18. The attribute of the path, when it is not empty, decides alone,
    whatever the properties of the element and of its constructor. It is
    cut at the spaces: one piece is returned as a string, two or more as an
    array; no piece holds a space, and the pieces joined by a space give
    the attribute back. *)
Theorem page_path_attribute_pieces (el : Element) (a : string) :
  attributes el !! name_of c "pagePathAttribute" = Some a ->
  a <> "" ->
  exists pieces,
    getPagePathFromEl c el =
      (if Nat.eqb (length pieces) 1 then JString a else JArray pieces) /\
    pieces <> [] /\
    Forall (fun p => forall pre suf, p <> pre +:+ " " +:+ suf) pieces /\
    join " " pieces = a.
Proof.
  intros Hattr Ha. exists (split " " a).
  destruct (toArray_pieces a Ha) as [Hto Htruthy].
  destruct (split_pieces " " a) as (_ & _ & Hall & Hjoin).
  split; [|split; [apply split_not_nil|split; [|done]]].
  - by rewrite (getPagePathFromEl_attribute el a).
  - eapply Forall_impl; [exact Hall|]. intros p Hp. by apply indexOf_none.
Qed.

(** X19. Presence against value. A flag is [true] as soon as its attribute
    is there, whatever the value of the attribute (the empty string and
    ["false"] included) and whatever the properties. The attributes of the
    path and of the routing group count only when they are not empty: an
    empty one is as good as none. *)
Theorem attribute_presence_and_value (el : Element) :
  (is_Some (attributes el !! name_of c "fallbackAttribute") ->
   getFallbackFromEl c el = JBool true) /\
  (is_Some (attributes el !! name_of c "disableActivationAttribute") ->
   getDisableActivationFromEl c el = JBool true) /\
  (is_Some (attributes el !! name_of c "activeAttribute") ->
   getActiveFromEl c el = JBool true) /\
  (forall a, attributes el !! name_of c "routingGroupAttribute" = Some a ->
             a <> "" -> getRoutingGroupFromEl c el = JString a) /\
  (attributes el !! name_of c "routingGroupAttribute" = Some "" ->
   getRoutingGroupFromEl c el =
   getRoutingGroupFromEl c
     {| attributes := delete (name_of c "routingGroupAttribute") (attributes el);
        properties := properties el;
        constructor_properties := constructor_properties el |}) /\
  (attributes el !! name_of c "pagePathAttribute" = Some "" ->
   getPagePathFromEl c el =
   getPagePathFromEl c
     {| attributes := delete (name_of c "pagePathAttribute") (attributes el);
        properties := properties el;
        constructor_properties := constructor_properties el |}).
Proof.
  split; [|split; [|split; [|split; [|split]]]].
  - intros [a Ha]. unfold getFallbackFromEl, hasAttribute. by rewrite Ha.
  - intros [a Ha]. unfold getDisableActivationFromEl, hasAttribute.
    by rewrite Ha.
  - intros [a Ha]. unfold getActiveFromEl, hasAttribute. by rewrite Ha.
  - intros a Ha Hne. apply truthy_true in Hne.
    unfold getRoutingGroupFromEl, getAttribute. rewrite Ha.
    rewrite (js_or_truthy (JString a)) by done.
    by rewrite (js_or_truthy (JString a)).
  - intros Ha. unfold getRoutingGroupFromEl, getAttribute, property. simpl.
    by rewrite Ha, lookup_delete_eq.
  - intros Ha.
    unfold getPagePathFromEl, getAttribute, property, constructor_property.
    simpl. by rewrite Ha, lookup_delete_eq.
Qed.

(** X20. [setConfig] touches one key: a helper is unchanged by a write to
    a key that it does not read, and a key once there is never removed. *)
Theorem setConfig_frame (key value : string) (el : Element) :
  (key <> "pagePathAttribute" -> key <> "pagePathProperty" ->
   getPagePathFromEl (setConfig key value c) el = getPagePathFromEl c el) /\
  (key <> "routingGroupAttribute" -> key <> "routingGroupProperty" ->
   getRoutingGroupFromEl (setConfig key value c) el =
   getRoutingGroupFromEl c el) /\
  (key <> "fallbackAttribute" -> key <> "fallbackProperty" ->
   getFallbackFromEl (setConfig key value c) el = getFallbackFromEl c el) /\
  (key <> "disableActivationAttribute" ->
   key <> "disableActivationProperty" ->
   getDisableActivationFromEl (setConfig key value c) el =
   getDisableActivationFromEl c el) /\
  (key <> "activeAttribute" -> key <> "activeProperty" ->
   getActiveFromEl (setConfig key value c) el = getActiveFromEl c el) /\
  (forall k, is_Some (c !! k) -> is_Some (setConfig key value c !! k)).
Proof.
  assert (Hname : forall k, key <> k ->
                            name_of (setConfig key value c) k = name_of c k).
  { intros k Hk. unfold name_of, setConfig. by rewrite lookup_insert_ne. }
  split; [|split; [|split; [|split; [|split]]]].
  - intros H1 H2. unfold getPagePathFromEl. by rewrite !Hname.
  - intros H1 H2. unfold getRoutingGroupFromEl. by rewrite !Hname.
  - intros H1 H2. unfold getFallbackFromEl. by rewrite !Hname.
  - intros H1 H2. unfold getDisableActivationFromEl. by rewrite !Hname.
  - intros H1 H2. unfold getActiveFromEl. by rewrite !Hname.
  - intros k Hk. unfold setConfig. rewrite lookup_insert_is_Some. 
    destruct (decide (key = k)); [by left|by right].
Qed.

Section WithMatcher.

Variable new_URL : string -> URL.
Variable location : Location.

(** X21. The helper and the matcher together: an element whose attribute
    of the path is not empty matches as the list of the pieces of the
    attribute does, that is, when one of the pieces matches, and with the
    parameters of the first piece that does. *)
Theorem path_attribute_alternatives (el : Element) (a : string) chk :
  attributes el !! name_of c "pagePathAttribute" = Some a ->
  a <> "" ->
  exists tpl,
    as_template (getPagePathFromEl c el) = Some tpl /\
    locationMatch new_URL location tpl chk =
      firstMatch new_URL location (split " " a) chk /\
    (truthy_result (locationMatch new_URL location tpl chk) = true <->
     exists piece,
       piece ∈ split " " a /\
       is_Some (locationMatchExecutor new_URL location piece chk)).
Proof.
  intros Hattr Ha.
  destruct (toArray_pieces a Ha) as [Hto Htruthy].
  destruct (split_pieces " " a) as (H1 & H2 & _).
  pose proof (getPagePathFromEl_attribute el a Hattr Ha) as Hget.
  assert (Hex : forall ts,
    truthy_result (firstMatch new_URL location ts chk) = true <->
    exists piece, piece ∈ ts /\
                  is_Some (locationMatchExecutor new_URL location piece chk)).
  { induction ts as [|t ts IH]; simpl.
    - split; [done|]. intros (p & Hp & _). by apply not_elem_of_nil in Hp.
    - destruct (locationMatchExecutor new_URL location t chk) as [q|] eqn:Hq.
      + split; [|done]. intros _. exists t. split; [by left|].
        rewrite Hq. by eexists.
      + rewrite IH. split.
        * intros (p & Hp & Hs). exists p. split; [by right|done].
        * intros (p & Hp & Hs). apply elem_of_cons in Hp as [->|Hp].
          -- rewrite Hq in Hs. by destruct Hs.
          -- by exists p. }
  rewrite Hget, Hto.
  destruct (Nat.eqb_spec (length (split " " a)) 1) as [Hone|Hmore].
  - exists (One a). split; [done|].
    assert (Hs : split " " a = [a]).
    { apply H1. pose proof (indexOf_range " " a).
      destruct (decide (indexOf " " a = (-1)%Z)); [done|].
      assert (2 <= length (split " " a)); [by apply H2|lia]. }
    assert (Hlm : locationMatch new_URL location (One a) chk =
                  firstMatch new_URL location (split " " a) chk).
    { rewrite Hs. unfold locationMatch. simpl.
      apply truthy_true in Ha. rewrite Ha. simpl.
      by destruct (locationMatchExecutor new_URL location a chk). }
    split; [done|]. rewrite Hlm. apply Hex.
  - exists (Many (split " " a)). split; [done|]. split; [done|].
    apply Hex.
Qed.

End WithMatcher.

End HelperFacts.

(** ** The click listener *)

Section RouterFacts.

Import Router.

Variable pushState_accepts : string -> bool.

Local Abbreviation click := (on_click pushState_accepts).

Lemma is_anchor_spec (n : Node) : is_anchor n = true <-> tagName n = Some "A".
Proof.
  unfold is_anchor. destruct (tagName n) as [t|]; [|done].
  destruct (String.eqb_spec t "A"); split; congruence.
Qed.

Lemma rel_external_spec (n : Node) :
  rel_external n = false <-> rel n <> Some "external".
Proof.
  unfold rel_external. destruct (rel n) as [r|]; [|done].
  destruct (String.eqb_spec r "external"); split; congruence.
Qed.

Lemma anchor_of_spec (e : MouseEvent) (anchor : Node) :
  anchor_of e = Some anchor <->
  exists inner outer,
    composedPath e = inner ++ anchor :: outer /\
    Forall (fun n => tagName n <> Some "A") inner /\
    tagName anchor = Some "A".
Proof.
  unfold anchor_of. generalize (composedPath e) as path.
  induction path as [|n path IH]; simpl.
  - split; [done|]. intros (inner & outer & E & _). by destruct inner.
  - destruct (is_anchor n) eqn:Hn; simpl.
    + apply is_anchor_spec in Hn. split.
      * intros [= ->]. exists [], path. by repeat split.
      * intros (inner & outer & E & Hinner & Ha).
        destruct inner as [|n' inner]; simpl in E.
        -- congruence.
        -- injection E as -> _. by apply Forall_cons in Hinner as [? _].
    + assert (Hn' : tagName n <> Some "A").
      { intros Ht. apply is_anchor_spec in Ht. congruence. }
      rewrite IH. split.
      * intros (inner & outer & -> & Hinner & Ha).
        exists (n :: inner), outer. split; [done|]. split; [|done].
        by constructor.
      * intros (inner & outer & E & Hinner & Ha).
        destruct inner as [|n' inner]; simpl in E.
        -- congruence.
        -- injection E as -> ->. apply Forall_cons in Hinner as [_ ?].
           by exists inner, outer.
Qed.

Lemma click_prevents (e : MouseEvent) (location : WindowLocation) :
  preventDefault ∈ (click e location).1 <->
  (defaultPrevented e || negb (button e =? 0)%Z || metaKey e || ctrlKey e
   || shiftKey e = false) /\
  exists anchor,
    anchor_of e = Some anchor /\
    truthy (target anchor) || download anchor || rel_external anchor = false /\
    truthy (href anchor) = true /\
    indexOf "mailto:" (href anchor) = (-1)%Z /\
    indexOf (origin_of location) (href anchor) = 0%Z.
Proof.
  unfold on_click.
  destruct (_ || shiftKey e);
    [simpl; split; [by intros ?%not_elem_of_nil|by intros [? _]]|].
  destruct (anchor_of e) as [anchor|];
    [|simpl; split; [by intros ?%not_elem_of_nil|by intros [_ (? & ? & _)]]].
  cbv zeta.
  destruct (_ || rel_external anchor) eqn:Hflags.
  { simpl. split; [by intros ?%not_elem_of_nil|].
    intros [_ (a & [= <-] & ? & _)]. congruence. }
  destruct (truthy (href anchor)) eqn:Hhref.
  2:{ simpl. split; [by intros ?%not_elem_of_nil|].
      intros [_ (a & [= <-] & _ & ? & _)]. congruence. }
  simpl negb at 1. rewrite orb_false_l.
  destruct (Z.eqb_spec (indexOf "mailto:" (href anchor)) (-1)) as [Hm|Hm].
  2:{ simpl. split; [by intros ?%not_elem_of_nil|].
      intros [_ (a & [= <-] & _ & _ & ? & _)]. congruence. }
  simpl negb at 1.
  destruct (Z.eqb_spec (indexOf (origin_of location) (href anchor)) 0)
    as [Ho|Ho].
  2:{ simpl. split; [by intros ?%not_elem_of_nil|].
      intros [_ (a & [= <-] & _ & _ & _ & ?)]. congruence. }
  simpl negb at 1.
  split.
  - intros _. split; [done|]. by exists anchor.
  - intros _.
    destruct (negb _); [destruct (pushState_accepts _)|]; simpl; by left.
Qed.

(** X22. When the listener of clicks takes a click over: exactly when the
    click is not yet handled, comes from the main button with no modifier
    key held, and the innermost anchor of its path has no target, no
    [download] attribute, no [rel] that reads [external], and an [href]
    that is not empty, holds ["mailto:"] nowhere and starts with the
    origin of the page. Only the innermost anchor is looked at, and the
    origin is compared as a prefix of the text of the URL. *)
Theorem click_interception (e : MouseEvent) (location : WindowLocation) :
  preventDefault ∈ (click e location).1 <->
  (defaultPrevented e = false /\ button e = 0%Z /\ metaKey e = false /\
   ctrlKey e = false /\ shiftKey e = false) /\
  exists inner anchor outer,
    composedPath e = inner ++ anchor :: outer /\
    Forall (fun n => tagName n <> Some "A") inner /\
    tagName anchor = Some "A" /\
    target anchor = "" /\
    download anchor = false /\
    rel anchor <> Some "external" /\
    href anchor <> "" /\
    (forall pre suf, href anchor <> pre +:+ "mailto:" +:+ suf) /\
    (exists suf, href anchor = origin_of location +:+ suf).
Proof.
  rewrite click_prevents.
  assert (Hkeys :
    defaultPrevented e || negb (button e =? 0)%Z || metaKey e || ctrlKey e
    || shiftKey e = false <->
    defaultPrevented e = false /\ button e = 0%Z /\ metaKey e = false /\
    ctrlKey e = false /\ shiftKey e = false).
  { destruct (Z.eqb_spec (button e) 0);
      destruct (defaultPrevented e), (metaKey e), (ctrlKey e), (shiftKey e);
      simpl; split; try done; intros (? & ? & ? & ? & ?); done. }
  rewrite Hkeys.
  assert (Hanchor : forall anchor,
    truthy (target anchor) || download anchor || rel_external anchor = false
    <-> target anchor = "" /\ download anchor = false /\
        rel anchor <> Some "external").
  { intros anchor. rewrite <- rel_external_spec.
    destruct (target anchor), (download anchor), (rel_external anchor);
      simpl; split; try done; intros (? & ? & ?); done. }
  split.
  - intros [Hk (anchor & Ha & Hflags & Hhref & Hmail & Horigin)].
    split; [done|].
    apply anchor_of_spec in Ha as (inner & outer & Hpath & Hinner & Htag).
    apply Hanchor in Hflags as (? & ? & ?).
    exists inner, anchor, outer.
    split; [done|]. split; [done|]. split; [done|]. split; [done|].
    split; [done|]. split; [done|].
    split; [by apply truthy_true|].
    split; [by apply indexOf_none|by apply indexOf_zero].
  - intros [Hk (inner & anchor & outer & Hpath & Hinner & Htag & Ht & Hd & Hr
                & Hhref & Hmail & Horigin)].
    split; [done|]. exists anchor.
    split; [apply anchor_of_spec; by exists inner, outer|].
    split; [by apply Hanchor|].
    split; [by apply truthy_true|].
    split; [by apply indexOf_none|by apply indexOf_zero].
Qed.

(** X23. What a click leads to. Nothing comes before [preventDefault].
    [pushState] is called with the [href] of the innermost anchor, and
    only when that differs from the address of the page: a click on a link
    to the page itself is swallowed. [locationUpdatedCallback] runs twice
    when [pushState] accepted the URL, first for the [popstate] event that
    the listener emits and then for the click, and not at all otherwise.
    The listener fails only when [pushState] refuses the URL, and then
    after the default action was prevented. *)
Theorem click_calls (e : MouseEvent) (location : WindowLocation)
    (calls : list Call) (returned : bool) :
  click e location = (calls, returned) ->
  (calls = [] \/ exists rest, calls = preventDefault :: rest) /\
  (forall url, pushState url ∈ calls ->
     url <> location_href location /\
     href <$> anchor_of e = Some url /\
     callback_events calls =
       (if pushState_accepts url then [popstate_event; click_event] else []) /\
     returned = pushState_accepts url) /\
  ((forall url, pushState url ∉ calls) ->
   callback_events calls = [] /\ returned = true /\
   (preventDefault ∈ calls ->
    calls = [preventDefault] /\
    href <$> anchor_of e = Some (location_href location))).
Proof.
  unfold on_click.
  assert (Hnil : forall (cs : list Call) (r : bool),
    ([], true) = (cs, r) ->
    (cs = [] \/ exists rest, cs = preventDefault :: rest) /\
    (forall url, pushState url ∈ cs ->
       url <> location_href location /\
       href <$> anchor_of e = Some url /\
       callback_events cs =
         (if pushState_accepts url then [popstate_event; click_event]
          else []) /\
       r = pushState_accepts url) /\
    ((forall url, pushState url ∉ cs) ->
     callback_events cs = [] /\ r = true /\
     (preventDefault ∈ cs ->
      cs = [preventDefault] /\
      href <$> anchor_of e = Some (location_href location)))).
  { intros cs r [= <- <-]. split; [by left|]. split.
    - by intros url ?%not_elem_of_nil.
    - intros _. split; [done|]. split; [done|]. by intros ?%not_elem_of_nil. }
  destruct (_ || shiftKey e); [apply Hnil|].
  destruct (anchor_of e) as [anchor|]; [|apply Hnil].
  cbv zeta.
  destruct (_ || rel_external anchor); [apply Hnil|].
  destruct (_ || negb (_ =? -1)%Z); [apply Hnil|].
  destruct (negb (_ =? 0)%Z); [apply Hnil|].
  clear Hnil.
  destruct (String.eqb_spec (href anchor) (location_href location))
    as [Hsame|Hother]; simpl negb; cbv iota.
  - intros [= <- <-]. split; [right; by eexists|]. split.
    + intros url Hin. apply list_elem_of_singleton in Hin. done.
    + intros _. split; [done|]. split; [done|]. intros _. simpl.
      by rewrite Hsame.
  - destruct (pushState_accepts (href anchor)) eqn:Hacc.
    + intros [= <- <-]. split; [right; by eexists|]. split.
      * intros url Hin. simpl in Hin.
        rewrite !elem_of_cons in Hin.
        destruct Hin as [|[[= ->]|[|[|[|Hin]]]]]; try done.
        -- rewrite Hacc. by repeat split.
        -- by apply not_elem_of_nil in Hin.
      * intros Hno. destruct (Hno (href anchor)). simpl.
        right. by left.
    + intros [= <- <-]. split; [right; by eexists|]. split.
      * intros url Hin. rewrite !elem_of_cons in Hin.
        destruct Hin as [|[[= ->]|Hin]]; try done.
        -- rewrite Hacc. by repeat split.
        -- by apply not_elem_of_nil in Hin.
      * intros Hno. destruct (Hno (href anchor)). right. by left.
Qed.

End RouterFacts.

(** ** The further properties on the page of the examples *)

Lemma segment_count_mismatch_fails_witness :
  Forall (fun t => length (templatePath simple_URL t) <>
                   length (browserPath at_deep)) ["/a"; "/:x/y"] /\
  locationMatch simple_URL at_deep (Many ["/a"; "/:x/y"]) None = MFalse /\
  forall t, t ∈ ["/a"; "/:x/y"] ->
    locationMatchExecutor simple_URL at_deep t None = None /\
    truthy_result (locationMatch simple_URL at_deep (One t) None) = false.
Proof.
  assert (H : Forall (fun t => length (templatePath simple_URL t) <>
                               length (browserPath at_deep))
                ["/a"; "/:x/y"]).
  { repeat constructor; vm_compute; discriminate. }
  split; [exact H|].
  exact (segment_count_mismatch_fails simple_URL at_deep _ None H).
Defined.


Lemma literal_template_matches_equal_path_witness :
  Forall (fun s => startsWith_colon s = false /\ s <> "*")
    (templatePath simple_URL "/main") /\
  (forall p, locationMatchExecutor simple_URL at_main "/main" None = Some p ->
             p = ∅ /\ templatePath simple_URL "/main" = browserPath at_main) /\
  (templatePath simple_URL "/main" = browserPath at_main ->
   hashMatching simple_URL at_main "/main" = true ->
   locationMatchExecutor simple_URL at_main "/main" None = Some ∅).
Proof.
  assert (H : Forall (fun s => startsWith_colon s = false /\ s <> "*")
                (templatePath simple_URL "/main")).
  { change (templatePath simple_URL "/main") with [""; "main"].
    repeat constructor; discriminate. }
  split; [exact H|].
  exact (literal_template_matches_equal_path simple_URL at_main _ H).
Defined.

Lemma pass_leaves_registry_witness :
  members_in_own_group page pages_world /\
  exists w1 t,
    activateCurrentPath simple_URL at_main page (Some 1) pages_world =
      Returns tt w1 t /\
    (forall key,
        group_frame (lookup_group key (elements pages_world))
          (lookup_group key (elements w1))) /\
    map fst (elements w1) = map fst (elements pages_world) /\
    (forall el, routingRegistered (dom w1 el) =
                routingRegistered (dom pages_world el)) /\
    routerInstalled w1 = routerInstalled pages_world.
Proof.
  assert (Hwf : members_in_own_group page pages_world).
  { apply members_in_own_group_b_sound. vm_compute. reflexivity. }
  split; [exact Hwf|].
  exact (pass_leaves_registry simple_URL at_main page (Some 1) pages_world
           Hwf).
Defined.

Lemma pass_touches_registered_only_witness :
  members_in_own_group page pages_world /\
  (forall key g,
      lookup_group key (elements pages_world) = Some g ->
      (7 ∉ members g) /\ fallback g <> Some 7) /\
  exists w1 t,
    activateCurrentPath simple_URL at_main page (Some 1) pages_world =
      Returns tt w1 t /\
    dom w1 7 = dom pages_world 7.
Proof.
  assert (Hwf : members_in_own_group page pages_world).
  { apply members_in_own_group_b_sound. vm_compute. reflexivity. }
  assert (Hout : forall key g,
             lookup_group key (elements pages_world) = Some g ->
             (7 ∉ members g) /\ fallback g <> Some 7).
  { intros key g.
    change (lookup_group key (elements pages_world))
      with (if String.eqb "default" key then Some pages else None).
    destruct (String.eqb "default" key); [|discriminate].
    intros [= <-]. split; [|discriminate].
    apply (bool_decide_unpack _). vm_compute. exact I. }
  split; [exact Hwf|]. split; [exact Hout|].
  exact (pass_touches_registered_only simple_URL at_main page (Some 1)
           pages_world 7 Hwf Hout).
Defined.

Lemma members_active_iff_match_witness :
  lookup_group "default" (elements pages_world) = Some pages /\
  (forall x, x ∈ members pages -> routingGroup (page x) = "default") /\
  0 ∈ members pages /\
  fallback pages <> Some 0 /\
  disableActivation (page 0) && matches simple_URL at_main page 0 = false /\
  falsy_template (pagePath (page 0)) && negb (disableActivation (page 0)) =
    false /\
  exists w2 t,
    activate_group simple_URL at_main page "default" (Some 1) pages_world =
      Returns tt w2 t /\
    active_of (dom w2 0) = matches simple_URL at_main page 0.
Proof.
  assert (Hwf : members_in_own_group page pages_world).
  { apply members_in_own_group_b_sound. vm_compute. reflexivity. }
  assert (Hown : forall x, x ∈ members pages ->
                           routingGroup (page x) = "default").
  { intros x. by apply (Hwf "default" pages). }
  assert (Hin : 0 ∈ members pages).
  { apply (bool_decide_unpack _). vm_compute. exact I. }
  assert (Hfb : fallback pages <> Some 0) by discriminate.
  split; [reflexivity|]. split; [exact Hown|]. split; [exact Hin|].
  split; [exact Hfb|]. split; [reflexivity|]. split; [reflexivity|].
  exact (members_active_iff_match simple_URL at_main page "default" (Some 1)
           pages_world pages 0 eq_refl Hown Hin Hfb eq_refl eq_refl).
Defined.

Lemma pass_activates_matching_members_witness :
  members_in_own_group page pages_world /\
  (forall k g0, lookup_group k (elements pages_world) = Some g0 ->
                members g0 <> [] /\ fallback g0 <> Some 1) /\
  lookup_group "default" (elements pages_world) = Some pages /\
  1 ∈ members pages /\
  disableActivation (page 1) && matches simple_URL at_page_one page 1 =
    false /\
  falsy_template (pagePath (page 1)) && negb (disableActivation (page 1)) =
    false /\
  exists w' t,
    activateCurrentPath simple_URL at_page_one page (Some 1) pages_world =
      Returns tt w' t /\
    active_of (dom w' 1) = matches simple_URL at_page_one page 1.
Proof.
  assert (Hwf : members_in_own_group page pages_world).
  { apply members_in_own_group_b_sound. vm_compute. reflexivity. }
  assert (Hall : forall k g0,
             lookup_group k (elements pages_world) = Some g0 ->
             members g0 <> [] /\ fallback g0 <> Some 1).
  { intros k g0.
    change (lookup_group k (elements pages_world))
      with (if String.eqb "default" k then Some pages else None).
    destruct (String.eqb "default" k); [|discriminate].
    intros [= <-]. split; discriminate. }
  assert (Hin : 1 ∈ members pages).
  { apply (bool_decide_unpack _). vm_compute. exact I. }
  split; [exact Hwf|]. split; [exact Hall|]. split; [reflexivity|].
  split; [exact Hin|]. split; [reflexivity|]. split; [reflexivity|].
  exact (pass_activates_matching_members simple_URL at_page_one page (Some 1)
           pages_world "default" pages 1 Hwf Hall eq_refl Hin eq_refl
           eq_refl).
Defined.






Lemma unregisterRoutesFromSelector_removes_witness :
  (forall el, el ∈ [1; 3] ->
     is_Some (lookup_group (routingGroup (page el)) (elements pages_world))) /\
  exists w',
    unregisterRoutesFromSelector page [1; 3] pages_world = Returns tt w' [] /\
    (forall key g,
        lookup_group key (elements pages_world) = Some g ->
        lookup_group key (elements w') =
        Some {| members :=
                  filter (fun x => ~ (x ∈ [1; 3] /\ routingGroup (page x) = key))
                    (members g);
                fallback := fallback g;
                activeElement := activeElement g |}) /\
    dom w' = dom pages_world.
Proof.
  assert (H : forall el, el ∈ [1; 3] ->
     is_Some (lookup_group (routingGroup (page el)) (elements pages_world))).
  { intros el Hin.
    apply elem_of_cons in Hin as [->|Hin]; [by eexists|].
    apply elem_of_cons in Hin as [->|Hin]; [by eexists|].
    by apply not_elem_of_nil in Hin. }
  split; [exact H|].
  exact (unregisterRoutesFromSelector_removes page [1; 3] pages_world H).
Defined.

Lemma page_path_attribute_pieces_witness :
  Helpers.attributes about_page
    !! Helpers.name_of Helpers.config "pagePathAttribute" =
    Some "/about /info/:topic" /\
  "/about /info/:topic" <> "" /\
  exists pieces,
    Helpers.getPagePathFromEl Helpers.config about_page =
      (if Nat.eqb (length pieces) 1 then Helpers.JString "/about /info/:topic"
       else Helpers.JArray pieces) /\
    pieces <> [] /\
    Forall (fun p => forall pre suf, p <> pre +:+ " " +:+ suf) pieces /\
    join " " pieces = "/about /info/:topic".
Proof.
  assert (H : Helpers.attributes about_page
                !! Helpers.name_of Helpers.config "pagePathAttribute" =
              Some "/about /info/:topic").
  { vm_compute. reflexivity. }
  assert (Hne : "/about /info/:topic" <> "") by discriminate.
  split; [exact H|]. split; [exact Hne|].
  exact (page_path_attribute_pieces Helpers.config about_page _ H Hne).
Defined.

Lemma path_attribute_alternatives_witness :
  Helpers.attributes about_page
    !! Helpers.name_of Helpers.config "pagePathAttribute" =
    Some "/about /info/:topic" /\
  "/about /info/:topic" <> "" /\
  exists tpl,
    Helpers.as_template (Helpers.getPagePathFromEl Helpers.config about_page) =
      Some tpl /\
    locationMatch simple_URL at_info tpl None =
      firstMatch simple_URL at_info (split " " "/about /info/:topic") None /\
    (truthy_result (locationMatch simple_URL at_info tpl None) = true <->
     exists piece,
       piece ∈ split " " "/about /info/:topic" /\
       is_Some (locationMatchExecutor simple_URL at_info piece None)).
Proof.
  assert (H : Helpers.attributes about_page
                !! Helpers.name_of Helpers.config "pagePathAttribute" =
              Some "/about /info/:topic").
  { vm_compute. reflexivity. }
  assert (Hne : "/about /info/:topic" <> "") by discriminate.
  split; [exact H|]. split; [exact Hne|].
  exact (path_attribute_alternatives Helpers.config simple_URL at_info
           about_page _ None H Hne).
Defined.

Lemma click_calls_witness :
  let e := click_on "https://site.example/about" in
  let calls :=
    [Router.preventDefault;
     Router.pushState "https://site.example/about";
     Router.dispatch_popstate None;
     Router.locationUpdatedCallback Router.popstate_event;
     Router.locationUpdatedCallback Router.click_event] in
  Router.on_click same_site e at_site = (calls, true) /\
  (calls = [] \/ exists rest, calls = Router.preventDefault :: rest) /\
  (forall url, Router.pushState url ∈ calls ->
     url <> Router.location_href at_site /\
     Router.href <$> Router.anchor_of e = Some url /\
     Router.callback_events calls =
       (if same_site url
        then [Router.popstate_event; Router.click_event] else []) /\
     true = same_site url) /\
  ((forall url, Router.pushState url ∉ calls) ->
   Router.callback_events calls = [] /\ true = true /\
   (Router.preventDefault ∈ calls ->
    calls = [Router.preventDefault] /\
    Router.href <$> Router.anchor_of e =
      Some (Router.location_href at_site))).
Proof.
  intros e calls.
  assert (H : Router.on_click same_site e at_site = (calls, true)).
  { vm_compute. reflexivity. }
  split; [exact H|].
  exact (click_calls same_site e at_site calls true H).
Defined.

Lemma route_activated_on_transition_witness :
  members_in_own_group page pages_world /\
  (forall k g, lookup_group k (elements pages_world) = Some g ->
               members g <> [] /\ fallback g <> Some 0) /\
  exists w' t,
    activateCurrentPath simple_URL at_main page (Some 1) pages_world =
      Returns tt w' t /\
    (route_activated 0 ∈ t <->
     (exists g, lookup_group (routingGroup (page 0))
                  (elements pages_world) = Some g /\
                0 ∈ members g) /\
     counts simple_URL at_main page 0 = true /\
     active_of (dom pages_world 0) = false).
Proof.
  assert (Hwf : members_in_own_group page pages_world).
  { apply members_in_own_group_b_sound. vm_compute. reflexivity. }
  assert (Hall : forall k g,
             lookup_group k (elements pages_world) = Some g ->
             members g <> [] /\ fallback g <> Some 0).
  { intros k g.
    change (lookup_group k (elements pages_world))
      with (if String.eqb "default" k then Some pages else None).
    destruct (String.eqb "default" k); [|discriminate].
    intros [= <-]. split; discriminate. }
  split; [exact Hwf|]. split; [exact Hall|].
  exact (route_activated_on_transition simple_URL at_main page (Some 1)
           pages_world 0 Hwf Hall).
Defined.
